(** * playlist_to_spotify: a shallow embedding and its verified properties

    The development follows src/playlist_to_spotify.py:
    - [PyStr]: the Python string operations the program uses
      (strip, in, split(sep, 1), startswith, lower, the #EXTINF regular
      expression, pathlib's name / stem / suffix);
    - [PlaylistReader]: read_m3u, read_txt, read_csv;
    - [Spotify], [Prog]: the remote service as an interface, and programs
      that thread its state, the log of the calls and the console;
    - [SpotifyManager]: the methods of the class, parametric in the
      service;
    - [Main]: the body of main after argument parsing;
    - [Sim]: a small executable service, to run the program on;
    - [Spec]: the vocabulary of the statements;
    then the facts, and one theorem per property C1 .. C10.

    Characters are code points below 256 (the Latin-1 range), so a Python
    str is a [string]; the whitespace, digit and case tables are Python's,
    restricted to that range. A text file is given by the lines iterating
    over it yields, a CSV file by the records csv.reader yields. *)

From Stdlib Require Import Ascii String List Arith Lia Bool.
From stdpp Require Import base option list strings gmap.

Local Open Scope string_scope.
Local Open Scope list_scope.
Local Open Scope nat_scope.
Local Arguments String.append : simpl nomatch.

(** ** Python strings *)

Module PyStr.

Definition code (c : ascii) : nat := nat_of_ascii c.

(** str.isspace on one character: TAB..CR, FS..US, SPACE, NEL, NBSP. *)
Definition is_space (c : ascii) : bool :=
  let n := code c in
  ((9 <=? n)%nat && (n <=? 13)%nat) || ((28 <=? n)%nat && (n <=? 32)%nat)
  || (n =? 133)%nat || (n =? 160)%nat.

(** \d on one character (the decimal digits below 256 are 0..9). *)
Definition is_digit (c : ascii) : bool :=
  let n := code c in (48 <=? n)%nat && (n <=? 57)%nat.

Definition newline : ascii := ascii_of_nat 10.
Definition carriage_return : ascii := ascii_of_nat 13.

(** Truth value of a str: non-empty. *)
Definition nonempty (s : string) : bool :=
  match s with "" => false | String _ _ => true end.

Fixpoint lstrip (s : string) : string :=
  match s with
  | "" => ""
  | String c s' => if is_space c then lstrip s' else s
  end.

Fixpoint rstrip (s : string) : string :=
  match s with
  | "" => ""
  | String c s' =>
      let r := rstrip s' in
      if is_space c && negb (nonempty r) then "" else String c r
  end.

(** s.strip() *)
Definition strip (s : string) : string := rstrip (lstrip s).

(** The rest of [s] after the prefix [p], when [s] starts with [p]. *)
Fixpoint strip_prefix (p s : string) : option string :=
  match p with
  | "" => Some s
  | String a p' =>
      match s with
      | "" => None
      | String b s' => if Ascii.eqb a b then strip_prefix p' s' else None
      end
  end.

(** s.startswith(p) *)
Definition startswith (p s : string) : bool :=
  match strip_prefix p s with Some _ => true | None => false end.

(** s.find(sep): the index of the first occurrence. *)
Fixpoint find (sep s : string) : option nat :=
  if startswith sep s then Some 0
  else match s with
       | "" => None
       | String _ s' => S <$> find sep s'
       end.

(** sep in s *)
Definition contains (sep s : string) : bool :=
  match find sep s with Some _ => true | None => false end.

Fixpoint take (n : nat) (s : string) : string :=
  match n, s with
  | S n', String c s' => String c (take n' s')
  | _, _ => ""
  end.

Fixpoint drop (n : nat) (s : string) : string :=
  match n, s with
  | S n', String _ s' => drop n' s'
  | _, _ => s
  end.

(** [a, b = s.split(sep, 1)]. The source reaches this unpacking only
    under [sep in s], where split returns exactly two parts; outside
    that guard (never taken) the pair is [(s, "")]. *)
Definition split_pair (sep s : string) : string * string :=
  match find sep s with
  | Some i => (take i s, drop (i + String.length sep) s)
  | None => (s, "")
  end.

(** s.lower() on one character: A..Z and the Latin-1 capitals. *)
Definition lower_char (c : ascii) : ascii :=
  let n := code c in
  if ((65 <=? n)%nat && (n <=? 90)%nat)
     || ((192 <=? n)%nat && (n <=? 222)%nat && negb (n =? 215)%nat)
  then ascii_of_nat (n + 32) else c.

Fixpoint lower (s : string) : string :=
  match s with
  | "" => ""
  | String c s' => String (lower_char c) (lower s')
  end.

(** *** re.search(r"#EXTINF:\d+,(.+)", line).group(1) *)

Fixpoint span_digits (s : string) : string * string :=
  match s with
  | "" => ("", "")
  | String c s' =>
      if is_digit c
      then let '(ds, r) := span_digits s' in (String c ds, r)
      else ("", s)
  end.

(** (.+): the longest run of characters other than a newline. *)
Fixpoint dot_plus (s : string) : string :=
  match s with
  | "" => ""
  | String c s' => if Ascii.eqb c newline then "" else String c (dot_plus s')
  end.

(** A match anchored at the start of [s]: the digit run is maximal, so it
    must be followed by the comma, and the group needs one character. *)
Definition match_extinf_here (s : string) : option string :=
  match strip_prefix "#EXTINF:" s with
  | None => None
  | Some r =>
      let '(ds, r') := span_digits r in
      if nonempty ds then
        match r' with
        | String c r'' =>
            if Ascii.eqb c "," then
              let info := dot_plus r'' in
              if nonempty info then Some info else None
            else None
        | "" => None
        end
      else None
  end.

(** re.search scans for the leftmost position with a match. *)
Fixpoint re_search_extinf (s : string) : option string :=
  match match_extinf_here s with
  | Some info => Some info
  | None =>
      match s with
      | "" => None
      | String _ s' => re_search_extinf s'
      end
  end.

(** *** pathlib (POSIX flavour) *)

(** s.split(sep) for a one-character separator. *)
Fixpoint split_char (sep : ascii) (s : string) : list string :=
  match s with
  | "" => [""]
  | String c s' =>
      if Ascii.eqb c sep then "" :: split_char sep s'
      else match split_char sep s' with
           | x :: xs => String c x :: xs
           | [] => [String c ""]
           end
  end.

(** The components kept by the path parser: empty ones and "." go. *)
Definition path_parts (p : string) : list string :=
  List.filter (fun x => nonempty x && negb (String.eqb x "."))
              (split_char "/" p).

(** Path(p).name *)
Definition path_name (p : string) : string := List.last (path_parts p) "".

(** name.rfind(".") *)
Fixpoint rfind (c : ascii) (s : string) : option nat :=
  match s with
  | "" => None
  | String a s' =>
      match rfind c s' with
      | Some i => Some (S i)
      | None => if Ascii.eqb a c then Some 0 else None
      end
  end.

(** The index of the dot that starts the suffix: [0 < i < len(name) - 1]. *)
Definition suffix_index (name : string) : option nat :=
  match rfind "." name with
  | Some i => if (0 <? i)%nat && (i <? String.length name - 1)%nat then Some i else None
  | None => None
  end.

(** Path(p).stem *)
Definition path_stem (p : string) : string :=
  let name := path_name p in
  match suffix_index name with
  | Some i => take i name
  | None => name
  end.

(** Path(p).suffix *)
Definition path_suffix (p : string) : string :=
  let name := path_name p in
  match suffix_index name with
  | Some i => drop i name
  | None => ""
  end.

(** *** Iterating over a text file (universal newlines) *)

Fixpoint file_lines_go (acc s : string) : list string :=
  match s with
  | "" => if nonempty acc then [acc] else []
  | String c s' =>
      if Ascii.eqb c newline then
        (acc +:+ String newline "") :: file_lines_go "" s'
      else if Ascii.eqb c carriage_return then
        match s' with
        | String d s'' =>
            if Ascii.eqb d newline
            then (acc +:+ String newline "") :: file_lines_go "" s''
            else (acc +:+ String newline "") :: file_lines_go "" s'
        | "" => (acc +:+ String newline "") :: file_lines_go "" s'
        end
      else file_lines_go (acc +:+ String c "") s'
  end.

(** The lines [for line in file] yields for a file with this content. *)
Definition file_lines (content : string) : list string :=
  file_lines_go "" content.

End PyStr.

(** ** PlaylistReader *)

Record Track := { artist : string; title : string }.

Module PlaylistReader.
Import PyStr.

(** *** read_m3u *)

(** The loop state: [tracks] and [current_track]; the empty dict is
    [None], a filled one (always truthy) is [Some]. *)
Definition M3uState : Type := list Track * option Track.

Definition m3u_step (st : M3uState) (raw : string) : M3uState :=
  let '(tracks, current_track) := st in
  let line := strip raw in
  if startswith "#EXTINF:" line then
    match re_search_extinf line with
    | Some info =>
        if contains " - " info then
          let '(a, t) := split_pair " - " info in
          (tracks, Some {| artist := strip a; title := strip t |})
        else
          (tracks, Some {| artist := ""; title := strip info |})
    | None => (tracks, current_track)
    end
  else if nonempty line && negb (startswith "#" line) then
    match current_track with
    | Some tr => (tracks ++ [tr], None)
    | None =>
        let filename := path_stem line in
        if contains " - " filename then
          let '(a, t) := split_pair " - " filename in
          (tracks ++ [{| artist := strip a; title := strip t |}], None)
        else
          (tracks ++ [{| artist := ""; title := filename |}], None)
    end
  else (tracks, current_track).

Definition m3u_loop (st : M3uState) (lines : list string) : M3uState :=
  fold_left m3u_step lines st.

Definition read_m3u (lines : list string) : list Track :=
  fst (m3u_loop ([], None) lines).

(** [current_track] once the loop has consumed [lines]. *)
Definition pending (lines : list string) : option Track :=
  snd (m3u_loop ([], None) lines).

(** *** read_txt *)

Definition txt_step (tracks : list Track) (raw : string) : list Track :=
  let line := strip raw in
  if negb (nonempty line) then tracks
  else if contains " - " line then
    let '(a, t) := split_pair " - " line in
    tracks ++ [{| artist := strip a; title := strip t |}]
  else if contains " by " line then
    let '(t, a) := split_pair " by " line in
    tracks ++ [{| artist := strip a; title := strip t |}]
  else
    tracks ++ [{| artist := ""; title := strip line |}].

Definition read_txt (lines : list string) : list Track :=
  fold_left txt_step lines [].

(** *** read_csv *)

(** A value of a DictReader row: a field, or the [None] that fills the
    columns a short row does not reach. *)
Inductive PyVal := PyNone | PyStr (s : string).

Definition truthy (v : PyVal) : bool :=
  match v with PyNone => false | PyStr s => nonempty s end.

(** a or b *)
Definition py_or (a b : PyVal) : PyVal := if truthy a then a else b.

(** row.get(key, "") *)
Definition row_get (row : gmap string PyVal) (key : string) : PyVal :=
  default (PyStr "") (row !! key).

(** The dict DictReader builds for one record: [dict(zip(fieldnames,
    row))], then [None] for the field names the record does not reach.
    (The surplus of a long record goes under the key [None], which no
    lookup of the program uses.) *)
Fixpoint make_row (d : gmap string PyVal) (fieldnames record : list string)
  : gmap string PyVal :=
  match fieldnames with
  | [] => d
  | k :: ks =>
      match record with
      | v :: vs => make_row (<[k := PyStr v]> d) ks vs
      | [] => make_row (<[k := PyNone]> d) ks []
      end
  end.

Inductive Exn := AttributeError.

Inductive Result (A : Type) := Ok (a : A) | Raise (e : Exn).
Arguments Ok {A} a.
Arguments Raise {A} e.

Definition resolve_artist (row : gmap string PyVal) : PyVal :=
  py_or (py_or (row_get row "artist") (row_get row "Artist"))
        (row_get row "ARTIST").

Definition resolve_title (row : gmap string PyVal) : PyVal :=
  py_or (py_or (py_or (py_or (py_or (py_or
    (row_get row "title") (row_get row "Title")) (row_get row "TITLE"))
    (row_get row "track")) (row_get row "Track"))
    (row_get row "song")) (row_get row "Song").

(** One iteration of the loop body; [artist.strip()] on [None] raises. *)
Definition csv_step (tracks : list Track) (row : gmap string PyVal)
  : Result (list Track) :=
  let a := resolve_artist row in
  let t := resolve_title row in
  match t with
  | PyStr ts =>
      if nonempty ts then
        match a with
        | PyStr as_ => Ok (tracks ++ [{| artist := strip as_; title := strip ts |}])
        | PyNone => Raise AttributeError
        end
      else Ok tracks
  | PyNone => Ok tracks
  end.

Fixpoint csv_loop (tracks : list Track) (rows : list (gmap string PyVal))
  : Result (list Track) :=
  match rows with
  | [] => Ok tracks
  | row :: rest =>
      match csv_step tracks row with
      | Ok tracks' => csv_loop tracks' rest
      | Raise e => Raise e
      end
  end.

(** The rows DictReader yields from the records of csv.reader: the first
    record gives the field names, empty records are skipped. *)
Definition dict_reader (records : list (list string))
  : list (gmap string PyVal) :=
  match records with
  | [] => []
  | fieldnames :: rest =>
      make_row ∅ fieldnames <$>
        List.filter (fun r => match r with [] => false | _ => true end) rest
  end.

(** read_csv over the records csv.reader(file, delimiter=";") tokenizes
    from the file: the function from the point where the file has been
    opened, decoded and cut into records. What open(), the UTF-8 decoding
    and the tokenizer can raise (OSError, UnicodeDecodeError, csv.Error)
    comes before that point and is not part of the model; [Exn] holds the
    one exception the body itself raises on records. *)
Definition read_csv (records : list (list string)) : Result (list Track) :=
  csv_loop [] (dict_reader records).

End PlaylistReader.


(** ** The remote service *)

Module Spotify.

(** What a call to the service does: it returns, or an exception
    escapes it. *)
Inductive Outcome (A : Type) := Returned (a : A) | Raised.
Arguments Returned {A} a.
Arguments Raised {A}.

(** A paginated response: the items of this page and, under "next", the
    cursor; [sp.next(page)] follows it, which is one more remote call.
    Pagings are finite: this is the assumption under which the source's
    [while page["next"]] loops end. *)
#[warnings="-register-all"]
Inductive Paging (W A : Type) : Type :=
  Page (items : list A) (next : option (W -> Outcome (Paging W A) * W)).
Arguments Page {W A} items next.

(** An entry of current_user_playlists()["items"]. *)
Record PlaylistEntry := { entry_name : string; entry_id : string }.

(** The client object [self.sp]. An item of a search result is
    represented by its "id"; an item of playlist_tracks by
    [item["track"]], [None] or the track's "id". *)
Record Service := {
  World : Type;
  connect : string -> string -> World -> Outcome unit * World;
  search : string -> string -> nat -> World -> Outcome (list string) * World;
  current_user_playlists :
    World -> Outcome (Paging World PlaylistEntry) * World;
  current_user : World -> Outcome string * World;
  user_playlist_create :
    string -> string -> bool -> string -> World -> Outcome string * World;
  playlist_add_items :
    string -> list string -> World -> Outcome unit * World;
  playlist_tracks :
    string -> World -> Outcome (Paging World (option string)) * World;
}.

(** The remote calls, as they are issued. *)
Inductive Call :=
| CallConnect (client_id client_secret : string)
| CallSearch (q type : string) (limit : nat)
| CallCurrentUserPlaylists
| CallNext
| CallCurrentUser
| CallUserPlaylistCreate (user name : string) (public : bool)
                         (description : string)
| CallPlaylistAddItems (playlist_id : string) (uris : list string)
| CallPlaylistTracks (playlist_id : string).

Definition is_add_call (c : Call) : bool :=
  match c with CallPlaylistAddItems _ _ => true | _ => false end.

End Spotify.

(** ** Console output *)

(** One constructor per print statement, carrying the interpolated values
    (the text of a caught exception is left out). *)
Inductive Msg :=
| MsgSearchError (title artist : string)
| MsgFindPlaylistError (name : string)
| MsgCreatePlaylistError (name : string)
| MsgAddTracksError
| MsgCheckTrackError
| MsgCredentialsRequired
| MsgFileNotFound (file_path : string)
| MsgUnsupportedFormat (file_ext : string)
| MsgNoTracksInFile
| MsgTracksInFile (count : nat)
| MsgConnectError
| MsgCreatingPlaylist (name : string)
| MsgCreateFailed
| MsgCreated (name : string)
| MsgPlaylistNotFound (name : string)
| MsgFoundPlaylist (name : string)
| MsgSearchingHeader
| MsgSearching (i total : nat) (artist title : string)
| MsgAlreadyInPlaylist
| MsgFound
| MsgNotFound
| MsgResults
| MsgFoundCount (count : nat)
| MsgNotFoundCount (count : nat)
| MsgNotFoundHeader
| MsgNotFoundTrack (artist title : string)
| MsgDryRun (count : nat) (name : string)
| MsgAdding (count : nat) (name : string)
| MsgAdded (name : string)
| MsgAddFailed
| MsgNoTracksToAdd.

(** ** Programs over the service: state, call log and console *)

Module Prog.
Import Spotify.

Record Run (W : Type) := MkRun {
  world : W;
  calls : list Call;
  stdout : list Msg;
}.
Arguments MkRun {W} world calls stdout.
Arguments world {W} r.
Arguments calls {W} r.
Arguments stdout {W} r.

Definition Prog (W A : Type) : Type := Run W -> A * Run W.

Definition ret {W A} (a : A) : Prog W A := fun r => (a, r).

Definition bind {W A B} (m : Prog W A) (k : A -> Prog W B) : Prog W B :=
  fun r => let '(a, r') := m r in k a r'.

Definition print {W} (m : Msg) : Prog W unit :=
  fun r => (tt, MkRun (world r) (calls r) (stdout r ++ [m])).

(** Issue the remote call [c], whose effect on the service is [f]. *)
Definition call {W A} (c : Call) (f : W -> Outcome A * W)
  : Prog W (Outcome A) :=
  fun r => let '(o, w) := f (world r) in
           (o, MkRun w (calls r ++ [c]) (stdout r)).

End Prog.

Notation "x <- m ;; k" := (Prog.bind m (fun x => k))
  (at level 100, m at next level, right associativity).
Notation "m ;;; k" := (Prog.bind m (fun _ => k))
  (at level 100, right associativity).

(** ** SpotifyManager *)

Module SpotifyManager.
Import PyStr Spotify Prog.

(** f"spotify:track:{track_id}" *)
Definition track_uri (track_id : string) : string :=
  "spotify:track:" +:+ track_id.

(** list(range(start, stop, step)) for a positive step. *)
Definition py_range (start stop step : nat) : list nat :=
  (fun k => start + k * step) <$> seq 0 ((stop - start + step - 1) / step).

(** l[i:j] for [0 <= i <= j]. *)
Definition slice {A} (l : list A) (i j : nat) : list A :=
  firstn (j - i) (skipn i l).

(** The argument of the call issued by the loop iteration with index [i]. *)
Definition batch_uris (track_ids : list string) (i : nat) : list string :=
  track_uri <$> slice track_ids i (i + 100).

(** The arguments of the calls the loop issues when none raises, in the
    order of the loop. *)
Definition batches (track_ids : list string) : list (list string) :=
  batch_uris track_ids <$> py_range 0 (length track_ids) 100.

(** The first item of a page the loop body returns on. *)
Fixpoint first_hit {A B} (probe : A -> option B) (items : list A)
  : option B :=
  match items with
  | [] => None
  | x :: rest =>
      match probe x with
      | Some b => Some b
      | None => first_hit probe rest
      end
  end.

Section Manager.
Context (S : Service).
Local Abbreviation W := (World S).

Definition search_query (artist title : string) : string :=
  if nonempty artist
  then "track:" +:+ title +:+ " artist:" +:+ artist
  else "track:" +:+ title.

Definition search_track (artist title : string)
  : Prog W (option string) :=
  let query := search_query artist title in
  o <- call (CallSearch query "track" 1) (search S query "track" 1) ;;
  match o with
  | Returned (id :: _) => ret (Some id)
  | Returned [] => ret None
  | Raised => print (MsgSearchError title artist) ;;; ret None
  end.

(** The scan shared by find_playlist and is_track_in_playlist: the
    [for] loop over the items of the page, then, while the page has a
    "next", [sp.next(page)] and the same [for] loop. *)
Fixpoint scan_pages {A B} (probe : A -> option B) (page : Paging W A)
         (r : Run W) : Outcome (option B) * Run W :=
  match page with
  | Page items next =>
      match first_hit probe items with
      | Some b => (Returned (Some b), r)
      | None =>
          match next with
          | None => (Returned None, r)
          | Some follow =>
              match follow (world r) with
              | (Returned page', w) =>
                  scan_pages probe page'
                             (MkRun w (calls r ++ [CallNext]) (stdout r))
              | (Raised, w) =>
                  (Raised, MkRun w (calls r ++ [CallNext]) (stdout r))
              end
          end
      end
  end.

Definition name_probe (playlist_name : string) (playlist : PlaylistEntry)
  : option string :=
  if String.eqb (lower (entry_name playlist)) (lower playlist_name)
  then Some (entry_id playlist) else None.

Definition find_playlist (playlist_name : string)
  : Prog W (option string) :=
  o <- call CallCurrentUserPlaylists (current_user_playlists S) ;;
  match o with
  | Returned playlists =>
      o' <- scan_pages (name_probe playlist_name) playlists ;;
      match o' with
      | Returned found => ret found
      | Raised => print (MsgFindPlaylistError playlist_name) ;;; ret None
      end
  | Raised => print (MsgFindPlaylistError playlist_name) ;;; ret None
  end.

Definition create_playlist (playlist_name description : string)
  : Prog W (option string) :=
  o <- call CallCurrentUser (current_user S) ;;
  match o with
  | Returned user_id =>
      o' <- call (CallUserPlaylistCreate user_id playlist_name false
                                         description)
                 (user_playlist_create S user_id playlist_name false
                                       description) ;;
      match o' with
      | Returned playlist_id => ret (Some playlist_id)
      | Raised =>
          print (MsgCreatePlaylistError playlist_name) ;;; ret None
      end
  | Raised => print (MsgCreatePlaylistError playlist_name) ;;; ret None
  end.

(** The [for i in range(0, len(track_ids), 100)] loop; [false] when a
    call raised, which leaves the loop. *)
Fixpoint add_batches (playlist_id : string) (track_ids : list string)
         (starts : list nat) : Prog W bool :=
  match starts with
  | [] => ret true
  | i :: rest =>
      let track_uris := batch_uris track_ids i in
      o <- call (CallPlaylistAddItems playlist_id track_uris)
                (playlist_add_items S playlist_id track_uris) ;;
      match o with
      | Returned _ => add_batches playlist_id track_ids rest
      | Raised => ret false
      end
  end.

Definition add_tracks_to_playlist (playlist_id : string)
           (track_ids : list string) : Prog W bool :=
  done <- add_batches playlist_id track_ids
                      (py_range 0 (length track_ids) 100) ;;
  if done then ret true
  else print MsgAddTracksError ;;; ret false.

(** item["track"] and item["track"]["id"] == track_id *)
Definition track_probe (track_id : string) (item : option string)
  : option unit :=
  match item with
  | Some id => if String.eqb id track_id then Some tt else None
  | None => None
  end.

Definition is_track_in_playlist (playlist_id track_id : string)
  : Prog W bool :=
  o <- call (CallPlaylistTracks playlist_id)
            (playlist_tracks S playlist_id) ;;
  match o with
  | Returned tracks =>
      o' <- scan_pages (track_probe track_id) tracks ;;
      match o' with
      | Returned (Some _) => ret true
      | Returned None => ret false
      | Raised => print MsgCheckTrackError ;;; ret false
      end
  | Raised => print MsgCheckTrackError ;;; ret false
  end.

End Manager.
End SpotifyManager.

(** ** main *)

Module Main.
Import PyStr PlaylistReader Spotify Prog SpotifyManager.

(** The parsed command line. *)
Record Args := {
  playlist_file : string;
  playlist_name : string;
  client_id : option string;
  client_secret : option string;
  create_playlist_flag : bool;
  skip_duplicates : bool;
  dry_run : bool;
}.

Record Environ := {
  SPOTIFY_CLIENT_ID : option string;
  SPOTIFY_CLIENT_SECRET : option string;
}.

(** An existing, readable input file: the lines iterating over it
    yields, and the records csv.reader(file, delimiter=";") yields. *)
Record InputFile := {
  file_text : list string;
  file_records : list (list string);
}.

(** How the process ends: main returns, sys.exit(1), or an exception
    nobody catches. *)
Inductive Exit := ExitOk | ExitFailure | Uncaught (e : Exn).

Inductive Format := M3U | TXT | CSV.

(** a or b, on optional strings *)
Definition or_else (a b : option string) : option string :=
  match a with
  | Some s => if nonempty s then a else b
  | None => b
  end.

(** The value when it is truthy: neither [None] nor "". *)
Definition truthy_str (a : option string) : option string :=
  match a with
  | Some s => if nonempty s then Some s else None
  | None => None
  end.

(** The if / elif chain on [file_ext]. *)
Definition format_of_ext (file_ext : string) : option Format :=
  if String.eqb file_ext ".m3u" then Some M3U
  else if String.eqb file_ext ".txt" then Some TXT
  else if String.eqb file_ext ".csv" then Some CSV
  else None.

(** file_ext = Path(file_path).suffix.lower() *)
Definition file_ext_of (file_path : string) : string :=
  lower (path_suffix file_path).

Definition dispatch (file_path : string) : option Format :=
  format_of_ext (file_ext_of file_path).

Definition read_playlist (fmt : Format) (file : InputFile)
  : Result (list Track) :=
  match fmt with
  | M3U => Ok (read_m3u (file_text file))
  | TXT => Ok (read_txt (file_text file))
  | CSV => read_csv (file_records file)
  end.

Section Body.
Context (S : Service).
Local Abbreviation W := (World S).

(** Lines 298-318: find or create the playlist. *)
Definition resolve_playlist (args : Args) : Prog W (Exit + string) :=
  found <- find_playlist S (playlist_name args) ;;
  match truthy_str found with
  | Some playlist_id =>
      print (MsgFoundPlaylist (playlist_name args)) ;;;
      ret (inr playlist_id)
  | None =>
      if create_playlist_flag args then
        print (MsgCreatingPlaylist (playlist_name args)) ;;;
        created <- create_playlist S (playlist_name args)
                     ("Imported from " +:+ path_name (playlist_file args)) ;;
        match truthy_str created with
        | Some playlist_id =>
            print (MsgCreated (playlist_name args)) ;;;
            ret (inr playlist_id)
        | None => print MsgCreateFailed ;;; ret (inl ExitFailure)
        end
      else
        print (MsgPlaylistNotFound (playlist_name args)) ;;;
        ret (inl ExitFailure)
  end.

(** Lines 325-341: the loop over [enumerate(tracks, 1)]. *)
Fixpoint search_loop (args : Args) (playlist_id : string) (total : nat)
         (i : nat) (tracks : list Track)
         (found_tracks : list string) (not_found_tracks : list Track)
  : Prog W (list string * list Track) :=
  match tracks with
  | [] => ret (found_tracks, not_found_tracks)
  | track :: rest =>
      print (MsgSearching i total (artist track) (title track)) ;;;
      track_id <- search_track S (artist track) (title track) ;;
      match truthy_str track_id with
      | Some id =>
          present <- (if skip_duplicates args
                      then is_track_in_playlist S playlist_id id
                      else ret false) ;;
          if present then
            print MsgAlreadyInPlaylist ;;;
            search_loop args playlist_id total (1 + i) rest
                        found_tracks not_found_tracks
          else
            print MsgFound ;;;
            search_loop args playlist_id total (1 + i) rest
                        (found_tracks ++ [id]) not_found_tracks
      | None =>
          print MsgNotFound ;;;
          search_loop args playlist_id total (1 + i) rest
                      found_tracks (not_found_tracks ++ [track])
      end
  end.

(** Lines 343-351: the summary. *)
Definition summary (found_tracks : list string)
           (not_found_tracks : list Track) : list Msg :=
  [MsgResults; MsgFoundCount (length found_tracks);
   MsgNotFoundCount (length not_found_tracks)]
  ++ match not_found_tracks with
     | [] => []
     | _ :: _ =>
         MsgNotFoundHeader ::
         ((fun tr => MsgNotFoundTrack (artist tr) (title tr))
            <$> not_found_tracks)
     end.

Fixpoint print_all (msgs : list Msg) : Prog W unit :=
  match msgs with
  | [] => ret tt
  | m :: rest => print m ;;; print_all rest
  end.

(** Lines 353-371: add the tracks, or say what would be added. *)
Definition add_phase (args : Args) (playlist_id : string)
           (found_tracks : list string) : Prog W Exit :=
  match found_tracks with
  | _ :: _ =>
      if dry_run args then
        print (MsgDryRun (length found_tracks) (playlist_name args)) ;;;
        ret ExitOk
      else
        print (MsgAdding (length found_tracks) (playlist_name args)) ;;;
        added <- add_tracks_to_playlist S playlist_id found_tracks ;;
        if added then
          print (MsgAdded (playlist_name args)) ;;; ret ExitOk
        else
          print MsgAddFailed ;;; ret ExitFailure
  | [] => print MsgNoTracksToAdd ;;; ret ExitOk
  end.

(** Lines 320-371: search, report, add. *)
Definition reconcile (args : Args) (playlist_id : string)
           (tracks : list Track) : Prog W Exit :=
  print MsgSearchingHeader ;;;
  res <- search_loop args playlist_id (length tracks) 1 tracks [] [] ;;
  let '(found_tracks, not_found_tracks) := res in
  print_all (summary found_tracks not_found_tracks) ;;;
  add_phase args playlist_id found_tracks.

(** Lines 289-371: what main does with the tracks it has read. *)
Definition session (args : Args) (cid csecret : string)
           (tracks : list Track) : Prog W Exit :=
  print (MsgTracksInFile (length tracks)) ;;;
  o <- call (CallConnect cid csecret) (connect S cid csecret) ;;
  match o with
  | Raised => print MsgConnectError ;;; ret ExitFailure
  | Returned _ =>
      pl <- resolve_playlist args ;;
      match pl with
      | inl e => ret e
      | inr playlist_id => reconcile args playlist_id tracks
      end
  end.

(** main, from the line after [parser.parse_args()]. [fs] gives the file
    at a path, [None] when os.path.exists is false. *)
Definition main (args : Args) (env : Environ)
           (fs : string -> option InputFile) : Prog W Exit :=
  let cid := or_else (client_id args) (SPOTIFY_CLIENT_ID env) in
  let csecret := or_else (client_secret args) (SPOTIFY_CLIENT_SECRET env) in
  match truthy_str cid, truthy_str csecret with
  | Some cid, Some csecret =>
      let file_path := playlist_file args in
      match fs file_path with
      | None => print (MsgFileNotFound file_path) ;;; ret ExitFailure
      | Some file =>
          let file_ext := file_ext_of file_path in
          match format_of_ext file_ext with
          | None =>
              print (MsgUnsupportedFormat file_ext) ;;; ret ExitFailure
          | Some fmt =>
              match read_playlist fmt file with
              | Raise e => ret (Uncaught e)
              | Ok [] => print MsgNoTracksInFile ;;; ret ExitFailure
              | Ok tracks => session args cid csecret tracks
              end
          end
      end
  | _, _ => print MsgCredentialsRequired ;;; ret ExitFailure
  end.

End Body.
End Main.

(** ** A reference service *)

(** A small executable service, used to run the program: a catalogue that
    answers searches, the user's playlists with their tracks in order, and
    a script of failures (the head decides whether the next call raises).
    Listings come in pages of the service's default sizes. *)
Module Sim.
Import PyStr Spotify SpotifyManager.

Record SimWorld := MkSim {
  sim_catalog : gmap string (list string);
  sim_user : string;
  sim_listing : list PlaylistEntry;
  sim_tracks : gmap string (list string);
  sim_faults : list bool;
}.

Definition with_faults (w : SimWorld) (faults : list bool) : SimWorld :=
  MkSim (sim_catalog w) (sim_user w) (sim_listing w) (sim_tracks w) faults.

Definition with_tracks (w : SimWorld) (tracks : gmap string (list string))
  : SimWorld :=
  MkSim (sim_catalog w) (sim_user w) (sim_listing w) tracks (sim_faults w).

(** Run a call unless the script says it fails. *)
Definition attempt {A} (f : SimWorld -> Outcome A * SimWorld)
           (w : SimWorld) : Outcome A * SimWorld :=
  match sim_faults w with
  | true :: rest => (Raised, with_faults w rest)
  | false :: rest => f (with_faults w rest)
  | [] => f w
  end.

Fixpoint pages_at {A} (size : nat) (l : list A) (offsets : list nat)
  : Paging SimWorld A :=
  match offsets with
  | [] => Page [] None
  | o :: rest =>
      Page (slice l o (o + size))
           match rest with
           | [] => None
           | _ :: _ =>
               Some (attempt (fun w => (Returned (pages_at size l rest), w)))
           end
  end.

Definition pages {A} (size : nat) (l : list A) : Paging SimWorld A :=
  pages_at size l (py_range 0 (length l) size).

Definition track_of_uri (uri : string) : option string :=
  strip_prefix "spotify:track:" uri.

Definition sim_add_items (playlist_id : string) (uris : list string)
           (w : SimWorld) : Outcome unit * SimWorld :=
  match sim_tracks w !! playlist_id, mapM track_of_uri uris with
  | Some old, Some ids =>
      if length uris <=? 100
      then (Returned tt,
            with_tracks w (<[playlist_id := old ++ ids]> (sim_tracks w)))
      else (Raised, w)
  | _, _ => (Raised, w)
  end.

Definition sim_create (user name : string) (public : bool)
           (description : string) (w : SimWorld) : Outcome string * SimWorld :=
  let id := "playlist-" +:+ name in
  match sim_tracks w !! id with
  | Some _ => (Raised, w)
  | None =>
      (Returned id,
       MkSim (sim_catalog w) (sim_user w)
             (sim_listing w ++ [{| entry_name := name; entry_id := id |}])
             (<[id := []]> (sim_tracks w)) (sim_faults w))
  end.

Definition service : Service := {|
  World := SimWorld;
  connect _ _ := attempt (fun w => (Returned tt, w));
  search q _ limit :=
    attempt (fun w =>
      (Returned (firstn limit (default [] (sim_catalog w !! q))), w));
  current_user_playlists :=
    attempt (fun w => (Returned (pages 50 (sim_listing w)), w));
  current_user := attempt (fun w => (Returned (sim_user w), w));
  user_playlist_create user name public description :=
    attempt (sim_create user name public description);
  playlist_add_items playlist_id uris :=
    attempt (sim_add_items playlist_id uris);
  playlist_tracks playlist_id :=
    attempt (fun w =>
      match sim_tracks w !! playlist_id with
      | Some ids => (Returned (pages 100 (Some <$> ids)), w)
      | None => (Raised, w)
      end);
|}.

(** The id search_track gets for a track from the catalogue, when it is
    truthy. *)
Definition resolved (catalog : gmap string (list string)) (track : Track)
  : option string :=
  Main.truthy_str
    (head (default [] (catalog !! search_query (artist track) (title track)))).

(** The ids a run with skip-duplicates collects: the resolved ids, in the
    order of the tracks, that are not in the playlist. *)
Definition new_ids (catalog : gmap string (list string))
           (playlist : list string) (tracks : list Track) : list string :=
  List.filter (fun id => bool_decide (id ∉ playlist))
              (omap (resolved catalog) tracks).

End Sim.

(** ** Sample inputs *)

Module Samples.
Import PyStr PlaylistReader Spotify Prog SpotifyManager Main Sim.

Definition catalog : gmap string (list string) :=
  list_to_map
    [("track:One More Time artist:Daft Punk", ["id-omt"; "id-omt-live"]);
     ("track:Bohemian Rhapsody artist:Queen", ["id-br"]);
     ("track:Yesterday", ["id-y"])].

Definition world0 : SimWorld :=
  MkSim catalog "user-1"
        [{| entry_name := "Road Trip"; entry_id := "pl-1" |}]
        {["pl-1" := ["id-y"]]} [].

Definition tracks3 : list Track :=
  [{| artist := "Daft Punk"; title := "One More Time" |};
   {| artist := "Queen"; title := "Bohemian Rhapsody" |};
   {| artist := ""; title := "Unknown Song" |}].

Definition args0 : Args := {|
  playlist_file := "/home/me/list.TXT";
  playlist_name := "road trip";
  client_id := Some "cid";
  client_secret := None;
  create_playlist_flag := false;
  skip_duplicates := true;
  dry_run := false;
|}.

Definition dry_args : Args := {|
  playlist_file := "/home/me/list.TXT";
  playlist_name := "road trip";
  client_id := Some "cid";
  client_secret := None;
  create_playlist_flag := false;
  skip_duplicates := true;
  dry_run := true;
|}.

Definition env0 : Environ := {|
  SPOTIFY_CLIENT_ID := None;
  SPOTIFY_CLIENT_SECRET := Some "secret";
|}.

Definition file0 : InputFile := {|
  file_text := ["Daft Punk - One More Time"; "";
                "Bohemian Rhapsody by Queen"; "Yesterday"; "Unknown Song"];
  file_records := [];
|}.

Definition fs0 (path : string) : option InputFile :=
  if String.eqb path "/home/me/list.TXT" then Some file0 else None.

Definition start (w : SimWorld) : Run SimWorld := MkRun w [] [].

Definition mp3_args : Args := {|
  playlist_file := "/home/me/Song.MP3";
  playlist_name := "road trip";
  client_id := Some "cid";
  client_secret := Some "secret";
  create_playlist_flag := true;
  skip_duplicates := false;
  dry_run := false;
|}.

(** 250 track ids: "t" followed by a run of "x". *)
Fixpoint xs (n : nat) : string :=
  match n with 0 => "" | S n' => String "x" (xs n') end.

Definition ids250 : list string := (fun n => "t" +:+ xs n) <$> seq 0 250.

End Samples.


(** ** Vocabulary of the statements *)

Module Spec.
Import PyStr.

(** [sep] occurs in [s]. *)
Definition occurs (sep s : string) : Prop :=
  exists a t, s = a +:+ sep +:+ t.

(** [s] split once, at the first occurrence of [sep]. *)
Definition first_split (sep s a t : string) : Prop :=
  s = a +:+ sep +:+ t /\
  forall a' t', s = a' +:+ sep +:+ t' -> String.length a <= String.length a'.

(** No whitespace at either end. *)
Definition trimmed (s : string) : Prop :=
  (forall c r, s = String c r -> is_space c = false) /\
  (forall r c, s = r +:+ String c "" -> is_space c = false).

Fixpoint all_chars (P : ascii -> bool) (s : string) : bool :=
  match s with
  | "" => true
  | String c s' => P c && all_chars P s'
  end.

Definition not_newline (c : ascii) : bool := negb (Ascii.eqb c newline).

(** A line of an M3U file that names a file: not blank and, once
    stripped, not starting with "#". *)
Definition path_line (raw : string) : Prop :=
  strip raw <> "" /\ forall r, strip raw <> "#" +:+ r.

(** The artist and title taken from "Artist - Title" text [s]; [rest]
    is the title when there is no " - ". *)
Definition dash_fields (s rest : string) (tr : Track) : Prop :=
  (occurs " - " s ->
     exists a t, first_split " - " s a t /\
                 artist tr = strip a /\ title tr = strip t) /\
  (~ occurs " - " s -> artist tr = "" /\ title tr = rest).

(** The calls [playlist_add_items(playlist_id, uris)] for [batches], one
    after the other from the world [w], all return and leave [w']. *)
Inductive applied (S : Spotify.Service) (playlist_id : string)
  : Spotify.World S -> list (list string) -> Spotify.World S -> Prop :=
| applied_nil w : applied S playlist_id w [] w
| applied_cons w uris w' rest w'' :
    Spotify.playlist_add_items S playlist_id uris w
    = (Spotify.Returned tt, w') ->
    applied S playlist_id w' rest w'' ->
    applied S playlist_id w (uris :: rest) w''.

(** From [r] to [r'] the run only issued calls that satisfy [P], and only
    printed: both logs grew at the end. *)
Definition extends {W} (P : Spotify.Call -> Prop) (r r' : Prog.Run W) : Prop :=
  exists cs ms,
    Prog.calls r' = Prog.calls r ++ cs /\
    Prog.stdout r' = Prog.stdout r ++ ms /\
    Forall P cs.

(** The program [m] only issues calls that satisfy [P], whatever the run
    it starts from. *)
Definition only {W A} (P : Spotify.Call -> Prop) (m : Prog.Prog W A) : Prop :=
  forall r, extends P r (m r).2.

(** A call other than playlist_add_items. *)
Definition not_add (c : Spotify.Call) : Prop := Spotify.is_add_call c = false.

(** The fixed priority lists of header names. *)
Definition artist_keys : list string := ["artist"; "Artist"; "ARTIST"].
Definition title_keys : list string :=
  ["title"; "Title"; "TITLE"; "track"; "Track"; "song"; "Song"].

(** The first non-empty field of the row under one of [keys], in that
    order; "" when there is none. *)
Fixpoint first_nonempty (keys : list string)
         (row : gmap string PlaylistReader.PyVal) : string :=
  match keys with
  | [] => ""
  | k :: ks =>
      match row !! k with
      | Some (PlaylistReader.PyStr s) =>
          if nonempty s then s else first_nonempty ks row
      | _ => first_nonempty ks row
      end
  end.

End Spec.

(** ** Vocabulary of the further properties *)

Module Props.
Import PyStr.

(** The test of read_txt for a line that counts: not blank. *)
Definition is_entry_line (raw : string) : bool := nonempty (strip raw).

(** The test of read_m3u for a line that closes an entry: not blank and,
    once stripped, not starting with "#". *)
Definition is_path_line (raw : string) : bool :=
  nonempty (strip raw) && negb (startswith "#" (strip raw)).

(** A line read_m3u passes over: blank, or a "#" line that is not an
    "#EXTINF:" line. *)
Definition skipped_line (raw : string) : Prop :=
  strip raw = "" \/
  ((exists r, strip raw = "#" +:+ r) /\
   forall r, strip raw <> "#EXTINF:" +:+ r).

(** The value a DictReader row holds for the column at index [i] of a
    record: the field, or [None] past the end of a short record. *)
Definition field_at (record : list string) (i : nat) : PlaylistReader.PyVal :=
  match record !! i with
  | Some s => PlaylistReader.PyStr s
  | None => PlaylistReader.PyNone
  end.

(** The search call of the loop for one track. *)
Definition search_call (track : Track) : Spotify.Call :=
  Spotify.CallSearch
    (SpotifyManager.search_query (artist track) (title track)) "track" 1.

(** Which call each flag of the command line lets the run issue:
    playlist creation needs --create-playlist, the listing of the
    playlist's tracks needs --skip-duplicates, the append is off under
    --dry-run. *)
Definition allowed (args : Main.Args) (c : Spotify.Call) : bool :=
  match c with
  | Spotify.CallCurrentUser => Main.create_playlist_flag args
  | Spotify.CallUserPlaylistCreate _ _ _ _ => Main.create_playlist_flag args
  | Spotify.CallPlaylistTracks _ => Main.skip_duplicates args
  | Spotify.CallPlaylistAddItems _ _ => negb (Main.dry_run args)
  | _ => true
  end.

(** An append call for [playlist_id] with 1 to 100 URIs. *)
Definition bounded_add (playlist_id : string) (c : Spotify.Call) : Prop :=
  exists uris, c = Spotify.CallPlaylistAddItems playlist_id uris /\
               0 < length uris <= 100.

(** The test of find_playlist on one entry of the listing. *)
Definition name_matches (playlist_name : string) (e : Spotify.PlaylistEntry)
  : bool :=
  String.eqb (lower (Spotify.entry_name e)) (lower playlist_name).

(** The shape main gives to its calls: a search asks for one result of
    type "track"; a playlist is created private, under the requested name,
    with the description that names the input file. *)
Definition well_shaped (args : Main.Args) (c : Spotify.Call) : Prop :=
  match c with
  | Spotify.CallSearch _ type limit => type = "track" /\ limit = 1
  | Spotify.CallUserPlaylistCreate _ name public description =>
      name = Main.playlist_name args /\ public = false /\
      description
      = "Imported from " +:+ path_name (Main.playlist_file args)
  | _ => True
  end.

(** The last line of a run that ends with exit status 0. *)
Definition final_message (args : Main.Args) (m : Msg) : Prop :=
  m = MsgNoTracksToAdd \/
  (Main.dry_run args = true /\
   exists n, 0 < n /\ m = MsgDryRun n (Main.playlist_name args)) \/
  (Main.dry_run args = false /\ m = MsgAdded (Main.playlist_name args)).

(** The id the reference service gives to a playlist it creates. *)
Definition created_id (name : string) : string := "playlist-" +:+ name.

End Props.

(** ** Facts about the string operations *)

Module PyStrFacts.
Import PyStr Spec.

Lemma append_nil_r (s : string) : s +:+ "" = s.
Proof. induction s as [|c s IH]; simpl; [done | by rewrite IH]. Qed.

Lemma append_assoc (a b c : string) : (a +:+ b) +:+ c = a +:+ (b +:+ c).
Proof. induction a as [|x a IH]; simpl; [done | by rewrite IH]. Qed.

Lemma length_append (a b : string) :
  String.length (a +:+ b) = String.length a + String.length b.
Proof. induction a as [|x a IH]; simpl; [done | by rewrite IH]. Qed.

Lemma nonempty_true (s : string) : nonempty s = true <-> s <> "".
Proof. destruct s; simpl; split; congruence. Qed.

Lemma nonempty_false (s : string) : nonempty s = false <-> s = "".
Proof. destruct s; simpl; split; congruence. Qed.

(** Every non-empty string ends with a character. *)
Lemma last_char (s : string) :
  s <> "" -> exists r c, s = r +:+ String c "".
Proof.
  induction s as [|x s IH]; [done | intros _].
  destruct s as [|y s'].
  - by exists "", x.
  - destruct IH as (r & c & E); [done |].
    exists (String x r), c. simpl. by rewrite <- E.
Qed.

Lemma strip_prefix_spec (p s r : string) :
  strip_prefix p s = Some r <-> s = p +:+ r.
Proof.
  revert s; induction p as [|a p IH]; intros s; simpl.
  - split; congruence.
  - destruct s as [|b s]; [split; congruence |].
    destruct (Ascii.eqb_spec a b) as [->|Hne].
    + rewrite IH. split; congruence.
    + split; congruence.
Qed.

Lemma strip_prefix_app (p r : string) : strip_prefix p (p +:+ r) = Some r.
Proof. by apply strip_prefix_spec. Qed.

Lemma startswith_spec (p s : string) :
  startswith p s = true <-> exists r, s = p +:+ r.
Proof.
  unfold startswith. destruct (strip_prefix p s) as [r|] eqn:E.
  - apply strip_prefix_spec in E. split; eauto.
  - split; [done |]. intros [r Hr].
    apply strip_prefix_spec in Hr. congruence.
Qed.

Lemma take_append (a b : string) : take (String.length a) (a +:+ b) = a.
Proof. induction a as [|x a IH]; simpl; [by destruct b | by rewrite IH]. Qed.

Lemma drop_append (a b : string) : drop (String.length a) (a +:+ b) = b.
Proof. induction a as [|x a IH]; simpl; [by destruct b | done]. Qed.

(** s.find(sep) is the length of the part before the first occurrence. *)
Lemma find_Some (sep s : string) (i : nat) :
  find sep s = Some i ->
  exists a t, first_split sep s a t /\ String.length a = i.
Proof.
  revert i; induction s as [|c s IH]; intros i; simpl.
  - destruct (startswith sep "") eqn:E; [|done].
    intros [= <-]. apply startswith_spec in E as [r Hr].
    exists "", r. repeat split; simpl; [done | lia].
  - destruct (startswith sep (String c s)) eqn:E.
    + intros [= <-]. apply startswith_spec in E as [r Hr].
      exists "", r. repeat split; simpl; [done | lia].
    + destruct (find sep s) as [j|] eqn:F; simpl; [|done].
      intros [= <-]. destruct (IH j eq_refl) as (a & t & [Ha Hmin] & Hl).
      exists (String c a), t. repeat split; simpl.
      * by rewrite Ha.
      * intros a' t' E'. destruct a' as [|c' a'].
        { exfalso. simpl in E'.
          assert (startswith sep (String c s) = true) as Hs
            by (apply startswith_spec; eauto).
          congruence. }
        simpl in E'. injection E' as -> E'.
        simpl. specialize (Hmin _ _ E'). lia.
      * by rewrite Hl.
Qed.

Lemma find_None (sep s : string) : find sep s = None -> ~ occurs sep s.
Proof.
  induction s as [|c s IH]; simpl.
  - destruct (startswith sep "") eqn:E; [done | intros _].
    intros (a & t & H). destruct a; [|done]. simpl in H.
    assert (startswith sep "" = true) by (apply startswith_spec; eauto).
    congruence.
  - destruct (startswith sep (String c s)) eqn:E; [done |].
    destruct (find sep s) eqn:F; simpl; [done | intros _].
    intros (a & t & H). destruct a as [|c' a]; simpl in H.
    + assert (startswith sep (String c s) = true)
        by (apply startswith_spec; eauto).
      congruence.
    + injection H as -> H. apply IH; [done |]. by exists a, t.
Qed.

Lemma contains_spec (sep s : string) : contains sep s = true <-> occurs sep s.
Proof.
  unfold contains. destruct (find sep s) as [i|] eqn:E.
  - split; [intros _ | done].
    apply find_Some in E as (a & t & [Ha _] & _). by exists a, t.
  - split; [done |]. intros H. by apply find_None in E.
Qed.

Lemma contains_false (sep s : string) :
  contains sep s = false <-> ~ occurs sep s.
Proof.
  rewrite <- contains_spec. destruct (contains sep s); split; congruence.
Qed.

(** The two targets of [a, b = s.split(sep, 1)] under [sep in s]. *)
Lemma split_pair_spec (sep s : string) :
  occurs sep s ->
  exists a t, split_pair sep s = (a, t) /\ first_split sep s a t.
Proof.
  intros H. apply contains_spec in H. unfold contains, split_pair in *.
  destruct (find sep s) as [i|] eqn:E; [|done].
  apply find_Some in E as (a & t & [Ha Hmin] & <-).
  exists a, t. split; [|by split].
  rewrite Ha at 1 2. rewrite take_append.
  by rewrite <- length_append, <- append_assoc, drop_append.
Qed.

Lemma first_split_unique (sep s a t a' t' : string) :
  first_split sep s a t -> first_split sep s a' t' -> a = a' /\ t = t'.
Proof.
  intros [E1 M1] [E2 M2].
  assert (String.length a = String.length a') as Hl.
  { specialize (M1 _ _ E2). specialize (M2 _ _ E1). lia. }
  assert (a = a') as ->.
  { rewrite <- (take_append a (sep +:+ t)), <- E1, E2, Hl.
    apply take_append. }
  split; [done |].
  rewrite E1 in E2. apply String.app_inj in E2. by apply String.app_inj in E2.
Qed.

End PyStrFacts.

(** ** Facts about strip *)

Module StripFacts.
Import PyStr Spec PyStrFacts.

Lemma lstrip_head (s : string) :
  lstrip s = "" \/ exists c r, lstrip s = String c r /\ is_space c = false.
Proof.
  induction s as [|c s IH]; simpl; [by left |].
  destruct (is_space c) eqn:E; [done | right; eauto].
Qed.

Lemma rstrip_cons (c : ascii) (r : string) :
  is_space c = false -> rstrip (String c r) = String c (rstrip r).
Proof. intros H. simpl. by rewrite H. Qed.

Lemma rstrip_snoc (r : string) (c : ascii) :
  is_space c = false -> rstrip (r +:+ String c "") = r +:+ String c "".
Proof.
  intros H. induction r as [|x r IH]; simpl.
  - by rewrite H.
  - simpl in IH. rewrite IH.
    replace (nonempty (r +:+ String c "")) with true
      by (by destruct r).
    by rewrite andb_false_r.
Qed.

Lemma rstrip_last (x r : string) (c : ascii) :
  rstrip x = r +:+ String c "" -> is_space c = false.
Proof.
  revert r; induction x as [|a x IH]; intros r; simpl.
  - by destruct r.
  - destruct (is_space a && negb (nonempty (rstrip x))) eqn:E.
    + by destruct r.
    + destruct r as [|b r]; simpl.
      * intros [= -> Hx]. rewrite Hx in E. simpl in E.
        by rewrite andb_true_r in E.
      * intros [= _ Hx]. by apply (IH r).
Qed.

Lemma strip_trimmed (s : string) : trimmed (strip s).
Proof.
  unfold strip. split.
  - intros c r E. destruct (lstrip_head s) as [H | (c' & r' & H & Hc)];
      rewrite H in E.
    + done.
    + rewrite rstrip_cons in E by done. by injection E as -> _.
  - intros r c E. by apply rstrip_last in E.
Qed.

Lemma trimmed_nil : trimmed "".
Proof. split; [done | intros r c E; by destruct r]. Qed.

Lemma strip_of_trimmed (s : string) : trimmed s -> strip s = s.
Proof.
  intros [Hfirst Hlast]. unfold strip.
  assert (lstrip s = s) as ->.
  { destruct s as [|c r]; [done |]. simpl. by rewrite (Hfirst c r). }
  destruct s as [|x s']; [done |].
  destruct (last_char (String x s')) as (r & c & E); [done |].
  rewrite E. apply rstrip_snoc. by apply (Hlast r c).
Qed.

Lemma strip_idem (s : string) : strip (strip s) = strip s.
Proof. apply strip_of_trimmed, strip_trimmed. Qed.

(** A string that ends with a non-blank character does not strip to "". *)
Lemma strip_snoc_nonempty (r : string) (c : ascii) :
  is_space c = false -> strip (r +:+ String c "") <> "".
Proof.
  intros H. unfold strip.
  assert (exists r', lstrip (r +:+ String c "") = r' +:+ String c "")
    as [r' ->].
  { induction r as [|x r IH]; simpl.
    - rewrite H. by exists "".
    - destruct (is_space x); [done |]. by exists (String x r). }
  rewrite rstrip_snoc by done. by destruct r'.
Qed.

(** A string that starts with a non-blank character does not either. *)
Lemma strip_cons_nonempty (c : ascii) (r : string) :
  is_space c = false -> strip (String c r) <> "".
Proof.
  intros H. unfold strip. simpl lstrip. rewrite H.
  by rewrite rstrip_cons.
Qed.

End StripFacts.

(** ** read_txt *)

Module TxtFacts.
Import PyStr PlaylistReader Spec PyStrFacts StripFacts.

(** The loop only appends: the tracks of a line do not depend on the
    tracks collected so far. *)
Lemma txt_step_app (tracks : list Track) (raw : string) :
  txt_step tracks raw = tracks ++ txt_step [] raw.
Proof.
  unfold txt_step.
  destruct (nonempty (strip raw)); simpl; [|by rewrite app_nil_r].
  destruct (contains " - " (strip raw)).
  { by destruct (split_pair " - " (strip raw)). }
  destruct (contains " by " (strip raw)); [|done].
  by destruct (split_pair " by " (strip raw)).
Qed.

Lemma txt_loop_app (lines : list string) (tracks : list Track) :
  fold_left txt_step lines tracks = tracks ++ read_txt lines.
Proof.
  unfold read_txt. revert tracks.
  induction lines as [|raw lines IH]; intros tracks; simpl.
  - by rewrite app_nil_r.
  - rewrite (IH (txt_step tracks raw)), (IH (txt_step [] raw)).
    by rewrite txt_step_app, app_assoc.
Qed.

Lemma read_txt_app (pre post : list string) :
  read_txt (pre ++ post) = read_txt pre ++ read_txt post.
Proof.
  unfold read_txt at 1. rewrite fold_left_app.
  fold (read_txt pre). apply txt_loop_app.
Qed.

Lemma read_txt_cons (raw : string) (post : list string) :
  read_txt (raw :: post) = txt_step [] raw ++ read_txt post.
Proof. unfold read_txt at 1. simpl. apply txt_loop_app. Qed.

(** What one non-blank line contributes. *)
Lemma txt_step_line (raw : string) :
  strip raw <> "" ->
  exists tr,
    txt_step [] raw = [tr] /\
    trimmed (artist tr) /\ trimmed (title tr) /\
    (occurs " - " (strip raw) ->
       exists a t, first_split " - " (strip raw) a t /\
                   artist tr = strip a /\ title tr = strip t) /\
    (~ occurs " - " (strip raw) -> occurs " by " (strip raw) ->
       exists t a, first_split " by " (strip raw) t a /\
                   artist tr = strip a /\ title tr = strip t) /\
    (~ occurs " - " (strip raw) -> ~ occurs " by " (strip raw) ->
       artist tr = "" /\ title tr = strip raw).
Proof.
  intros Hne. unfold txt_step.
  apply nonempty_true in Hne. rewrite Hne. simpl.
  destruct (contains " - " (strip raw)) eqn:Hdash.
  - apply contains_spec in Hdash.
    destruct (split_pair_spec _ _ Hdash) as (a & t & -> & Hsplit).
    eexists. split; [done |]. simpl.
    repeat split; try apply strip_trimmed; try done.
    by exists a, t.
  - apply contains_false in Hdash.
    destruct (contains " by " (strip raw)) eqn:Hby.
    + apply contains_spec in Hby.
      destruct (split_pair_spec _ _ Hby) as (t & a & -> & Hsplit).
      eexists. split; [done |]. simpl.
      repeat split; try apply strip_trimmed; try done.
      by exists t, a.
    + apply contains_false in Hby.
      eexists. split; [done |]. simpl.
      repeat split; try apply strip_trimmed; try apply trimmed_nil;
        try done.
      apply strip_idem.
Qed.

(** read_txt never lets an empty title through: the blank test comes
    after the strip. *)
Lemma txt_step_title (raw : string) (tr : Track) :
  tr ∈ txt_step [] raw -> title tr <> "".
Proof.
  unfold txt_step.
  destruct (nonempty (strip raw)) eqn:Hne; simpl; [|by intros ?%elem_of_nil].
  apply nonempty_true in Hne.
  destruct (strip_trimmed raw) as [Hfirst Hlast].
  destruct (contains " - " (strip raw)) eqn:Hdash.
  - apply contains_spec in Hdash.
    destruct (split_pair_spec _ _ Hdash) as (a & t & -> & [E _]).
    intros ->%list_elem_of_singleton. simpl.
    destruct t as [|x t'].
    + exfalso. rewrite append_nil_r in E.
      assert (is_space " "%char = false) as Hsp; [|by vm_compute in Hsp].
      apply (Hlast (a +:+ " -") " "%char). rewrite E.
      by rewrite append_assoc.
    + destruct (last_char (String x t')) as (r & c & Et); [done |].
      rewrite Et. apply strip_snoc_nonempty.
      apply (Hlast (a +:+ " - " +:+ r) c). rewrite E, Et.
      by rewrite !append_assoc.
  - destruct (contains " by " (strip raw)) eqn:Hby.
    + apply contains_spec in Hby.
      destruct (split_pair_spec _ _ Hby) as (t & a & -> & [E _]).
      intros ->%list_elem_of_singleton. simpl.
      destruct t as [|x t'].
      * exfalso. simpl in E.
        assert (is_space " "%char = false) as Hsp; [|by vm_compute in Hsp].
        by apply (Hfirst " "%char ("by " +:+ a)).
      * apply strip_cons_nonempty.
        apply (Hfirst x (t' +:+ " by " +:+ a)). by rewrite E.
    + intros ->%list_elem_of_singleton. simpl. by rewrite strip_idem.
Qed.

Lemma read_txt_titles (lines : list string) (tr : Track) :
  tr ∈ read_txt lines -> title tr <> "".
Proof.
  induction lines as [|raw lines IH].
  - by intros ?%elem_of_nil.
  - rewrite read_txt_cons. intros [H | H]%elem_of_app; [|by apply IH].
    by apply (txt_step_title raw).
Qed.

End TxtFacts.

(** C2. For every non-blank line of a .txt input, read_txt adds exactly one
    track, in file order: split once at the first " - " into (artist,
    title) when the stripped line contains " - "; otherwise split once at
    the first " by " into (title, artist); otherwise the whole stripped
    line is the title and the artist is empty. Every field is trimmed.
    The line "Bohemian Rhapsody by Queen" gives artist "Queen" and title
    "Bohemian Rhapsody". *)
Theorem read_txt_line_probes :
  (forall (pre post : list string) (raw : string),
     PyStr.strip raw <> "" ->
     exists tr,
       PlaylistReader.read_txt (pre ++ raw :: post)
       = PlaylistReader.read_txt pre ++ tr :: PlaylistReader.read_txt post /\
       Spec.trimmed (artist tr) /\ Spec.trimmed (title tr) /\
       (Spec.occurs " - " (PyStr.strip raw) ->
          exists a t, Spec.first_split " - " (PyStr.strip raw) a t /\
                      artist tr = PyStr.strip a /\ title tr = PyStr.strip t) /\
       (~ Spec.occurs " - " (PyStr.strip raw) ->
        Spec.occurs " by " (PyStr.strip raw) ->
          exists t a, Spec.first_split " by " (PyStr.strip raw) t a /\
                      artist tr = PyStr.strip a /\ title tr = PyStr.strip t) /\
       (~ Spec.occurs " - " (PyStr.strip raw) ->
        ~ Spec.occurs " by " (PyStr.strip raw) ->
          artist tr = "" /\ title tr = PyStr.strip raw)) /\
  PlaylistReader.read_txt ["Bohemian Rhapsody by Queen"]
  = [{| artist := "Queen"; title := "Bohemian Rhapsody" |}].
Proof.
  split; [|reflexivity].
  intros pre post raw Hne.
  destruct (TxtFacts.txt_step_line raw Hne) as (tr & Hstep & Hrest).
  exists tr. split; [|exact Hrest].
  rewrite TxtFacts.read_txt_app, TxtFacts.read_txt_cons, Hstep.
  reflexivity.
Qed.

Lemma read_txt_line_probes_witness :
  PyStr.strip "  Radiohead - Karma Police " <> "" /\
  exists tr,
    PlaylistReader.read_txt
      (["Hello"] ++ "  Radiohead - Karma Police " :: ["Yesterday"])
    = PlaylistReader.read_txt ["Hello"]
      ++ tr :: PlaylistReader.read_txt ["Yesterday"].
Proof.
  assert (PyStr.strip "  Radiohead - Karma Police " <> "") as H
    by (vm_compute; discriminate).
  split; [exact H |].
  destruct (proj1 read_txt_line_probes ["Hello"] ["Yesterday"]
                  "  Radiohead - Karma Police " H) as (tr & E & _).
  exists tr. exact E.
Defined.

(** ** read_m3u *)

Module M3uFacts.
Import PyStr PlaylistReader Spec PyStrFacts StripFacts.

Lemma m3u_step_app (ts : list Track) (cur : option Track) (raw : string) :
  m3u_step (ts, cur) raw
  = (ts ++ fst (m3u_step ([], cur) raw), snd (m3u_step ([], cur) raw)).
Proof.
  unfold m3u_step.
  destruct (startswith "#EXTINF:" (strip raw)).
  { destruct (re_search_extinf (strip raw)) as [info|];
      [|by rewrite app_nil_r].
    destruct (contains " - " info); [|by rewrite app_nil_r].
    destruct (split_pair " - " info). by rewrite app_nil_r. }
  destruct (nonempty (strip raw) && negb (startswith "#" (strip raw)));
    [|by rewrite app_nil_r].
  destruct cur as [tr|]; [done |].
  destruct (contains " - " (path_stem (strip raw))); [|done].
  by destruct (split_pair " - " (path_stem (strip raw))).
Qed.

Lemma m3u_loop_app (lines : list string) (ts : list Track)
      (cur : option Track) :
  m3u_loop (ts, cur) lines
  = (ts ++ fst (m3u_loop ([], cur) lines), snd (m3u_loop ([], cur) lines)).
Proof.
  unfold m3u_loop. revert ts cur.
  induction lines as [|raw lines IH]; intros ts cur; cbn [fold_left].
  - simpl. by rewrite app_nil_r.
  - rewrite m3u_step_app.
    destruct (m3u_step ([], cur) raw) as [emitted cur'].
    cbn [fst snd]. rewrite (IH (ts ++ emitted)), (IH emitted).
    cbn [fst snd]. by rewrite app_assoc.
Qed.

(** The tracks of a file are those of its first part, then those the
    loop collects from the rest, entered with the slot the first part
    leaves. *)
Lemma read_m3u_app (pre post : list string) :
  read_m3u (pre ++ post)
  = read_m3u pre ++ fst (m3u_loop ([], pending pre) post).
Proof.
  unfold read_m3u, pending, m3u_loop. rewrite fold_left_app.
  destruct (fold_left m3u_step pre ([], None)) as [ts cur] eqn:E.
  fold (m3u_loop (ts, cur) post). by rewrite m3u_loop_app.
Qed.

Lemma span_digits_app (ds rest : string) :
  all_chars is_digit ds = true ->
  (forall c r, rest = String c r -> is_digit c = false) ->
  span_digits (ds +:+ rest) = (ds, rest).
Proof.
  intros Hds Hrest. induction ds as [|d ds IH]; simpl.
  - destruct rest as [|c r]; [done |]. simpl. by rewrite (Hrest c r).
  - simpl in Hds. apply andb_true_iff in Hds as [Hd Hds].
    rewrite Hd. by rewrite IH.
Qed.

Lemma dot_plus_all (s : string) :
  all_chars not_newline s = true -> dot_plus s = s.
Proof.
  induction s as [|c s IH]; simpl; [done |].
  intros [Hc Hs]%andb_true_iff. unfold not_newline in Hc.
  apply negb_true_iff in Hc. rewrite Hc. by rewrite IH.
Qed.

Lemma re_search_extinf_line (ds info : string) :
  ds <> "" -> all_chars is_digit ds = true ->
  info <> "" -> all_chars not_newline info = true ->
  re_search_extinf ("#EXTINF:" +:+ ds +:+ "," +:+ info) = Some info.
Proof.
  intros Hds Hdig Hinfo Hnl.
  assert (match_extinf_here ("#EXTINF:" +:+ ds +:+ "," +:+ info)
          = Some info) as Hhere.
  { unfold match_extinf_here. rewrite strip_prefix_app.
    rewrite span_digits_app; [| done | by intros c r [= <- _]].
    apply nonempty_true in Hds. rewrite Hds. simpl.
    rewrite dot_plus_all by done.
    apply nonempty_true in Hinfo. by rewrite Hinfo. }
  simpl. simpl in Hhere. by rewrite Hhere.
Qed.

(** A metadata line fills the slot and adds no track. *)
Lemma m3u_step_extinf (ts : list Track) (cur : option Track)
      (raw ds info : string) :
  strip raw = "#EXTINF:" +:+ ds +:+ "," +:+ info ->
  ds <> "" -> all_chars is_digit ds = true ->
  info <> "" -> all_chars not_newline info = true ->
  exists tr, dash_fields info (strip info) tr /\
             m3u_step (ts, cur) raw = (ts, Some tr).
Proof.
  intros Hline Hds Hdig Hinfo Hnl. unfold m3u_step. rewrite Hline.
  assert (startswith "#EXTINF:" ("#EXTINF:" +:+ ds +:+ "," +:+ info) = true)
    as -> by (apply startswith_spec; eauto).
  rewrite re_search_extinf_line by done.
  destruct (contains " - " info) eqn:Hdash.
  - apply contains_spec in Hdash.
    destruct (split_pair_spec _ _ Hdash) as (a & t & -> & Hsplit).
    eexists. split; [|done]. split; [|done].
    intros _. by exists a, t.
  - apply contains_false in Hdash.
    eexists. split; [|done]. by split.
Qed.

(** A path line closes the entry: the slot is emitted, or the stem of
    the file name stands in for it. *)
Lemma m3u_step_path (ts : list Track) (cur : option Track) (raw : string) :
  path_line raw ->
  exists tr,
    m3u_step (ts, cur) raw = (ts ++ [tr], None) /\
    match cur with
    | Some tr0 => tr = tr0
    | None => dash_fields (path_stem (strip raw)) (path_stem (strip raw)) tr
    end.
Proof.
  intros [Hne Hhash]. unfold m3u_step.
  assert (startswith "#EXTINF:" (strip raw) = false) as ->.
  { destruct (startswith "#EXTINF:" (strip raw)) eqn:E; [|done].
    apply startswith_spec in E as [r Hr].
    by destruct (Hhash ("EXTINF:" +:+ r)). }
  assert (startswith "#" (strip raw) = false) as ->.
  { destruct (startswith "#" (strip raw)) eqn:E; [|done].
    apply startswith_spec in E as [r Hr]. by destruct (Hhash r). }
  apply nonempty_true in Hne. rewrite Hne. simpl.
  destruct cur as [tr0|]; [by exists tr0 |].
  destruct (contains " - " (path_stem (strip raw))) eqn:Hdash.
  - apply contains_spec in Hdash.
    destruct (split_pair_spec _ _ Hdash) as (a & t & -> & Hsplit).
    eexists. split; [done |]. split; [|done].
    intros _. by exists a, t.
  - apply contains_false in Hdash.
    eexists. split; [done |]. by split.
Qed.

Lemma m3u_loop_cons (st : M3uState) (raw : string) (rest : list string) :
  m3u_loop st (raw :: rest) = m3u_loop (m3u_step st raw) rest.
Proof. reflexivity. Qed.

Lemma pending_nil : pending [] = None.
Proof. reflexivity. Qed.

(** After a path line the slot is empty. *)
Lemma pending_after_path (pre : list string) (raw : string) :
  path_line raw -> pending (pre ++ [raw]) = None.
Proof.
  intros H. unfold pending, m3u_loop. rewrite fold_left_app. simpl.
  destruct (fold_left m3u_step pre ([], None)) as [ts cur].
  destruct (m3u_step_path ts cur raw H) as (tr & -> & _). done.
Qed.

End M3uFacts.

(** C3. In a .m3u input, a "#EXTINF:<digits>,<info>" line immediately
    followed by a path line adds exactly one track, which carries the
    artist and title of <info>: split once at the first " - ", both
    trimmed, or empty artist and the trimmed <info> as title. A path line
    met with the pending slot empty adds exactly one track, taken from the
    stem of the file name, split the same way (with no " - ", the stem
    itself is the title). The two lines "#EXTINF:123,Daft Punk - One More
    Time" and "/music/a.mp3" give the one track Daft Punk, One More
    Time. *)
Theorem read_m3u_entries :
  (forall (pre post : list string) (m p ds info : string),
     PyStr.strip m = "#EXTINF:" +:+ ds +:+ "," +:+ info ->
     ds <> "" -> Spec.all_chars PyStr.is_digit ds = true ->
     info <> "" -> Spec.all_chars Spec.not_newline info = true ->
     Spec.path_line p ->
     exists tr,
       Spec.dash_fields info (PyStr.strip info) tr /\
       PlaylistReader.read_m3u (pre ++ m :: p :: post)
       = PlaylistReader.read_m3u pre ++ tr :: PlaylistReader.read_m3u post) /\
  (forall (pre post : list string) (p : string),
     PlaylistReader.pending pre = None ->
     Spec.path_line p ->
     exists tr,
       Spec.dash_fields (PyStr.path_stem (PyStr.strip p))
                        (PyStr.path_stem (PyStr.strip p)) tr /\
       PlaylistReader.read_m3u (pre ++ p :: post)
       = PlaylistReader.read_m3u pre ++ tr :: PlaylistReader.read_m3u post) /\
  PlaylistReader.read_m3u
    (PyStr.file_lines ("#EXTINF:123,Daft Punk - One More Time"
                       +:+ String PyStr.newline "/music/a.mp3"))
  = [{| artist := "Daft Punk"; title := "One More Time" |}].
Proof.
  split; [|split; [|reflexivity]].
  - intros pre post m p ds info Hm Hds Hdig Hinfo Hnl Hp.
    destruct (M3uFacts.m3u_step_extinf [] (PlaylistReader.pending pre)
                m ds info Hm Hds Hdig Hinfo Hnl) as (tr & Hfields & Hstep1).
    destruct (M3uFacts.m3u_step_path [] (Some tr) p Hp) as (tr' & Hstep2 & ->).
    exists tr. split; [exact Hfields |].
    rewrite M3uFacts.read_m3u_app. f_equal.
    rewrite !M3uFacts.m3u_loop_cons, Hstep1, Hstep2.
    rewrite M3uFacts.m3u_loop_app. reflexivity.
  - intros pre post p Hpending Hp.
    destruct (M3uFacts.m3u_step_path [] None p Hp) as (tr & Hstep & Hfields).
    exists tr. split; [exact Hfields |].
    rewrite M3uFacts.read_m3u_app, Hpending. f_equal.
    rewrite M3uFacts.m3u_loop_cons, Hstep.
    rewrite M3uFacts.m3u_loop_app. reflexivity.
Qed.

Lemma read_m3u_entries_witness :
  (exists tr,
     Spec.dash_fields "Daft Punk - One More Time"
                      (PyStr.strip "Daft Punk - One More Time") tr /\
     PlaylistReader.read_m3u
       (["#EXTM3U"] ++ "#EXTINF:123,Daft Punk - One More Time"
                    :: "/music/a.mp3" :: ["b.mp3"])
     = PlaylistReader.read_m3u ["#EXTM3U"]
       ++ tr :: PlaylistReader.read_m3u ["b.mp3"]) /\
  (exists tr,
     Spec.dash_fields (PyStr.path_stem (PyStr.strip "/music/Queen - Jealousy.mp3"))
                      (PyStr.path_stem (PyStr.strip "/music/Queen - Jealousy.mp3"))
                      tr /\
     PlaylistReader.read_m3u ([] ++ "/music/Queen - Jealousy.mp3" :: [])
     = PlaylistReader.read_m3u [] ++ tr :: PlaylistReader.read_m3u []).
Proof.
  split.
  - apply (proj1 read_m3u_entries ["#EXTM3U"] ["b.mp3"]
                 "#EXTINF:123,Daft Punk - One More Time" "/music/a.mp3"
                 "123" "Daft Punk - One More Time").
    + reflexivity.
    + discriminate.
    + reflexivity.
    + discriminate.
    + reflexivity.
    + split; [vm_compute; discriminate | intros r; vm_compute; discriminate].
  - apply (proj1 (proj2 read_m3u_entries) [] []
                 "/music/Queen - Jealousy.mp3").
    + reflexivity.
    + split; [vm_compute; discriminate | intros r; vm_compute; discriminate].
Defined.

(** An "#EXTINF:" line whose duration is not a run of digits sets no
    metadata: the path line after "#EXTINF:-1,Daft Punk - One More Time"
    gives a track named after the file, not after the metadata. *)
Lemma read_m3u_negative_duration :
  PyStr.strip "#EXTINF:-1,Daft Punk - One More Time"
  = "#EXTINF:" +:+ "-1" +:+ "," +:+ "Daft Punk - One More Time" /\
  Spec.path_line "/music/a.mp3" /\
  PlaylistReader.read_m3u
    ["#EXTINF:-1,Daft Punk - One More Time"; "/music/a.mp3"]
  = [{| artist := ""; title := "a" |}] /\
  ~ exists tr,
      Spec.dash_fields "Daft Punk - One More Time"
                       (PyStr.strip "Daft Punk - One More Time") tr /\
      PlaylistReader.read_m3u
        ([] ++ "#EXTINF:-1,Daft Punk - One More Time" :: "/music/a.mp3" :: [])
      = PlaylistReader.read_m3u [] ++ tr :: PlaylistReader.read_m3u [].
Proof.
  split; [reflexivity |].
  split; [split; [vm_compute; discriminate
                 | intros r; vm_compute; discriminate] |].
  split; [reflexivity |].
  intros (tr & [Hdash _] & Hread).
  assert (Spec.occurs " - " "Daft Punk - One More Time") as Hocc
    by (by apply PyStrFacts.contains_spec).
  destruct (Hdash Hocc) as (a & t & Hsplit & Ha & _).
  destruct (PyStrFacts.split_pair_spec _ _ Hocc) as (a0 & t0 & Hpair & Hsplit0).
  destruct (PyStrFacts.first_split_unique _ _ _ _ _ _ Hsplit Hsplit0) as [-> _].
  vm_compute in Hpair. injection Hpair as <- _.
  vm_compute in Hread. injection Hread as <-.
  vm_compute in Ha. discriminate.
Qed.

(** ** read_csv *)

Module CsvFacts.
Import PyStr PlaylistReader Spec PyStrFacts.

Lemma py_or_truthy (a b : PyVal) : truthy a = true -> py_or a b = a.
Proof. unfold py_or. by intros ->. Qed.

Lemma py_or_falsy (a b : PyVal) : truthy a = false -> py_or a b = b.
Proof. unfold py_or. by intros ->. Qed.

Lemma row_get_truthy (row : gmap string PyVal) (k : string)
      (ks : list string) :
  truthy (row_get row k) = true ->
  row_get row k = PyStr (first_nonempty (k :: ks) row).
Proof.
  unfold row_get. simpl.
  destruct (row !! k) as [[|s]|]; simpl; try done.
  by intros ->.
Qed.

Lemma row_get_falsy (row : gmap string PyVal) (k : string)
      (ks : list string) :
  truthy (row_get row k) = false ->
  first_nonempty (k :: ks) row = first_nonempty ks row.
Proof.
  unfold row_get. simpl.
  destruct (row !! k) as [[|s]|]; simpl; try done.
  by intros ->.
Qed.

(** A falsy last operand is "" or the [None] of a short row. *)
Lemma row_get_last (row : gmap string PyVal) (k : string) :
  truthy (row_get row k) = false ->
  (row_get row k = PyNone /\ row !! k = Some PyNone) \/
  (row_get row k = PyStr "" /\ row !! k <> Some PyNone).
Proof.
  unfold row_get.
  destruct (row !! k) as [[|s]|]; simpl; try (right; by split).
  - left; by split.
  - destruct s; [right; by split | done].
Qed.

(** A probe of the chain that hits: the whole chain is its value. *)
Ltac hit E ks :=
  rewrite !(py_or_truthy _ _ E);
  rewrite (row_get_truthy _ _ ks E) in E |- *;
  simpl in E; by split.

(** A probe that misses: go on with the next operand. *)
Ltac miss E :=
  rewrite (py_or_falsy _ _ E), (row_get_falsy _ _ _ E).

(** The artist chain: the first non-empty field among artist, Artist,
    ARTIST, else "" -- unless the row is too short to reach an ARTIST
    column, which leaves [None]. *)
Lemma resolve_artist_spec (row : gmap string PyVal) :
  (resolve_artist row = PyStr (first_nonempty artist_keys row) /\
   (first_nonempty artist_keys row = "" -> row !! "ARTIST" <> Some PyNone))
  \/ (resolve_artist row = PyNone /\ first_nonempty artist_keys row = "" /\
      row !! "ARTIST" = Some PyNone).
Proof.
  unfold resolve_artist, artist_keys.
  destruct (truthy (row_get row "artist")) eqn:E1.
  { rewrite !(py_or_truthy _ _ E1).
    rewrite (row_get_truthy _ _ ["Artist"; "ARTIST"] E1) in E1 |- *.
    left. split; [done |]. intros H. by rewrite H in E1. }
  rewrite (py_or_falsy _ _ E1), (row_get_falsy _ _ _ E1).
  destruct (truthy (row_get row "Artist")) eqn:E2.
  { rewrite !(py_or_truthy _ _ E2).
    rewrite (row_get_truthy _ _ ["ARTIST"] E2) in E2 |- *.
    left. split; [done |]. intros H. by rewrite H in E2. }
  rewrite (py_or_falsy _ _ E2), (row_get_falsy _ _ _ E2).
  destruct (truthy (row_get row "ARTIST")) eqn:E3.
  { rewrite (row_get_truthy _ _ [] E3) in E3 |- *.
    left. split; [done |]. intros H. by rewrite H in E3. }
  rewrite (row_get_falsy _ _ _ E3). simpl.
  destruct (row_get_last _ _ E3) as [[-> H] | [-> H]].
  - right. by repeat split.
  - left. by split.
Qed.

(** The title chain: a truthy result is the first non-empty field of the
    priority list; otherwise there is none. *)
Lemma resolve_title_spec (row : gmap string PyVal) :
  truthy (resolve_title row) = nonempty (first_nonempty title_keys row) /\
  (truthy (resolve_title row) = true ->
   resolve_title row = PyStr (first_nonempty title_keys row)).
Proof.
  unfold resolve_title, title_keys.
  destruct (truthy (row_get row "title")) eqn:E1;
    [hit E1 ["Title"; "TITLE"; "track"; "Track"; "song"; "Song"] | miss E1].
  destruct (truthy (row_get row "Title")) eqn:E2;
    [hit E2 ["TITLE"; "track"; "Track"; "song"; "Song"] | miss E2].
  destruct (truthy (row_get row "TITLE")) eqn:E3;
    [hit E3 ["track"; "Track"; "song"; "Song"] | miss E3].
  destruct (truthy (row_get row "track")) eqn:E4;
    [hit E4 ["Track"; "song"; "Song"] | miss E4].
  destruct (truthy (row_get row "Track")) eqn:E5;
    [hit E5 ["song"; "Song"] | miss E5].
  destruct (truthy (row_get row "song")) eqn:E6;
    [hit E6 ["Song"] | miss E6].
  destruct (truthy (row_get row "Song")) eqn:E7.
  { rewrite (row_get_truthy _ _ [] E7) in E7 |- *. simpl in E7. by split. }
  rewrite (row_get_falsy _ _ _ E7). simpl. by split.
Qed.

(** One row, when no short row leaves its ARTIST column unfilled: the
    row is skipped without a title, and otherwise gives the track of the
    two resolved fields, trimmed. *)
Lemma csv_step_resolved (tracks : list Track) (row : gmap string PyVal) :
  row !! "ARTIST" <> Some PyNone ->
  csv_step tracks row
  = Ok (if nonempty (first_nonempty title_keys row)
        then tracks ++ [{| artist := strip (first_nonempty artist_keys row);
                           title := strip (first_nonempty title_keys row) |}]
        else tracks).
Proof.
  intros Hfilled. unfold csv_step.
  destruct (resolve_title_spec row) as [Ht Hval].
  destruct (resolve_artist_spec row) as [[-> _] | [_ [_ H]]]; [|done].
  destruct (truthy (resolve_title row)) eqn:E.
  - rewrite (Hval eq_refl). by rewrite <- Ht.
  - rewrite <- Ht. destruct (resolve_title row) as [|s]; [done |].
    simpl in E. by rewrite E.
Qed.

(** The loop raises exactly on a titled row whose artist resolves to the
    [None] of a short row. *)
Lemma csv_step_raises (tracks : list Track) (row : gmap string PyVal) :
  csv_step tracks row = Raise AttributeError <->
  first_nonempty title_keys row <> "" /\
  first_nonempty artist_keys row = "" /\ row !! "ARTIST" = Some PyNone.
Proof.
  unfold csv_step.
  destruct (resolve_title_spec row) as [Ht Hval].
  destruct (resolve_artist_spec row) as [[-> Hok] | [-> [He Hnone]]].
  - split.
    + destruct (resolve_title row) as [|s]; [done |].
      by destruct (nonempty s).
    + intros (_ & He & Hnone). by destruct (Hok He).
  - destruct (truthy (resolve_title row)) eqn:E.
    + rewrite (Hval eq_refl). rewrite <- Ht.
      split; [intros _ | done].
      repeat split; try done. apply nonempty_true. by rewrite <- Ht.
    + symmetry in Ht. apply nonempty_false in Ht.
      split; [| by intros [? _]].
      destruct (resolve_title row) as [|s]; [done |].
      simpl in E. by rewrite E.
Qed.

End CsvFacts.

(** C1. The invariant "every track of the output has a non-empty title"
    holds for read_txt, whose blank test comes after the strip, and fails
    for the other two readers: read_csv tests the title before it strips
    it, so a blank title column gives a track with title ""; read_m3u
    takes the stem of a path line as it is, and the path "/" has the
    stem "". *)
Theorem empty_title_in_output :
  (forall (lines : list string) (tr : Track),
     tr ∈ PlaylistReader.read_txt lines -> title tr <> "") /\
  PlaylistReader.read_csv [["title"; "artist"]; ["   "; "Queen"]]
  = PlaylistReader.Ok [{| artist := "Queen"; title := "" |}] /\
  PlaylistReader.read_m3u ["/"] = [{| artist := ""; title := "" |}].
Proof.
  split; [exact TxtFacts.read_txt_titles |].
  split; reflexivity.
Qed.

(** C4. A row that is too short to reach its ARTIST column, and has a
    title, makes read_csv raise instead of taking the empty artist: with
    the header "title;ARTIST" the record "Yesterday" ends the run with an
    AttributeError, where the record "Yesterday;" gives the track with
    the empty artist. *)
Theorem read_csv_short_row_raises :
  PlaylistReader.read_csv [["title"; "ARTIST"]; ["Yesterday"]]
  = PlaylistReader.Raise PlaylistReader.AttributeError /\
  PlaylistReader.read_csv [["title"; "ARTIST"]; ["Yesterday"; ""]]
  = PlaylistReader.Ok [{| artist := ""; title := "Yesterday" |}].
Proof. split; reflexivity. Qed.

(** ** Batches *)

Module BatchFacts.
Import Spotify Prog SpotifyManager Spec.

Lemma py_range_0 (n : nat) :
  py_range 0 n 100 = (fun k => k * 100) <$> seq 0 ((n + 99) / 100).
Proof. unfold py_range. by replace (n - 0 + 100 - 1) with (n + 99) by lia. Qed.

Lemma slice_0 {A} (l : list A) (n : nat) : slice l 0 n = take n l.
Proof. unfold slice. by rewrite Nat.sub_0_r. Qed.

Lemma slice_chunk {A} (l : list A) (i : nat) :
  slice l i (i + 100) = take 100 (drop i l).
Proof. unfold slice. by replace (i + 100 - i) with 100 by lia. Qed.

(** Cutting a list every 100 items and gluing the pieces gives it back,
    however many (enough) pieces are cut. *)
Lemma chunks_concat {A} (k : nat) (l : list A) :
  length l <= k * 100 ->
  concat ((fun j => take 100 (drop (j * 100) l)) <$> seq 0 k) = l.
Proof.
  revert l. induction k as [|k IH]; intros l Hl.
  - destruct l; [done | simpl in Hl; lia].
  - cbn [seq fmap list_fmap concat]. rewrite <- seq_shift.
    rewrite <- list_fmap_compose. change (0 * 100) with 0. rewrite drop_0.
    transitivity (take 100 l ++ drop 100 l); [|apply take_drop].
    f_equal.
    etransitivity; [|apply (IH (drop 100 l)); rewrite length_drop; lia].
    f_equal. apply list_fmap_ext. intros _ j _. simpl.
    rewrite drop_drop. repeat f_equal; lia.
Qed.

Lemma chunk_count (n : nat) : n <= (n + 99) / 100 * 100.
Proof.
  pose proof (Nat.div_mod_eq (n + 99) 100) as H.
  pose proof (Nat.mod_upper_bound (n + 99) 100) as H'. lia.
Qed.

Lemma batches_eq (track_ids : list string) :
  batches track_ids
  = (fun j => track_uri <$> take 100 (drop (j * 100) track_ids))
      <$> seq 0 ((length track_ids + 99) / 100).
Proof.
  unfold batches, batch_uris. rewrite py_range_0, <- list_fmap_compose.
  apply list_fmap_ext. intros _ j _. simpl. by rewrite slice_chunk.
Qed.

Lemma batches_length (track_ids : list string) :
  length (batches track_ids) = (length track_ids + 99) / 100.
Proof. by rewrite batches_eq, length_fmap, length_seq. Qed.

Lemma batches_lookup (track_ids : list string) (j : nat) (b : list string) :
  batches track_ids !! j = Some b ->
  b = track_uri <$> take 100 (drop (j * 100) track_ids) /\
  j < (length track_ids + 99) / 100.
Proof.
  rewrite batches_eq, list_lookup_fmap.
  destruct (seq 0 ((length track_ids + 99) / 100) !! j) as [i|] eqn:E;
    [|done].
  apply lookup_seq in E as [-> Hj]. simpl. by intros [= <-].
Qed.



(** Every batch has 1 to 100 items, and 100 unless it is the last. *)
Lemma batches_sizes (track_ids : list string) (j : nat) (b : list string) :
  batches track_ids !! j = Some b ->
  0 < length b <= 100 /\
  (j + 1 < length (batches track_ids) -> length b = 100).
Proof.
  intros H. rewrite batches_length.
  apply batches_lookup in H as [-> Hj].
  rewrite length_fmap, length_take, length_drop.
  pose proof (Nat.div_mod_eq (length track_ids + 99) 100) as H.
  pose proof (Nat.mod_upper_bound (length track_ids + 99) 100) as H'.
  lia.
Qed.

Section Calls.
Context (S : Service).

(** The loop over the batches: all the calls return, or the run stops at
    the first one that raises. *)
Lemma add_batches_spec (playlist_id : string) (track_ids : list string)
      (starts : list nat) (r : Run (World S)) :
  (exists w',
     applied S playlist_id (world r) (batch_uris track_ids <$> starts) w' /\
     add_batches S playlist_id track_ids starts r
     = (true,
        MkRun w' (calls r ++ (CallPlaylistAddItems playlist_id
                                <$> (batch_uris track_ids <$> starts)))
              (stdout r)))
  \/ (exists done uris rest w1 w2,
        batch_uris track_ids <$> starts = done ++ uris :: rest /\
        applied S playlist_id (world r) done w1 /\
        playlist_add_items S playlist_id uris w1 = (Raised, w2) /\
        add_batches S playlist_id track_ids starts r
        = (false,
           MkRun w2 (calls r ++ (CallPlaylistAddItems playlist_id <$> (done ++ [uris])))
                 (stdout r))).
Proof.
  revert r. induction starts as [|i starts IH]; intros r.
  - left. exists (world r). split; [constructor |].
    simpl. rewrite app_nil_r. by destruct r.
  - cbn [add_batches fmap list_fmap]. unfold bind, call.
    destruct (playlist_add_items S playlist_id (batch_uris track_ids i)
                                 (world r)) as [[[]|] w1] eqn:E.
    + destruct (IH (MkRun w1 (calls r ++ [CallPlaylistAddItems playlist_id
                                            (batch_uris track_ids i)])
                          (stdout r)))
        as [(w' & Happ & ->) | (done & uris & rest & wa & wb
                                & Hsplit & Happ & Hraise & ->)].
      * left. exists w'. split; [by econstructor |].
        simpl. by rewrite <- app_assoc.
      * right. exists (batch_uris track_ids i :: done), uris, rest, wa, wb.
        split; [by rewrite Hsplit |].
        split; [by econstructor |]. split; [done |].
        simpl. by rewrite <- app_assoc.
    + right. exists [], (batch_uris track_ids i),
               (batch_uris track_ids <$> starts), (world r), w1.
      split; [done |]. split; [constructor |]. by split.
Qed.

Lemma applied_det (playlist_id : string) (w : World S)
      (bs : list (list string)) (w1 w2 : World S) :
  applied S playlist_id w bs w1 -> applied S playlist_id w bs w2 -> w1 = w2.
Proof.
  intros H1. revert w2. induction H1 as [|w uris w' rest w'' Hc _ IH];
    intros w2 H2; inversion H2; subst; [done |].
  apply IH. congruence.
Qed.

(** When all the calls return, none of them raises. *)
Lemma applied_no_raise (playlist_id : string) (w : World S)
      (done : list (list string)) (uris : list string)
      (rest : list (list string)) (w' w1 w2 : World S) :
  applied S playlist_id w (done ++ uris :: rest) w' ->
  applied S playlist_id w done w1 ->
  playlist_add_items S playlist_id uris w1 = (Raised, w2) -> False.
Proof.
  revert w. induction done as [|b done IH]; intros w Hall Hdone Hraise.
  - inversion Hdone; subst. inversion Hall; subst. congruence.
  - inversion Hdone; subst. inversion Hall; subst.
    apply (IH w'0); [|done..].
    by replace w'0 with w'1 by congruence.
Qed.

End Calls.
End BatchFacts.



(** C6. add_tracks_to_playlist returns true exactly when every batch call
    returns. When a call raises it prints the error and returns false; the
    batches before the failing one were applied and stay so (the service
    is left as the failing call left it, nothing is undone), and no call
    is issued for the batches after it. *)
Theorem add_tracks_no_rollback (S : Spotify.Service) (playlist_id : string)
        (track_ids : list string) (r : Prog.Run (Spotify.World S)) :
  ((exists w',
      Spec.applied S playlist_id (Prog.world r)
                   (SpotifyManager.batches track_ids) w' /\
      SpotifyManager.add_tracks_to_playlist S playlist_id track_ids r
      = (true,
         Prog.MkRun w'
           (Prog.calls r ++ (Spotify.CallPlaylistAddItems playlist_id
                               <$> SpotifyManager.batches track_ids))
           (Prog.stdout r)))
   \/
   (exists done uris rest w1 w2,
      SpotifyManager.batches track_ids = done ++ uris :: rest /\
      Spec.applied S playlist_id (Prog.world r) done w1 /\
      Spotify.playlist_add_items S playlist_id uris w1
      = (Spotify.Raised, w2) /\
      SpotifyManager.add_tracks_to_playlist S playlist_id track_ids r
      = (false,
         Prog.MkRun w2
           (Prog.calls r ++ (Spotify.CallPlaylistAddItems playlist_id
                               <$> (done ++ [uris])))
           (Prog.stdout r ++ [MsgAddTracksError])))) /\
  ((SpotifyManager.add_tracks_to_playlist S playlist_id track_ids r).1 = true
   <-> exists w', Spec.applied S playlist_id (Prog.world r)
                               (SpotifyManager.batches track_ids) w').
Proof.
  unfold SpotifyManager.add_tracks_to_playlist, Prog.bind.
  fold (SpotifyManager.batches track_ids).
  destruct (BatchFacts.add_batches_spec S playlist_id track_ids
              (SpotifyManager.py_range 0 (length track_ids) 100) r)
    as [(w' & Happ & ->)
       | (done & uris & rest & w1 & w2 & Hsplit & Happ & Hraise & ->)];
    fold (SpotifyManager.batches track_ids) in *.
  - split; [left; by exists w' |]. split; [intros _; by exists w' | done].
  - split.
    + right. by exists done, uris, rest, w1, w2.
    + split; [done |]. intros [w' Hall]. exfalso. rewrite Hsplit in Hall.
      by apply (BatchFacts.applied_no_raise S playlist_id _ _ _ _ _ _ _
                                            Hall Happ Hraise).
Qed.

(** A run of 250 ids in which the second call raises: the first batch of
    100 stays in the playlist, two calls were issued, the result is
    false. *)
Example add_tracks_second_call_raises :
  let res :=
    SpotifyManager.add_tracks_to_playlist Sim.service "pl-1" Samples.ids250
      (Samples.start (Sim.with_faults Samples.world0 [false; true])) in
  res.1 = false /\
  Sim.sim_tracks (Prog.world res.2) !! "pl-1"
  = Some ("id-y" :: take 100 Samples.ids250) /\
  Prog.calls res.2
  = Spotify.CallPlaylistAddItems "pl-1"
      <$> take 2 (SpotifyManager.batches Samples.ids250).
Proof. vm_compute. repeat split; reflexivity. Qed.

(** A run of 250 ids in which every call returns: three calls are issued,
    for the three batches in their order, the result is true, and the
    playlist holds the 250 ids after what it had, in the order of the
    input. *)
Example add_tracks_all_calls_return :
  let res :=
    SpotifyManager.add_tracks_to_playlist Sim.service "pl-1" Samples.ids250
      (Samples.start Samples.world0) in
  res.1 = true /\
  Prog.calls res.2
  = Spotify.CallPlaylistAddItems "pl-1"
      <$> SpotifyManager.batches Samples.ids250 /\
  length (Prog.calls res.2) = 3 /\
  Sim.sim_tracks (Prog.world res.2) !! "pl-1"
  = Some ("id-y" :: Samples.ids250).
Proof. vm_compute. repeat split; reflexivity. Qed.

(** C7. search_track issues one search call, of type "track" and limit 1,
    with the query "track:<title> artist:<artist>", or "track:<title>"
    when the artist is empty. It returns the first id of the result, and
    nothing when the result is empty or when the call raises; it then
    prints the error and still returns. *)
Theorem search_track_spec (S : Spotify.Service) (artist title : string)
        (r : Prog.Run (Spotify.World S)) :
  let q := if String.eqb artist ""
           then "track:" +:+ title
           else "track:" +:+ title +:+ " artist:" +:+ artist in
  SpotifyManager.search_track S artist title r
  = match Spotify.search S q "track" 1 (Prog.world r) with
    | (Spotify.Returned items, w) =>
        (head items,
         Prog.MkRun w (Prog.calls r ++ [Spotify.CallSearch q "track" 1])
                    (Prog.stdout r))
    | (Spotify.Raised, w) =>
        (None,
         Prog.MkRun w (Prog.calls r ++ [Spotify.CallSearch q "track" 1])
                    (Prog.stdout r ++ [MsgSearchError title artist]))
    end.
Proof.
  unfold SpotifyManager.search_track, SpotifyManager.search_query,
    Prog.bind, Prog.call.
  destruct artist as [|c artist]; simpl.
  - destruct (Spotify.search S _ "track" 1 (Prog.world r))
      as [[[|id items]|] w]; reflexivity.
  - destruct (Spotify.search S _ "track" 1 (Prog.world r))
      as [[[|id items]|] w]; reflexivity.
Qed.

(** ** What a run issues and prints *)

Module RunFacts.
Import Spotify Prog SpotifyManager Main Spec.

Lemma extends_refl {W} (P : Call -> Prop) (r : Run W) : extends P r r.
Proof. exists [], []. by rewrite !app_nil_r. Qed.

Lemma extends_trans {W} (P : Call -> Prop) (r1 r2 r3 : Run W) :
  extends P r1 r2 -> extends P r2 r3 -> extends P r1 r3.
Proof.
  intros (cs1 & ms1 & Hc1 & Hm1 & HP1) (cs2 & ms2 & Hc2 & Hm2 & HP2).
  exists (cs1 ++ cs2), (ms1 ++ ms2).
  rewrite Hc2, Hc1, Hm2, Hm1, !app_assoc. repeat split.
  by apply Forall_app.
Qed.

Lemma extends_call {W} (P : Call -> Prop) (r : Run W) (w : W) (c : Call) :
  P c -> extends P r (MkRun w (calls r ++ [c]) (stdout r)).
Proof.
  intros H. exists [c], []. simpl. rewrite app_nil_r. repeat split.
  by constructor.
Qed.

Lemma only_ret {W A} (P : Call -> Prop) (a : A) : only P (@ret W A a).
Proof. intros r. apply extends_refl. Qed.

Lemma only_bind {W A B} (P : Call -> Prop) (m : Prog W A)
      (k : A -> Prog W B) :
  only P m -> (forall a, only P (k a)) -> only P (bind m k).
Proof.
  intros Hm Hk r. unfold bind. specialize (Hm r).
  destruct (m r) as [a r1]. eapply extends_trans; [exact Hm | apply Hk].
Qed.

Lemma only_print {W} (P : Call -> Prop) (m : Msg) : only P (@print W m).
Proof.
  intros r. exists [], [m]. simpl. by rewrite app_nil_r.
Qed.

Lemma only_call {W A} (P : Call -> Prop) (c : Call)
      (f : W -> Outcome A * W) :
  P c -> only P (call c f).
Proof.
  intros HP r. unfold call. destruct (f (world r)) as [o w].
  exists [c], []. simpl. rewrite app_nil_r. repeat split. by constructor.
Qed.

Lemma only_print_all (S : Service) (P : Call -> Prop) (ms : list Msg) :
  only P (print_all S ms).
Proof.
  induction ms as [|m ms IH]; simpl; [apply only_ret |].
  apply only_bind; [apply only_print | done].
Qed.

Section Reads.
Context (S : Service) (P : Call -> Prop).
Hypothesis HP : forall c, not_add c -> P c.

Ltac step :=
  first [ apply only_ret | apply only_print
        | apply only_call; apply HP; reflexivity
        | apply only_bind; [|intros ?] ].

Lemma scan_pages_extends {A B} (probe : A -> option B) :
  forall (page : Paging (World S) A) (r : Run (World S)),
    extends P r (scan_pages S probe page r).2.
Proof.
  fix IH 1. intros [items next] r. simpl.
  destruct (first_hit probe items); [apply extends_refl |].
  destruct next as [follow|]; [|apply extends_refl].
  destruct (follow (world r)) as [[page'|] w].
  - eapply extends_trans; [|apply IH]. apply extends_call. by apply HP.
  - simpl. apply extends_call. by apply HP.
Qed.

Lemma only_scan_pages {A B} (probe : A -> option B)
      (page : Paging (World S) A) :
  only P (scan_pages S probe page).
Proof. intros r. apply scan_pages_extends. Qed.

Lemma only_search_track (artist title : string) :
  only P (search_track S artist title).
Proof.
  unfold search_track. step; [step |].
  destruct a as [[|id items]|]; repeat step.
Qed.

Lemma only_find_playlist (name : string) : only P (find_playlist S name).
Proof.
  unfold find_playlist. step; [step |].
  destruct a as [page|]; [|repeat step].
  step; [apply only_scan_pages |].
  destruct a as [found|]; repeat step.
Qed.

Lemma only_create_playlist (name description : string) :
  only P (create_playlist S name description).
Proof.
  unfold create_playlist. step; [step |].
  destruct a as [user|]; [|repeat step].
  step; [step |]. destruct a as [id|]; repeat step.
Qed.

Lemma only_is_track_in_playlist (playlist_id track_id : string) :
  only P (is_track_in_playlist S playlist_id track_id).
Proof.
  unfold is_track_in_playlist. step; [step |].
  destruct a as [page|]; [|repeat step].
  step; [apply only_scan_pages |].
  destruct a as [[hit|]|]; repeat step.
Qed.

Lemma only_resolve_playlist (args : Args) : only P (resolve_playlist S args).
Proof.
  unfold resolve_playlist. step; [apply only_find_playlist |].
  destruct (truthy_str a); [repeat step |].
  destruct (create_playlist_flag args); [|repeat step].
  step; [step |]. step; [apply only_create_playlist |].
  destruct (truthy_str a1); repeat step.
Qed.

Lemma only_search_loop (args : Args) (playlist_id : string) (total : nat)
      (tracks : list Track) :
  forall (i : nat) (found : list string) (not_found : list Track),
    only P (search_loop S args playlist_id total i tracks found not_found).
Proof.
  induction tracks as [|track rest IH]; intros i found not_found; simpl.
  - step.
  - step; [step |]. step; [apply only_search_track |].
    destruct (truthy_str a0) as [id|].
    + step.
      * destruct (skip_duplicates args);
          [apply only_is_track_in_playlist | step].
      * destruct a1; (step; [step | apply IH]).
    + step; [step | apply IH].
Qed.

(** The batch loop issues add calls only. *)
Lemma only_add_tracks (playlist_id : string) (track_ids : list string) :
  (forall c, P c) -> only P (add_tracks_to_playlist S playlist_id track_ids).
Proof.
  intros Hall. unfold add_tracks_to_playlist.
  apply only_bind.
  - induction (py_range 0 (length track_ids) 100) as [|i starts IH]; simpl.
    + apply only_ret.
    + apply only_bind; [by apply only_call |].
      intros [u|]; [exact IH | apply only_ret].
  - intros [|]; repeat step.
Qed.

Lemma only_add_phase (args : Args) (playlist_id : string)
      (found : list string) :
  dry_run args = true \/ (forall c, P c) ->
  only P (add_phase S args playlist_id found).
Proof.
  intros Hmode. unfold add_phase.
  destruct found as [|id found]; [repeat step |].
  destruct (dry_run args) eqn:Hdry; [repeat step |].
  destruct Hmode as [? | Hall]; [done |].
  step; [step |]. step; [by apply only_add_tracks |].
  destruct a0; repeat step.
Qed.

Lemma only_reconcile (args : Args) (playlist_id : string)
      (tracks : list Track) :
  dry_run args = true \/ (forall c, P c) ->
  only P (reconcile S args playlist_id tracks).
Proof.
  intros Hmode. unfold reconcile.
  step; [step |]. step; [apply only_search_loop |].
  destruct a0 as [found not_found].
  step; [apply only_print_all | by apply only_add_phase].
Qed.

Lemma only_session (args : Args) (cid csecret : string)
      (tracks : list Track) :
  dry_run args = true \/ (forall c, P c) ->
  only P (session S args cid csecret tracks).
Proof.
  intros Hmode. unfold session.
  step; [step |]. step; [step |].
  destruct a0 as [u|]; [|repeat step].
  step; [apply only_resolve_playlist |].
  destruct a0 as [e|playlist_id]; [step | by apply only_reconcile].
Qed.

Lemma only_main (args : Args) (env : Environ)
      (fs : string -> option InputFile) :
  dry_run args = true \/ (forall c, P c) -> only P (main S args env fs).
Proof.
  intros Hmode. unfold main.
  destruct (truthy_str (or_else (client_id args) (SPOTIFY_CLIENT_ID env)));
    [|repeat step].
  destruct (truthy_str (or_else (client_secret args)
                                (SPOTIFY_CLIENT_SECRET env)));
    [|repeat step].
  destruct (fs (playlist_file args)) as [file|]; [|repeat step].
  destruct (format_of_ext (file_ext_of (playlist_file args))) as [fmt|];
    [|repeat step].
  destruct (read_playlist fmt file) as [[|track tracks]|e];
    [repeat step | | repeat step].
  by apply only_session.
Qed.

End Reads.
End RunFacts.

(** ** The last phases of main *)

Module MainFacts.
Import PyStr PlaylistReader Spotify Prog SpotifyManager Main Spec RunFacts.

Lemma print_all_run (S : Service) (ms : list Msg) (r : Run (World S)) :
  print_all S ms r = (tt, MkRun (world r) (calls r) (stdout r ++ ms)).
Proof.
  revert r. induction ms as [|m ms IH]; intros r; simpl.
  - unfold ret. rewrite app_nil_r. by destruct r.
  - unfold bind, print. rewrite IH. simpl. by rewrite <- app_assoc.
Qed.




End MainFacts.

(** C9. With dry-run set the run issues no playlist_add_items call, from
    start to end. When the search loop has resolved at least one id, the
    run prints the summary and then the count that would be added, ends
    with exit status 0, and leaves the service as the search loop left
    it. *)
Theorem dry_run_adds_nothing (S : Spotify.Service) (args : Main.Args) :
  Main.dry_run args = true ->
  (forall env fs r,
     Spec.extends Spec.not_add r (Main.main S args env fs r).2) /\
  (forall playlist_id tracks r found_tracks not_found_tracks r1,
     Main.search_loop S args playlist_id (length tracks) 1 tracks [] []
       (Prog.MkRun (Prog.world r) (Prog.calls r)
                   (Prog.stdout r ++ [MsgSearchingHeader]))
     = ((found_tracks, not_found_tracks), r1) ->
     found_tracks <> [] ->
     Main.reconcile S args playlist_id tracks r
     = (Main.ExitOk,
        Prog.MkRun (Prog.world r1) (Prog.calls r1)
          (Prog.stdout r1 ++ Main.summary found_tracks not_found_tracks
             ++ [MsgDryRun (length found_tracks) (Main.playlist_name args)]))).
Proof.
  intros Hdry. split.
  - intros env fs r.
    apply (RunFacts.only_main S Spec.not_add (fun c H => H) args env fs).
    by left.
  - intros playlist_id tracks r found not_found r1 Hloop Hfound.
    unfold Main.reconcile, Prog.bind. unfold Prog.print at 1.
    rewrite Hloop, MainFacts.print_all_run.
    unfold Main.add_phase. destruct found as [|id found]; [done |].
    rewrite Hdry. unfold Prog.bind, Prog.print, Prog.ret. simpl.
    by rewrite <- app_assoc.
Qed.

Lemma dry_run_adds_nothing_witness :
  Spec.extends Spec.not_add (Samples.start Samples.world0)
    (Main.main Sim.service Samples.dry_args Samples.env0 Samples.fs0
               (Samples.start Samples.world0)).2 /\
  exists r1 not_found,
    Main.reconcile Sim.service Samples.dry_args "pl-1" Samples.tracks3
                   (Samples.start Samples.world0)
    = (Main.ExitOk,
       Prog.MkRun (Prog.world r1) (Prog.calls r1)
         (Prog.stdout r1
            ++ Main.summary ["id-omt"; "id-br"] not_found
            ++ [MsgDryRun 2 "road trip"])).
Proof.
  split.
  - apply (proj1 (dry_run_adds_nothing Sim.service Samples.dry_args eq_refl)).
  - destruct (Main.search_loop Sim.service Samples.dry_args "pl-1"
                (length Samples.tracks3) 1 Samples.tracks3 [] []
                (Prog.MkRun Samples.world0 [] [MsgSearchingHeader]))
      as [[found not_found] r1] eqn:Hloop.
    assert (found = ["id-omt"; "id-br"]) as ->.
    { vm_compute in Hloop. by injection Hloop as <- _ _. }
    exists r1, not_found.
    apply (proj2 (dry_run_adds_nothing Sim.service Samples.dry_args eq_refl)
                 "pl-1" Samples.tracks3 (Samples.start Samples.world0)
                 ["id-omt"; "id-br"] not_found r1 Hloop).
    discriminate.
Defined.



(** ** The reference service without failures *)

Module SimFacts.
Import Spotify Prog SpotifyManager Main Sim Spec.

Lemma attempt_ok {A} (f : SimWorld -> Outcome A * SimWorld) (w : SimWorld) :
  sim_faults w = [] -> attempt f w = f w.
Proof. unfold attempt. by intros ->. Qed.

(** Running [m] first, then [k] on its result. *)
Lemma bind_run {W A B} (m : Prog W A) (k : A -> Prog W B) (r r1 : Run W)
      (a : A) :
  m r = (a, r1) -> bind m k r = k a r1.
Proof. unfold bind. by intros ->. Qed.

Lemma extends_print {W} (P : Call -> Prop) (r : Run W) (m : Msg) :
  extends P r (MkRun (world r) (calls r) (stdout r ++ [m])).
Proof. exists [], [m]. simpl. by rewrite app_nil_r. Qed.

Lemma first_hit_app {A B} (probe : A -> option B) (l1 l2 : list A) :
  first_hit probe (l1 ++ l2)
  = match first_hit probe l1 with
    | Some b => Some b
    | None => first_hit probe l2
    end.
Proof.
  induction l1 as [|x l1 IH]; simpl; [done |].
  by destruct (probe x).
Qed.

Lemma first_hit_track (track_id : string) (ids : list string) :
  first_hit (track_probe track_id) (Some <$> ids)
  = if bool_decide (track_id ∈ ids) then Some tt else None.
Proof.
  induction ids as [|id ids IH]; [done |].
  cbn [fmap list_fmap first_hit track_probe].
  destruct (String.eqb_spec id track_id) as [->|Hne].
  - rewrite bool_decide_eq_true_2; [done | constructor].
  - change (list_fmap _ _ Some ids) with (Some <$> ids). rewrite IH.
    destruct (decide (track_id ∈ ids)) as [Hin|Hin].
    + rewrite !bool_decide_eq_true_2; [done | by constructor | done].
    + rewrite !bool_decide_eq_false_2; [done | | done].
      intros [?|?]%elem_of_cons; [congruence | done].
Qed.

Lemma scan_pages_more {A B} (probe : A -> option B) (items : list A)
      (page' : Paging (World service) A) (r : Run (World service)) :
  sim_faults (world r) = [] ->
  first_hit probe items = None ->
  scan_pages service probe
    (Page items (Some (attempt (fun w => (Returned page', w))))) r
  = scan_pages service probe page'
      (MkRun (world r) (calls r ++ [CallNext]) (stdout r)).
Proof.
  intros Hok Hhit. cbn [scan_pages]. rewrite Hhit.
  by rewrite attempt_ok.
Qed.

(** Scanning the pages of a list finds what scanning the list finds, and
    only reads. *)
Lemma scan_sim_pages {A B} (probe : A -> option B) (size : nat) (l : list A)
      (offsets : list nat) (r : Run (World service)) :
  sim_faults (world r) = [] ->
  exists r',
    scan_pages service probe (pages_at size l offsets) r
    = (Returned (first_hit probe
                   (concat ((fun o => slice l o (o + size)) <$> offsets))),
       r') /\
    world r' = world r /\ stdout r' = stdout r /\ extends not_add r r'.
Proof.
  revert r. induction offsets as [|o rest IH]; intros r Hok.
  - exists r. repeat split. apply RunFacts.extends_refl.
  - cbn [fmap list_fmap concat]. rewrite first_hit_app.
    destruct (first_hit probe (slice l o (o + size))) as [b|] eqn:Hhit.
    + exists r. cbn [pages_at scan_pages]. rewrite Hhit.
      repeat split. apply RunFacts.extends_refl.
    + destruct rest as [|o' rest'].
      * exists r. cbn [pages_at scan_pages]. rewrite Hhit.
        repeat split. apply RunFacts.extends_refl.
      * change (pages_at size l (o :: o' :: rest'))
          with (Page (slice l o (o + size))
                  (Some (attempt (fun w =>
                     (Returned (pages_at size l (o' :: rest')), w))))).
        rewrite scan_pages_more by done.
        destruct (IH (MkRun (world r) (calls r ++ [CallNext]) (stdout r)) Hok)
          as (r' & -> & Hw & Hout & Hext).
        exists r'. repeat split; try done.
        eapply RunFacts.extends_trans; [|exact Hext].
        by apply RunFacts.extends_call.
Qed.

Lemma pages_100_concat {A} (l : list A) :
  concat ((fun o => slice l o (o + 100)) <$> py_range 0 (length l) 100) = l.
Proof.
  rewrite BatchFacts.py_range_0, <- list_fmap_compose.
  etransitivity;
    [|apply (BatchFacts.chunks_concat ((length l + 99) / 100) l),
        BatchFacts.chunk_count].
  f_equal. apply list_fmap_ext. intros _ j _. simpl.
  apply BatchFacts.slice_chunk.
Qed.

(** The membership test tells whether the id is in the playlist. *)
Lemma sim_is_track_in_playlist (playlist_id track_id : string)
      (ids : list string) (r : Run (World service)) :
  sim_faults (world r) = [] ->
  sim_tracks (world r) !! playlist_id = Some ids ->
  exists r',
    is_track_in_playlist service playlist_id track_id r
    = (bool_decide (track_id ∈ ids), r') /\
    world r' = world r /\ extends not_add r r'.
Proof.
  intros Hok Hids. unfold is_track_in_playlist.
  erewrite bind_run; cycle 1.
  { unfold call. cbn [playlist_tracks service].
    rewrite attempt_ok by done. rewrite Hids. reflexivity. }
  unfold pages.
  destruct (scan_sim_pages (track_probe track_id) 100 (Some <$> ids)
              (py_range 0 (length (Some <$> ids)) 100)
              (MkRun (world r) (calls r ++ [CallPlaylistTracks playlist_id])
                     (stdout r)) Hok)
    as (r' & Hscan & Hw & Hout & Hext).
  erewrite bind_run by exact Hscan.
  rewrite pages_100_concat, first_hit_track.
  exists r'. split; [by destruct (bool_decide (track_id ∈ ids)) |].
  split; [done |].
  eapply RunFacts.extends_trans; [|exact Hext].
  by apply RunFacts.extends_call.
Qed.

(** A search answers from the catalogue. *)
Lemma sim_search_track (artist title : string) (r : Run (World service)) :
  sim_faults (world r) = [] ->
  exists r',
    search_track service artist title r
    = (head (default [] (sim_catalog (world r)
                           !! search_query artist title)), r') /\
    world r' = world r /\ extends not_add r r'.
Proof.
  intros Hok. unfold search_track.
  erewrite bind_run; cycle 1.
  { unfold call. cbn [search service]. rewrite attempt_ok by done.
    reflexivity. }
  destruct (default [] (sim_catalog (world r) !! search_query artist title))
    as [|id items]; simpl;
    (eexists; split; [reflexivity |]; split; [done |];
     by apply RunFacts.extends_call).
Qed.

Lemma mapM_track_uris (ids : list string) :
  mapM track_of_uri (track_uri <$> ids) = Some ids.
Proof.
  induction ids as [|id ids IH]; [done |].
  cbn [fmap list_fmap mapM]. 
  change (list_fmap _ _ track_uri ids) with (track_uri <$> ids).
  rewrite IH. unfold track_of_uri, track_uri.
  by rewrite PyStrFacts.strip_prefix_app.
Qed.

Lemma slice_length {A} (l : list A) (i : nat) :
  length (slice l i (i + 100)) <= 100.
Proof. rewrite BatchFacts.slice_chunk, length_take. lia. Qed.

(** Without failures every batch is appended to the playlist. *)
Lemma sim_add_batches (playlist_id : string) (track_ids : list string)
      (starts : list nat) :
  forall (playlist : list string) (r : Run (World service)),
    sim_faults (world r) = [] ->
    sim_tracks (world r) !! playlist_id = Some playlist ->
    exists r',
      add_batches service playlist_id track_ids starts r = (true, r') /\
      sim_faults (world r') = [] /\
      sim_catalog (world r') = sim_catalog (world r) /\
      sim_tracks (world r')
      = <[playlist_id :=
            playlist ++ concat ((fun i => slice track_ids i (i + 100))
                                  <$> starts)]> (sim_tracks (world r)).
Proof.
  induction starts as [|i starts IH]; intros playlist r Hok Hpl.
  - exists r. repeat split; try done.
    simpl. rewrite app_nil_r. by rewrite insert_id.
  - cbn [add_batches].
    erewrite bind_run; cycle 1.
    { unfold call. cbn [playlist_add_items service].
      rewrite attempt_ok by done. unfold sim_add_items.
      rewrite Hpl. unfold batch_uris. rewrite mapM_track_uris.
      rewrite length_fmap.
      pose proof (slice_length track_ids i) as Hlen.
      apply Nat.leb_le in Hlen. rewrite Hlen. reflexivity. }
    edestruct (IH (playlist ++ slice track_ids i (i + 100)))
      as (r' & -> & Hok' & Hcat & Htracks); [| |exists r'].
    + done.
    + simpl. apply lookup_insert_eq.
    + split; [done |]. split; [done |]. split; [done |].
      rewrite Htracks. simpl. rewrite insert_insert_eq.
      by rewrite <- app_assoc.
Qed.

Lemma sim_add_tracks (playlist_id : string) (track_ids playlist : list string)
      (r : Run (World service)) :
  sim_faults (world r) = [] ->
  sim_tracks (world r) !! playlist_id = Some playlist ->
  exists r',
    add_tracks_to_playlist service playlist_id track_ids r = (true, r') /\
    sim_faults (world r') = [] /\
    sim_catalog (world r') = sim_catalog (world r) /\
    sim_tracks (world r')
    = <[playlist_id := playlist ++ track_ids]> (sim_tracks (world r)).
Proof.
  intros Hok Hpl. unfold add_tracks_to_playlist.
  destruct (sim_add_batches playlist_id track_ids
              (py_range 0 (length track_ids) 100) playlist r Hok Hpl)
    as (r' & Hrun & Hok' & Hcat & Htracks).
  erewrite bind_run by exact Hrun.
  exists r'. rewrite pages_100_concat in Htracks. by repeat split.
Qed.

(** The search loop with skip-duplicates: it collects the new ids and only
    reads. *)
Lemma sim_search_loop (args : Args) (playlist_id : string) (total : nat)
      (playlist : list string) (tracks : list Track) :
  skip_duplicates args = true ->
  forall (i : nat) (found : list string) (not_found : list Track)
         (r : Run (World service)),
    sim_faults (world r) = [] ->
    sim_tracks (world r) !! playlist_id = Some playlist ->
    exists not_found' r',
      search_loop service args playlist_id total i tracks found not_found r
      = ((found ++ new_ids (sim_catalog (world r)) playlist tracks,
          not_found'), r') /\
      world r' = world r /\ extends not_add r r'.
Proof.
  intros Hskip. unfold new_ids.
  induction tracks as [|track rest IH]; intros i found not_found r Hok Hpl.
  - exists not_found, r. simpl. unfold ret. rewrite app_nil_r.
    repeat split. apply RunFacts.extends_refl.
  - cbn [search_loop omap list_omap].
    erewrite bind_run by reflexivity.
    set (r1 := MkRun (world r) (calls r)
                 (stdout r ++ [MsgSearching i total (artist track)
                                            (title track)])).
    assert (extends not_add r r1) as Hr1 by apply extends_print.
    destruct (sim_search_track (artist track) (title track) r1 Hok)
      as (r2 & Hsearch & Hw2 & Hext2).
    erewrite bind_run by exact Hsearch.
    change (world r1) with (world r) in *.
    fold (resolved (sim_catalog (world r)) track).
    destruct (resolved (sim_catalog (world r)) track) as [id|].
    + rewrite Hskip.
      destruct (sim_is_track_in_playlist playlist_id id playlist r2)
        as (r3 & Hcheck & Hw3 & Hext3); [by rewrite Hw2 | by rewrite Hw2 |].
      erewrite bind_run by exact Hcheck.
      cbn [List.filter].
      destruct (decide (id ∈ playlist)) as [Hin|Hin].
      * rewrite bool_decide_eq_true_2 by done.
        rewrite bool_decide_eq_false_2 by (by intros ?).
        erewrite bind_run by reflexivity.
        destruct (IH (1 + i) found not_found
                     (MkRun (world r3) (calls r3)
                            (stdout r3 ++ [MsgAlreadyInPlaylist])))
          as (nf & r' & Hloop & Hw & Hext);
          [cbn [world]; by rewrite Hw3, Hw2 | cbn [world]; by rewrite Hw3, Hw2 |].
        exists nf, r'. split; [|split].
        -- etransitivity; [exact Hloop |]. cbn [world]. by rewrite Hw3, Hw2.
        -- cbn [world] in Hw. by rewrite Hw, Hw3, Hw2.
        -- eapply RunFacts.extends_trans; [exact Hr1 |].
           eapply RunFacts.extends_trans; [exact Hext2 |].
           eapply RunFacts.extends_trans; [exact Hext3 |].
           eapply RunFacts.extends_trans; [|exact Hext].
           apply extends_print.
      * rewrite bool_decide_eq_false_2 by done.
        rewrite bool_decide_eq_true_2 by done.
        erewrite bind_run by reflexivity.
        destruct (IH (1 + i) (found ++ [id]) not_found
                     (MkRun (world r3) (calls r3) (stdout r3 ++ [MsgFound])))
          as (nf & r' & Hloop & Hw & Hext);
          [cbn [world]; by rewrite Hw3, Hw2 | cbn [world]; by rewrite Hw3, Hw2 |].
        exists nf, r'. split; [|split].
        -- etransitivity; [exact Hloop |]. cbn [world]. rewrite Hw3, Hw2.
           by rewrite <- app_assoc.
        -- cbn [world] in Hw. by rewrite Hw, Hw3, Hw2.
        -- eapply RunFacts.extends_trans; [exact Hr1 |].
           eapply RunFacts.extends_trans; [exact Hext2 |].
           eapply RunFacts.extends_trans; [exact Hext3 |].
           eapply RunFacts.extends_trans; [|exact Hext].
           apply extends_print.
    + erewrite bind_run by reflexivity.
      destruct (IH (1 + i) found (not_found ++ [track])
                   (MkRun (world r2) (calls r2) (stdout r2 ++ [MsgNotFound])))
        as (nf & r' & Hloop & Hw & Hext);
        [cbn [world]; by rewrite Hw2 | cbn [world]; by rewrite Hw2 |].
      exists nf, r'. split; [|split].
      * etransitivity; [exact Hloop |]. cbn [world]. by rewrite Hw2.
      * cbn [world] in Hw. by rewrite Hw, Hw2.
      * eapply RunFacts.extends_trans; [exact Hr1 |].
        eapply RunFacts.extends_trans; [exact Hext2 |].
        eapply RunFacts.extends_trans; [|exact Hext].
        apply extends_print.
Qed.

Lemma extends_print_all {W} (P : Call -> Prop) (r : Run W) (ms : list Msg) :
  extends P r (MkRun (world r) (calls r) (stdout r ++ ms)).
Proof. exists [], ms. simpl. by rewrite app_nil_r. Qed.

Lemma extends_out {W} (P : Call -> Prop) (r r' : Run W) (ms : list Msg) :
  calls r' = calls r -> stdout r' = stdout r ++ ms -> extends P r r'.
Proof. intros Hc Hs. exists [], ms. by rewrite app_nil_r. Qed.

(** The whole of reconcile with skip-duplicates and no failure. *)
Lemma sim_reconcile (args : Args) (playlist_id : string)
      (tracks : list Track) (playlist : list string)
      (r : Run (World service)) :
  skip_duplicates args = true ->
  sim_faults (world r) = [] ->
  sim_tracks (world r) !! playlist_id = Some playlist ->
  exists r',
    reconcile service args playlist_id tracks r = (ExitOk, r') /\
    sim_faults (world r') = [] /\
    sim_catalog (world r') = sim_catalog (world r) /\
    sim_tracks (world r')
    = (if dry_run args then sim_tracks (world r)
       else <[playlist_id :=
                playlist ++ new_ids (sim_catalog (world r)) playlist tracks]>
              (sim_tracks (world r))) /\
    (dry_run args = true \/
     new_ids (sim_catalog (world r)) playlist tracks = [] ->
     extends not_add r r').
Proof.
  intros Hskip Hok Hpl. unfold reconcile.
  erewrite bind_run by reflexivity.
  destruct (sim_search_loop args playlist_id (length tracks) playlist tracks
              Hskip 1 [] []
              (MkRun (world r) (calls r) (stdout r ++ [MsgSearchingHeader]))
              Hok Hpl)
    as (nf & r1 & Hloop & Hw1 & Hext1).
  erewrite bind_run by exact Hloop.
  cbn [world app] in *.
  set (ids := new_ids (sim_catalog (world r)) playlist tracks) in *.
  erewrite bind_run by apply MainFacts.print_all_run.
  assert (extends not_add r
            (MkRun (world r1) (calls r1) (stdout r1 ++ summary ids nf)))
    as Hext2.
  { eapply RunFacts.extends_trans; [apply extends_print |].
    eapply RunFacts.extends_trans; [exact Hext1 |].
    apply extends_print_all. }
  unfold add_phase. destruct ids as [|id ids'] eqn:Hids.
  - erewrite bind_run by reflexivity. eexists. split; [reflexivity |].
    cbn [world]. split; [by rewrite Hw1 |]. split; [by rewrite Hw1 |]. split.
    + rewrite Hw1. destruct (dry_run args); [done |].
      rewrite app_nil_r. by rewrite insert_id.
    + intros _. eapply RunFacts.extends_trans; [exact Hext2 |].
      eapply extends_out; reflexivity.
  - destruct (dry_run args) eqn:Hdry.
    + erewrite bind_run by reflexivity. eexists. split; [reflexivity |].
      cbn [world]. split; [by rewrite Hw1 |]. split; [by rewrite Hw1 |].
      split; [by rewrite Hw1 |].
      intros _. eapply RunFacts.extends_trans; [exact Hext2 |].
      eapply extends_out; reflexivity.
    + erewrite bind_run by reflexivity.
      destruct (sim_add_tracks playlist_id (id :: ids') playlist
                  (MkRun (world r1) (calls r1)
                     ((stdout r1 ++ summary (id :: ids') nf)
                        ++ [MsgAdding (length (id :: ids'))
                                      (playlist_name args)])))
        as (r2 & Hadd & Hok2 & Hcat2 & Htracks2);
        [cbn [world]; by rewrite Hw1 | cbn [world]; by rewrite Hw1 |].
      cbn [world calls stdout].
      rewrite (bind_run _ _ _ _ _ Hadd).
      erewrite bind_run by reflexivity. eexists. split; [reflexivity |].
      cbn [world] in *. rewrite Hw1 in *. repeat split; try done.
      by intros [? | ?].
Qed.

(** What the first run collected is in the playlist for the second run. *)
Lemma new_ids_again (catalog : gmap string (list string))
      (playlist : list string) (tracks : list Track) :
  new_ids catalog (playlist ++ new_ids catalog playlist tracks) tracks = [].
Proof.
  unfold new_ids.
  set (xs := omap (resolved catalog) tracks).
  set (added := List.filter (fun id => bool_decide (id ∉ playlist)) xs).
  assert (forall x, x ∈ xs -> x ∈ playlist ++ added) as Hall.
  { intros x Hx. apply elem_of_app.
    destruct (decide (x ∈ playlist)) as [Hin|Hin]; [by left | right].
    apply list_elem_of_In, filter_In. split; [by apply list_elem_of_In |].
    by apply bool_decide_eq_true_2. }
  clearbody xs added. induction xs as [|x xs IH]; [done |].
  cbn [List.filter].
  rewrite bool_decide_eq_false_2.
  - apply IH. intros y Hy. apply Hall. by right.
  - intros Hnot. apply Hnot, Hall. by left.
Qed.

End SimFacts.

(** C8. Against the reference service with no failing call, and with
    skip-duplicates set: after a first run of the reconciliation on a
    playlist, a second run on the same playlist and the same tracks
    issues no playlist_add_items call and leaves every playlist as the
    first run left it. (The first run appended the resolved ids that were
    not in the playlist, unless dry-run was set.) *)
Theorem second_run_adds_nothing (w0 : Sim.SimWorld) (args : Main.Args)
        (playlist_id : string) (tracks : list Track) (playlist : list string) :
  Main.skip_duplicates args = true ->
  Sim.sim_faults w0 = [] ->
  Sim.sim_tracks w0 !! playlist_id = Some playlist ->
  let run1 :=
    Main.reconcile Sim.service args playlist_id tracks (Prog.MkRun w0 [] []) in
  let run2 :=
    Main.reconcile Sim.service args playlist_id tracks
                   (Prog.MkRun (Prog.world run1.2) [] []) in
  run1.1 = Main.ExitOk /\
  Sim.sim_tracks (Prog.world run1.2) !! playlist_id
  = Some (if Main.dry_run args then playlist
          else playlist ++ Sim.new_ids (Sim.sim_catalog w0) playlist tracks) /\
  run2.1 = Main.ExitOk /\
  Forall Spec.not_add (Prog.calls run2.2) /\
  Sim.sim_tracks (Prog.world run2.2) = Sim.sim_tracks (Prog.world run1.2).
Proof.
  intros Hskip Hok Hpl run1 run2.
  destruct (SimFacts.sim_reconcile args playlist_id tracks playlist
              (Prog.MkRun w0 [] []) Hskip Hok Hpl)
    as (r1 & Hrun1 & Hok1 & Hcat1 & Htracks1 & _).
  cbn [Prog.world] in *.
  assert (Sim.sim_tracks (Prog.world r1) !! playlist_id
          = Some (if Main.dry_run args then playlist
                  else playlist ++ Sim.new_ids (Sim.sim_catalog w0)
                                               playlist tracks)) as Hpl1.
  { rewrite Htracks1. destruct (Main.dry_run args); [done |].
    apply lookup_insert_eq. }
  destruct (SimFacts.sim_reconcile args playlist_id tracks _
              (Prog.MkRun (Prog.world r1) [] []) Hskip Hok1 Hpl1)
    as (r2 & Hrun2 & _ & _ & Htracks2 & Hquiet).
  cbn [Prog.world] in *.
  subst run1 run2. rewrite Hrun1. cbn [fst snd]. rewrite Hrun2. cbn [fst snd].
  split; [done |]. split; [done |]. split; [done |].
  rewrite Hcat1 in *.
  assert (Main.dry_run args = true \/
          Sim.new_ids (Sim.sim_catalog w0)
            (if Main.dry_run args then playlist
             else playlist ++ Sim.new_ids (Sim.sim_catalog w0) playlist tracks)
            tracks = []) as Hnone.
  { destruct (Main.dry_run args); [by left | right].
    apply SimFacts.new_ids_again. }
  split.
  - destruct (Hquiet Hnone) as (cs & ms & Hcalls & _ & Hcs).
    by rewrite Hcalls.
  - rewrite Htracks2. destruct (Main.dry_run args) eqn:Hdry; [done |].
    destruct Hnone as [? | ->]; [done |].
    rewrite app_nil_r. by apply insert_id.
Qed.

Lemma second_run_adds_nothing_witness :
  let run1 :=
    Main.reconcile Sim.service Samples.args0 "pl-1" Samples.tracks3
                   (Prog.MkRun Samples.world0 [] []) in
  let run2 :=
    Main.reconcile Sim.service Samples.args0 "pl-1" Samples.tracks3
                   (Prog.MkRun (Prog.world run1.2) [] []) in
  run1.1 = Main.ExitOk /\
  Sim.sim_tracks (Prog.world run1.2) !! "pl-1"
  = Some (if Main.dry_run Samples.args0 then ["id-y"]
          else ["id-y"] ++ Sim.new_ids (Sim.sim_catalog Samples.world0)
                                       ["id-y"] Samples.tracks3) /\
  run2.1 = Main.ExitOk /\
  Forall Spec.not_add (Prog.calls run2.2) /\
  Sim.sim_tracks (Prog.world run2.2) = Sim.sim_tracks (Prog.world run1.2).
Proof.
  apply (second_run_adds_nothing Samples.world0 Samples.args0 "pl-1"
           Samples.tracks3 ["id-y"] eq_refl eq_refl eq_refl).
Defined.

(** ** Further facts about the readers *)

Module ReaderProps.
Import PyStr PlaylistReader Spec Props PyStrFacts StripFacts TxtFacts M3uFacts.

Lemma txt_step_blank (raw : string) :
  is_entry_line raw = false -> txt_step [] raw = [].
Proof. unfold is_entry_line, txt_step. by intros ->. Qed.

Lemma txt_step_one (raw : string) :
  is_entry_line raw = true -> length (txt_step [] raw) = 1.
Proof.
  unfold is_entry_line. intros H%nonempty_true.
  by destruct (txt_step_line raw H) as (tr & -> & _).
Qed.

Lemma startswith_extinf_hash (s : string) :
  startswith "#EXTINF:" s = true -> startswith "#" s = true.
Proof.
  intros [r ->]%startswith_spec. apply startswith_spec.
  by exists ("EXTINF:" +:+ r).
Qed.

(** A line that is not a path line adds no track. *)
Lemma m3u_step_no_track (ts : list Track) (cur : option Track)
      (raw : string) :
  is_path_line raw = false -> fst (m3u_step (ts, cur) raw) = ts.
Proof.
  unfold is_path_line, m3u_step. intros Hp.
  destruct (startswith "#EXTINF:" (strip raw)).
  - destruct (re_search_extinf (strip raw)) as [info|]; [|done].
    destruct (contains " - " info); [|done].
    by destruct (split_pair " - " info).
  - by rewrite Hp.
Qed.

(** A path line adds one track and empties the slot. *)
Lemma m3u_step_one_track (ts : list Track) (cur : option Track)
      (raw : string) :
  is_path_line raw = true ->
  exists tr, m3u_step (ts, cur) raw = (ts ++ [tr], None).
Proof.
  unfold is_path_line, m3u_step. intros Hp.
  destruct (startswith "#EXTINF:" (strip raw)) eqn:E.
  - apply startswith_extinf_hash in E. rewrite E in Hp.
    by rewrite andb_false_r in Hp.
  - rewrite Hp. destruct cur as [tr|]; [by exists tr |].
    destruct (contains " - " (path_stem (strip raw))); [|by eexists].
    destruct (split_pair " - " (path_stem (strip raw))). by eexists.
Qed.

Lemma m3u_loop_length (lines : list string) (ts : list Track)
      (cur : option Track) :
  length (fst (m3u_loop (ts, cur) lines))
  = length ts + length (List.filter is_path_line lines).
Proof.
  revert ts cur. induction lines as [|raw lines IH]; intros ts cur.
  - simpl. lia.
  - rewrite m3u_loop_cons. cbn [List.filter].
    destruct (is_path_line raw) eqn:Hp.
    + destruct (m3u_step_one_track ts cur raw Hp) as [tr ->].
      rewrite IH, length_app. simpl. lia.
    + pose proof (m3u_step_no_track ts cur raw Hp) as Hts.
      destruct (m3u_step (ts, cur) raw) as [ts' cur']. simpl in Hts.
      subst ts'. apply IH.
Qed.

Lemma skipped_not_path (raw : string) :
  skipped_line raw -> is_path_line raw = false.
Proof.
  unfold is_path_line. intros [-> | [[r ->] _]]; [done |].
  assert (startswith "#" ("#" +:+ r) = true) as ->
    by (apply startswith_spec; eauto).
  apply andb_false_r.
Qed.

(** A skipped line leaves the whole state as it is. *)
Lemma m3u_step_skipped (st : M3uState) (raw : string) :
  skipped_line raw -> m3u_step st raw = st.
Proof.
  intros Hs. pose proof (skipped_not_path raw Hs) as Hp.
  destruct st as [ts cur]. unfold m3u_step.
  unfold is_path_line in Hp. rewrite Hp.
  destruct (startswith "#EXTINF:" (strip raw)) eqn:E; [|done].
  exfalso. apply startswith_spec in E as [r Hr].
  destruct Hs as [Hs | [_ Hs]]; [by rewrite Hs in Hr | by apply (Hs r)].
Qed.

End ReaderProps.

(** X1. read_txt gives exactly one track per non-blank line: blank lines
    are passed over, and the tracks of two files read one after the other
    are the tracks of the files glued together. *)
Theorem read_txt_one_track_per_line (lines more : list string) :
  length (PlaylistReader.read_txt lines)
  = length (List.filter Props.is_entry_line lines) /\
  PlaylistReader.read_txt lines
  = PlaylistReader.read_txt (List.filter Props.is_entry_line lines) /\
  PlaylistReader.read_txt (lines ++ more)
  = PlaylistReader.read_txt lines ++ PlaylistReader.read_txt more.
Proof.
  split; [|split; [|apply TxtFacts.read_txt_app]].
  - induction lines as [|raw lines IH]; [done |].
    rewrite TxtFacts.read_txt_cons, length_app, IH. cbn [List.filter].
    destruct (Props.is_entry_line raw) eqn:E.
    + by rewrite ReaderProps.txt_step_one.
    + by rewrite ReaderProps.txt_step_blank.
  - induction lines as [|raw lines IH]; [done |].
    rewrite TxtFacts.read_txt_cons. cbn [List.filter].
    destruct (Props.is_entry_line raw) eqn:E.
    + by rewrite TxtFacts.read_txt_cons, IH.
    + by rewrite ReaderProps.txt_step_blank.
Qed.

(** X2. read_m3u gives exactly one track per path line (a line that is
    not blank and does not start with "#"), whatever the other lines
    are; a metadata line that no path line follows gives none. *)
Theorem read_m3u_one_track_per_path_line (lines : list string) :
  length (PlaylistReader.read_m3u lines)
  = length (List.filter Props.is_path_line lines).
Proof.
  unfold PlaylistReader.read_m3u.
  by rewrite ReaderProps.m3u_loop_length.
Qed.

(** X3. read_m3u passes over blank lines and over "#" lines other than
    "#EXTINF:": taking such a line out of the file changes nothing. *)
Theorem read_m3u_skips_comments (pre post : list string) (raw : string) :
  Props.skipped_line raw ->
  PlaylistReader.read_m3u (pre ++ raw :: post)
  = PlaylistReader.read_m3u (pre ++ post).
Proof.
  intros Hs. unfold PlaylistReader.read_m3u, PlaylistReader.m3u_loop.
  rewrite !fold_left_app. cbn [fold_left].
  by rewrite ReaderProps.m3u_step_skipped.
Qed.

Lemma read_m3u_skips_comments_witness :
  Props.skipped_line "#EXTM3U" /\
  PlaylistReader.read_m3u
    (["#EXTINF:1,A - B"] ++ "#EXTM3U" :: ["x.mp3"])
  = PlaylistReader.read_m3u (["#EXTINF:1,A - B"] ++ ["x.mp3"]).
Proof.
  assert (Props.skipped_line "#EXTM3U") as H.
  { right. split; [by exists "EXTM3U" | intros r; vm_compute; discriminate]. }
  split; [exact H |].
  apply (read_m3u_skips_comments ["#EXTINF:1,A - B"] ["x.mp3"] "#EXTM3U" H).
Defined.

Module M3uProps.
Import PyStr PlaylistReader Spec Props PyStrFacts StripFacts M3uFacts
       ReaderProps.

(** On a metadata line the step does not look at the slot it fills. *)
Lemma m3u_step_extinf_any (ts : list Track) (c1 c2 : option Track)
      (raw ds info : string) :
  strip raw = "#EXTINF:" +:+ ds +:+ "," +:+ info ->
  ds <> "" -> all_chars is_digit ds = true ->
  info <> "" -> all_chars not_newline info = true ->
  m3u_step (ts, c1) raw = m3u_step (ts, c2) raw.
Proof.
  intros Hline Hds Hdig Hinfo Hnl. unfold m3u_step. rewrite Hline.
  assert (startswith "#EXTINF:" ("#EXTINF:" +:+ ds +:+ "," +:+ info) = true)
    as -> by (apply startswith_spec; eauto).
  by rewrite re_search_extinf_line.
Qed.

Lemma all_chars_app (P : ascii -> bool) (a b : string) :
  all_chars P (a +:+ b) = all_chars P a && all_chars P b.
Proof.
  induction a as [|c a IH]; simpl; [done |].
  by rewrite IH, andb_assoc.
Qed.

Lemma all_chars_suffix (P : ascii -> bool) (a b : string) :
  all_chars P (a +:+ b) = true -> all_chars P b = true.
Proof. rewrite all_chars_app. by intros [_ ?]%andb_true_iff. Qed.

Lemma span_digits_eq (s ds r : string) :
  span_digits s = (ds, r) -> s = ds +:+ r.
Proof.
  revert ds r. induction s as [|c s IH]; intros ds r; simpl.
  - by intros [= <- <-].
  - destruct (is_digit c); [|by intros [= <- <-]].
    destruct (span_digits s) as [ds' r'] eqn:E.
    intros [= <- <-]. simpl. by rewrite (IH ds' r' eq_refl).
Qed.

(** In a line without a newline the group of the match is a non-empty
    end of the line. *)
Lemma re_search_extinf_suffix (s info : string) :
  all_chars not_newline s = true ->
  re_search_extinf s = Some info ->
  info <> "" /\ exists pre, s = pre +:+ info.
Proof.
  assert (forall s, all_chars not_newline s = true ->
                    match_extinf_here s = Some info ->
                    info <> "" /\ exists pre, s = pre +:+ info) as Hhere.
  { clear s. intros s Hnl. unfold match_extinf_here.
    destruct (strip_prefix "#EXTINF:" s) as [r|] eqn:Hp; [|done].
    apply strip_prefix_spec in Hp.
    destruct (span_digits r) as [ds r'] eqn:Hd.
    apply span_digits_eq in Hd.
    destruct (nonempty ds); [|done].
    destruct r' as [|c r'']; [done |].
    destruct (Ascii.eqb c ","); [|done].
    assert (dot_plus r'' = r'') as ->.
    { apply dot_plus_all. subst s r.
      apply all_chars_suffix, all_chars_suffix in Hnl. simpl in Hnl.
      by apply andb_true_iff in Hnl as [_ ?]. }
    destruct (nonempty r'') eqn:Hne; [|done].
    intros [= <-]. split; [by apply nonempty_true |].
    exists ("#EXTINF:" +:+ ds +:+ String c ""). subst s r.
    by rewrite !append_assoc. }
  induction s as [|c s IH]; intros Hnl.
  - done.
  - cbn [re_search_extinf].
    destruct (match_extinf_here (String c s)) as [i|] eqn:E.
    + intros [= <-]. by apply Hhere.
    + intros Hs. simpl in Hnl. apply andb_true_iff in Hnl as [_ Hnl].
      destruct (IH Hnl Hs) as [Hne [pre ->]].
      split; [done |]. by exists (String c pre).
Qed.

(** The title taken from "Artist - Title" text that ends with a non-blank
    character is not empty. *)
Lemma dash_title_nonempty (s : string) :
  s <> "" ->
  (forall r c, s = r +:+ String c "" -> is_space c = false) ->
  (if contains " - " s
   then strip (split_pair " - " s).2 else strip s) <> "".
Proof.
  intros Hne Hlast.
  destruct (contains " - " s) eqn:Hdash.
  - apply contains_spec in Hdash.
    destruct (split_pair_spec _ _ Hdash) as (a & t & -> & [E _]). simpl.
    destruct t as [|x t'].
    + exfalso. rewrite append_nil_r in E.
      assert (is_space " "%char = false) as Hsp; [|by vm_compute in Hsp].
      apply (Hlast (a +:+ " -") " "%char). rewrite E.
      by rewrite append_assoc.
    + destruct (last_char (String x t')) as (r & c & Et); [done |].
      rewrite Et. apply strip_snoc_nonempty.
      apply (Hlast (a +:+ " - " +:+ r) c). rewrite E, Et.
      by rewrite !append_assoc.
  - destruct (last_char s Hne) as (r & c & E). rewrite E.
    apply strip_snoc_nonempty. by apply (Hlast r c).
Qed.

(** What a step leaves in the slot has a title, if what it found there
    had one. *)
Lemma m3u_step_slot (ts : list Track) (cur : option Track) (raw : string) :
  all_chars not_newline (strip raw) = true ->
  (forall tr, cur = Some tr -> title tr <> "") ->
  forall tr, snd (m3u_step (ts, cur) raw) = Some tr -> title tr <> "".
Proof.
  intros Hnl Hcur tr. unfold m3u_step.
  destruct (startswith "#EXTINF:" (strip raw)).
  - destruct (re_search_extinf (strip raw)) as [info|] eqn:Hre;
      [|by apply Hcur].
    destruct (re_search_extinf_suffix _ _ Hnl Hre) as [Hne [pre Hpre]].
    assert (forall r c, info = r +:+ String c "" -> is_space c = false)
      as Hlast.
    { intros r c Hr. destruct (strip_trimmed raw) as [_ Hl].
      apply (Hl (pre +:+ r) c). rewrite Hpre, Hr. by rewrite append_assoc. }
    pose proof (dash_title_nonempty info Hne Hlast) as Ht.
    destruct (contains " - " info).
    + destruct (split_pair " - " info) as [a t]. simpl in *.
      by intros [= <-].
    + simpl. by intros [= <-].
  - destruct (nonempty (strip raw) && negb (startswith "#" (strip raw)));
      [|by apply Hcur].
    destruct cur as [tr0|]; [done |].
    destruct (contains " - " (path_stem (strip raw))); [|done].
    by destruct (split_pair " - " (path_stem (strip raw))).
Qed.

Lemma pending_title (lines : list string) (tr : Track) :
  Forall (fun raw => all_chars not_newline (strip raw) = true) lines ->
  pending lines = Some tr -> title tr <> "".
Proof.
  unfold pending, m3u_loop. revert tr.
  induction lines as [|raw lines IH] using rev_ind; intros tr Hall.
  - done.
  - apply Forall_app in Hall as [Hall Hraw].
    apply Forall_inv in Hraw.
    rewrite fold_left_app. cbn [fold_left].
    destruct (fold_left m3u_step lines ([], None)) as [ts cur].
    intros Hstep. apply (m3u_step_slot ts cur raw Hraw); [|exact Hstep].
    intros tr0 ->. by apply IH.
Qed.

End M3uProps.

(** X4. In read_m3u the last metadata line before a path line wins: a
    line that is not a path line, put in front of a metadata line, is of
    no effect, so pending metadata is replaced, never queued. *)
Theorem read_m3u_last_metadata_wins (pre post : list string)
        (m1 m2 ds info : string) :
  Props.is_path_line m1 = false ->
  PyStr.strip m2 = "#EXTINF:" +:+ ds +:+ "," +:+ info ->
  ds <> "" -> Spec.all_chars PyStr.is_digit ds = true ->
  info <> "" -> Spec.all_chars Spec.not_newline info = true ->
  PlaylistReader.read_m3u (pre ++ m1 :: m2 :: post)
  = PlaylistReader.read_m3u (pre ++ m2 :: post).
Proof.
  intros Hm1 Hm2 Hds Hdig Hinfo Hnl.
  unfold PlaylistReader.read_m3u, PlaylistReader.m3u_loop.
  rewrite !fold_left_app. cbn [fold_left].
  destruct (fold_left PlaylistReader.m3u_step pre ([], None)) as [ts cur].
  pose proof (ReaderProps.m3u_step_no_track ts cur m1 Hm1) as Hts.
  destruct (PlaylistReader.m3u_step (ts, cur) m1) as [ts' cur'].
  simpl in Hts. subst ts'.
  by rewrite (M3uProps.m3u_step_extinf_any ts cur' cur m2 ds info).
Qed.

Lemma read_m3u_last_metadata_wins_witness :
  PlaylistReader.read_m3u
    (["a.mp3"] ++ "#EXTINF:9,Old - Song" :: "#EXTINF:12,New - Tune"
               :: ["b.mp3"])
  = PlaylistReader.read_m3u
      (["a.mp3"] ++ "#EXTINF:12,New - Tune" :: ["b.mp3"]).
Proof.
  apply (read_m3u_last_metadata_wins ["a.mp3"] ["b.mp3"]
           "#EXTINF:9,Old - Song" "#EXTINF:12,New - Tune" "12" "New - Tune").
  - reflexivity.
  - reflexivity.
  - discriminate.
  - reflexivity.
  - discriminate.
  - reflexivity.
Defined.

(** X5. In read_m3u a track that comes from metadata has a non-empty
    title: when the lines read so far (none with a newline inside) leave
    metadata pending, the next path line adds exactly that track, and its
    title is not empty. Only a track named after a file can have the
    empty title. *)
Theorem read_m3u_metadata_title (pre post : list string) (p : string)
        (tr : Track) :
  Forall (fun raw => Spec.all_chars Spec.not_newline (PyStr.strip raw) = true)
         pre ->
  PlaylistReader.pending pre = Some tr ->
  Props.is_path_line p = true ->
  PlaylistReader.read_m3u (pre ++ p :: post)
  = PlaylistReader.read_m3u pre ++ tr :: PlaylistReader.read_m3u post /\
  title tr <> "".
Proof.
  intros Hall Hpending Hp. split; [|by apply (M3uProps.pending_title pre)].
  rewrite M3uFacts.read_m3u_app, Hpending. f_equal.
  rewrite M3uFacts.m3u_loop_cons.
  destruct (ReaderProps.m3u_step_one_track [] (Some tr) p Hp) as [tr' Hstep].
  assert (tr' = tr) as ->.
  { unfold PlaylistReader.m3u_step in Hstep.
    unfold Props.is_path_line in Hp. 
    destruct (PyStr.startswith "#EXTINF:" (PyStr.strip p)) eqn:E.
    - apply ReaderProps.startswith_extinf_hash in E. rewrite E in Hp.
      by rewrite andb_false_r in Hp.
    - rewrite Hp in Hstep. by injection Hstep as [= ->]. }
  rewrite Hstep, M3uFacts.m3u_loop_app. reflexivity.
Qed.

Lemma read_m3u_metadata_title_witness :
  PlaylistReader.read_m3u (["#EXTINF:7, Solo "] ++ "/" :: ["b.mp3"])
  = PlaylistReader.read_m3u ["#EXTINF:7, Solo "]
    ++ {| artist := ""; title := "Solo" |}
    :: PlaylistReader.read_m3u ["b.mp3"] /\
  title {| artist := ""; title := "Solo" |} <> "".
Proof.
  apply (read_m3u_metadata_title ["#EXTINF:7, Solo "] ["b.mp3"] "/").
  - repeat constructor.
  - reflexivity.
  - reflexivity.
Defined.

(** X6. read_m3u of two files read one after the other: the tracks of
    the first come first, unchanged; when the first leaves no metadata
    pending, the rest are the tracks of the second. *)
Theorem read_m3u_concat (lines more : list string) :
  PlaylistReader.read_m3u lines `prefix_of`
    PlaylistReader.read_m3u (lines ++ more) /\
  (PlaylistReader.pending lines = None ->
   PlaylistReader.read_m3u (lines ++ more)
   = PlaylistReader.read_m3u lines ++ PlaylistReader.read_m3u more).
Proof.
  rewrite M3uFacts.read_m3u_app. split.
  - by eexists.
  - by intros ->.
Qed.

Module CsvProps.
Import PyStr PlaylistReader Spec Props PyStrFacts CsvFacts.

(** A later column of the same name overwrites an earlier one, so a name
    that is not among the field names keeps what the dict held. *)
Lemma make_row_other (fieldnames record : list string)
      (d : gmap string PyVal) (k : string) :
  k ∉ fieldnames -> make_row d fieldnames record !! k = d !! k.
Proof.
  revert d record. induction fieldnames as [|f fs IH]; intros d record Hk;
    [done |].
  apply not_elem_of_cons in Hk as [Hne Hk].
  destruct record as [|v vs]; simpl; rewrite IH by done;
    by rewrite lookup_insert_ne.
Qed.

Lemma make_row_lookup (fieldnames record : list string)
      (d : gmap string PyVal) (i : nat) (k : string) :
  NoDup fieldnames -> fieldnames !! i = Some k ->
  make_row d fieldnames record !! k = Some (field_at record i).
Proof.
  revert d record i. induction fieldnames as [|f fs IH];
    intros d record i Hnd Hi; [done |].
  apply NoDup_cons in Hnd as [Hf Hnd].
  destruct i as [|i]; simpl in Hi.
  - injection Hi as ->.
    destruct record as [|v vs]; simpl; rewrite make_row_other by done;
      by rewrite lookup_insert_eq.
  - destruct record as [|v vs]; simpl.
    + rewrite (IH _ [] i) by done. unfold field_at. by rewrite !lookup_nil.
    + by rewrite (IH _ vs i).
Qed.

(** A record that reaches every column leaves no [None] in its row. *)
Lemma make_row_filled (fieldnames record : list string)
      (d : gmap string PyVal) (k : string) :
  length fieldnames <= length record ->
  d !! k <> Some PyNone ->
  make_row d fieldnames record !! k <> Some PyNone.
Proof.
  revert d record. induction fieldnames as [|f fs IH];
    intros d record Hlen Hd; [done |].
  destruct record as [|v vs]; simpl in *; [lia |].
  apply IH; [lia |].
  destruct (decide (f = k)) as [->|Hne].
  - by rewrite lookup_insert_eq.
  - by rewrite lookup_insert_ne.
Qed.

Lemma csv_loop_filled (rows : list (gmap string PyVal))
      (tracks : list Track) :
  Forall (fun row => row !! "ARTIST" <> Some PyNone) rows ->
  exists more,
    csv_loop tracks rows = Ok (tracks ++ more) /\
    length more <= length rows /\
    Forall (fun tr => trimmed (artist tr) /\ trimmed (title tr)) more.
Proof.
  revert tracks. induction rows as [|row rows IH]; intros tracks Hall.
  - exists []. simpl. rewrite app_nil_r. repeat split; [lia | constructor].
  - apply Forall_cons in Hall as [Hrow Hall]. cbn [csv_loop].
    rewrite csv_step_resolved by done.
    destruct (nonempty (first_nonempty title_keys row)).
    + destruct (IH (tracks ++
                      [{| artist := strip (first_nonempty artist_keys row);
                          title := strip (first_nonempty title_keys row) |}])
                   Hall) as (more & -> & Hlen & Htrim).
      eexists (_ :: more). rewrite <- app_assoc. split; [done |].
      split; [simpl; lia |]. constructor; [|done].
      split; apply StripFacts.strip_trimmed.
    + destruct (IH tracks Hall) as (more & -> & Hlen & Htrim).
      exists more. split; [done |]. split; [simpl; lia | done].
Qed.

End CsvProps.

(** X7. The row csv.DictReader hands to read_csv: with distinct header
    names, the value under the name of column i is field i of the record,
    and None when the record is too short to have a field i. *)
Theorem dict_reader_row_lookup (fieldnames record : list string) (i : nat)
        (k : string) :
  NoDup fieldnames -> fieldnames !! i = Some k ->
  PlaylistReader.make_row ∅ fieldnames record !! k
  = Some (Props.field_at record i).
Proof. apply CsvProps.make_row_lookup. Qed.

Lemma dict_reader_row_lookup_witness :
  PlaylistReader.make_row ∅ ["Title"; "Artist"; "Year"]
                          ["Yesterday"; "The Beatles"] !! "Year"
  = Some (Props.field_at ["Yesterday"; "The Beatles"] 2).
Proof.
  apply (dict_reader_row_lookup ["Title"; "Artist"; "Year"]
                                ["Yesterday"; "The Beatles"] 2 "Year").
  - by apply (bool_decide_unpack _).
  - reflexivity.
Defined.

(** X8. The row loop of read_csv raises on short records only: given the
    records csv.reader yields from the file (the file opened, decoded and
    tokenized to its end), when every data record has at least as many
    fields as the header, no row raises the AttributeError of a missing
    column, and the result is a list of at most one track per record,
    each with trimmed artist and title. *)
Theorem read_csv_full_rows (fieldnames : list string)
        (rows : list (list string)) :
  Forall (fun record => length fieldnames <= length record) rows ->
  exists tracks,
    PlaylistReader.read_csv (fieldnames :: rows) = PlaylistReader.Ok tracks /\
    length tracks <= length rows /\
    Forall (fun tr => Spec.trimmed (artist tr) /\ Spec.trimmed (title tr))
           tracks.
Proof.
  intros Hrows. unfold PlaylistReader.read_csv, PlaylistReader.dict_reader.
  destruct (CsvProps.csv_loop_filled
              (PlaylistReader.make_row ∅ fieldnames <$>
                 List.filter (fun r => match r with [] => false | _ => true end)
                             rows) [])
    as (more & Hloop & Hlen & Htrim).
  - apply Forall_fmap. apply Forall_forall. intros record Hin.
    apply list_elem_of_In, filter_In in Hin as [Hin _].
    apply CsvProps.make_row_filled; [|done].
    rewrite Forall_forall in Hrows. apply Hrows. by apply list_elem_of_In.
  - exists more. split; [exact Hloop |]. split; [|done].
    rewrite length_fmap in Hlen.
    pose proof (filter_length_le
                  (fun r : list string => match r with [] => false | _ => true end)
                  rows). lia.
Qed.

Lemma read_csv_full_rows_witness :
  exists tracks,
    PlaylistReader.read_csv
      (["Title"; "Artist"] :: [["Yesterday"; "The Beatles"]; ["  "; "x"; "y"]])
    = PlaylistReader.Ok tracks /\
    length tracks <= 2 /\
    Forall (fun tr => Spec.trimmed (artist tr) /\ Spec.trimmed (title tr))
           tracks.
Proof.
  apply (read_csv_full_rows ["Title"; "Artist"]
           [["Yesterday"; "The Beatles"]; ["  "; "x"; "y"]]).
  repeat constructor.
Defined.

(** ** Further facts about the runs, for any service *)

Module RunProps.
Import Spotify Prog SpotifyManager Main Spec Props RunFacts.

Section AnyService.
Context (S : Service).

Lemma run_pair {A} (m : Prog (World S) A) (r : Run (World S)) :
  m r = ((m r).1, (m r).2).
Proof. by destruct (m r). Qed.

(** search_track issues its one call and nothing else. *)
Lemma search_track_calls (artist title : string) (r : Run (World S)) :
  calls (search_track S artist title r).2
  = calls r ++ [CallSearch (search_query artist title) "track" 1].
Proof.
  unfold search_track, bind, call.
  destruct (search S (search_query artist title) "track" 1 (world r))
    as [[[|id items]|] w]; reflexivity.
Qed.

(** Where each track of the loop ends: in the found ids, in the not-found
    list, or (only with skip-duplicates) in neither. *)
Lemma search_loop_split (args : Args) (playlist_id : string) (total : nat)
      (tracks : list Track) :
  forall (i : nat) (found : list string) (not_found : list Track)
         (r : Run (World S)),
    exists added missing,
      (search_loop S args playlist_id total i tracks found not_found r).1
      = (found ++ added, not_found ++ missing) /\
      missing `sublist_of` tracks /\
      length added + length missing <= length tracks /\
      (skip_duplicates args = false ->
       length added + length missing = length tracks).
Proof.
  induction tracks as [|track rest IH]; intros i found not_found r.
  - exists [], []. simpl. rewrite !app_nil_r. by repeat split.
  - cbn [search_loop]. unfold bind at 1. unfold print at 1.
    unfold bind at 1.
    destruct (search_track S (artist track) (title track) _) as [tid r2].
    destruct (truthy_str tid) as [id|].
    + unfold bind at 1.
      destruct ((if skip_duplicates args
                 then is_track_in_playlist S playlist_id id
                 else ret false) r2) as [present r3] eqn:Hcheck.
      destruct present.
      * unfold bind at 1. unfold print at 1.
        destruct (IH (1 + i) found not_found
                     (MkRun (world r3) (calls r3)
                            (stdout r3 ++ [MsgAlreadyInPlaylist])))
          as (added & missing & -> & Hsub & Hlen & Heq).
        exists added, missing. split; [done |].
        split; [by apply sublist_cons |]. split; [simpl; lia |].
        intros Hskip. rewrite Hskip in Hcheck. by injection Hcheck.
      * unfold bind at 1. unfold print at 1.
        destruct (IH (1 + i) (found ++ [id]) not_found
                     (MkRun (world r3) (calls r3) (stdout r3 ++ [MsgFound])))
          as (added & missing & -> & Hsub & Hlen & Heq).
        exists (id :: added), missing. rewrite <- app_assoc.
        split; [done |]. split; [by apply sublist_cons |].
        split; [simpl; lia |]. intros Hskip. simpl. rewrite <- Heq by done.
        lia.
    + unfold bind at 1. unfold print at 1.
      destruct (IH (1 + i) found (not_found ++ [track])
                   (MkRun (world r2) (calls r2) (stdout r2 ++ [MsgNotFound])))
        as (added & missing & -> & Hsub & Hlen & Heq).
      exists added, (track :: missing). rewrite <- app_assoc.
      split; [done |]. split; [by apply sublist_skip |].
      split; [simpl; lia |]. intros Hskip. simpl. rewrite <- Heq by done.
      lia.
Qed.

(** Without skip-duplicates the loop only searches. *)
Lemma search_loop_calls (args : Args) (playlist_id : string) (total : nat)
      (tracks : list Track) :
  skip_duplicates args = false ->
  forall (i : nat) (found : list string) (not_found : list Track)
         (r : Run (World S)),
    calls (search_loop S args playlist_id total i tracks found not_found r).2
    = calls r ++ (search_call <$> tracks).
Proof.
  intros Hskip.
  induction tracks as [|track rest IH]; intros i found not_found r.
  - simpl. by rewrite app_nil_r.
  - cbn [search_loop fmap list_fmap]. unfold bind at 1. unfold print at 1.
    unfold bind at 1.
    pose proof (search_track_calls (artist track) (title track)
                  (MkRun (world r) (calls r)
                     (stdout r ++ [MsgSearching i total (artist track)
                                                (title track)]))) as Hc.
    destruct (search_track S (artist track) (title track) _) as [tid r2].
    cbn [snd calls] in Hc.
    destruct (truthy_str tid) as [id|].
    + rewrite Hskip. unfold bind at 1. unfold ret at 1.
      unfold bind at 1. unfold print at 1.
      rewrite IH. cbn [calls]. rewrite Hc, <- app_assoc. done.
    + unfold bind at 1. unfold print at 1.
      rewrite IH. cbn [calls]. rewrite Hc, <- app_assoc. done.
Qed.

End AnyService.

(** *** Which calls a program may issue *)

Section Gates.
Context (S : Service) (P : Call -> Prop).
Hypothesis Hconnect : forall a b, P (CallConnect a b).
Hypothesis Hsearch : forall q, P (CallSearch q "track" 1).
Hypothesis Hlist : P CallCurrentUserPlaylists.
Hypothesis Hnext : P CallNext.

Ltac go :=
  first [ apply only_ret | apply only_print
        | apply only_bind; [|intros ?] ].

Lemma gate_scan_pages {A B} (probe : A -> option B) :
  forall (page : Paging (World S) A), only P (scan_pages S probe page).
Proof.
  fix IH 1. intros [items next] r. simpl.
  destruct (first_hit probe items); [apply extends_refl |].
  destruct next as [follow|]; [|apply extends_refl].
  destruct (follow (world r)) as [[page'|] w].
  - eapply extends_trans; [|apply IH]. by apply extends_call.
  - simpl. by apply extends_call.
Qed.

Lemma gate_search_track (artist title : string) :
  only P (search_track S artist title).
Proof.
  unfold search_track. go; [by apply only_call |].
  destruct a as [[|id items]|]; repeat go.
Qed.

Lemma gate_find_playlist (name : string) : only P (find_playlist S name).
Proof.
  unfold find_playlist. go; [by apply only_call |].
  destruct a as [page|]; [|repeat go].
  go; [apply gate_scan_pages |].
  destruct a as [found|]; repeat go.
Qed.

Lemma gate_create_playlist (name description : string) :
  P CallCurrentUser ->
  (forall u, P (CallUserPlaylistCreate u name false description)) ->
  only P (create_playlist S name description).
Proof.
  intros Huser Hcreate. unfold create_playlist. go; [by apply only_call |].
  destruct a as [user|]; [|repeat go].
  go; [by apply only_call |]. destruct a as [id|]; repeat go.
Qed.

Lemma gate_is_track_in_playlist (playlist_id track_id : string) :
  (forall p, P (CallPlaylistTracks p)) ->
  only P (is_track_in_playlist S playlist_id track_id).
Proof.
  intros Htracks. unfold is_track_in_playlist. go; [by apply only_call |].
  destruct a as [page|]; [|repeat go].
  go; [apply gate_scan_pages |].
  destruct a as [[hit|]|]; repeat go.
Qed.

Lemma gate_add_tracks (playlist_id : string) (track_ids : list string) :
  (forall p uris, P (CallPlaylistAddItems p uris)) ->
  only P (add_tracks_to_playlist S playlist_id track_ids).
Proof.
  intros Hadd. unfold add_tracks_to_playlist. apply only_bind.
  - induction (py_range 0 (length track_ids) 100) as [|i starts IH]; simpl.
    + apply only_ret.
    + apply only_bind; [by apply only_call |].
      intros [u|]; [exact IH | apply only_ret].
  - intros [|]; repeat go.
Qed.

Lemma gate_resolve_playlist (args : Args) :
  (create_playlist_flag args = true ->
   P CallCurrentUser /\
   forall u, P (CallUserPlaylistCreate u (playlist_name args) false
                  ("Imported from "
                     +:+ PyStr.path_name (playlist_file args)))) ->
  only P (resolve_playlist S args).
Proof.
  intros Hflag. unfold resolve_playlist. go; [apply gate_find_playlist |].
  destruct (truthy_str a); [repeat go |].
  destruct (create_playlist_flag args); [|repeat go].
  destruct (Hflag eq_refl) as [Huser Hcreate].
  go; [go |]. go; [by apply gate_create_playlist |].
  destruct (truthy_str a1); repeat go.
Qed.

Lemma gate_search_loop (args : Args) (playlist_id : string) (total : nat)
      (tracks : list Track) :
  (skip_duplicates args = true -> forall p, P (CallPlaylistTracks p)) ->
  forall (i : nat) (found : list string) (not_found : list Track),
    only P (search_loop S args playlist_id total i tracks found not_found).
Proof.
  intros Hflag.
  induction tracks as [|track rest IH]; intros i found not_found; simpl.
  - go.
  - go; [go |]. go; [apply gate_search_track |].
    destruct (truthy_str a0) as [id|].
    + go.
      * destruct (skip_duplicates args);
          [by apply gate_is_track_in_playlist; apply Hflag | go].
      * destruct a1; (go; [go | apply IH]).
    + go; [go | apply IH].
Qed.

Lemma gate_add_phase (args : Args) (playlist_id : string)
      (found : list string) :
  (dry_run args = false -> forall p uris, P (CallPlaylistAddItems p uris)) ->
  only P (add_phase S args playlist_id found).
Proof.
  intros Hflag. unfold add_phase.
  destruct found as [|id found]; [repeat go |].
  destruct (dry_run args); [repeat go |].
  go; [go |]. go; [by apply gate_add_tracks; apply Hflag |].
  destruct a0; repeat go.
Qed.

Lemma gate_session (args : Args) (cid csecret : string)
      (tracks : list Track) :
  (create_playlist_flag args = true ->
   P CallCurrentUser /\
   forall u, P (CallUserPlaylistCreate u (playlist_name args) false
                  ("Imported from "
                     +:+ PyStr.path_name (playlist_file args)))) ->
  (skip_duplicates args = true -> forall p, P (CallPlaylistTracks p)) ->
  (dry_run args = false -> forall p uris, P (CallPlaylistAddItems p uris)) ->
  only P (session S args cid csecret tracks).
Proof.
  intros Hcreate Hskip Hdry. unfold session.
  go; [go |]. go; [by apply only_call |].
  destruct a0 as [u|]; [|repeat go].
  go; [by apply gate_resolve_playlist |].
  destruct a0 as [e|playlist_id]; [go |].
  unfold reconcile. go; [go |]. go; [by apply gate_search_loop |].
  destruct a1 as [found not_found].
  go; [apply only_print_all | by apply gate_add_phase].
Qed.

Lemma gate_main (args : Args) (env : Environ)
      (fs : string -> option InputFile) :
  (create_playlist_flag args = true ->
   P CallCurrentUser /\
   forall u, P (CallUserPlaylistCreate u (playlist_name args) false
                  ("Imported from "
                     +:+ PyStr.path_name (playlist_file args)))) ->
  (skip_duplicates args = true -> forall p, P (CallPlaylistTracks p)) ->
  (dry_run args = false -> forall p uris, P (CallPlaylistAddItems p uris)) ->
  only P (main S args env fs).
Proof.
  intros Hcreate Hskip Hdry. unfold main.
  destruct (truthy_str (or_else (client_id args) (SPOTIFY_CLIENT_ID env)));
    [|repeat go].
  destruct (truthy_str (or_else (client_secret args)
                                (SPOTIFY_CLIENT_SECRET env)));
    [|repeat go].
  destruct (fs (playlist_file args)) as [file|]; [|repeat go].
  destruct (format_of_ext (file_ext_of (playlist_file args))) as [fmt|];
    [|repeat go].
  destruct (read_playlist fmt file) as [[|track tracks]|e];
    [repeat go | | repeat go].
  by apply gate_session.
Qed.

End Gates.
End RunProps.

(** X9. The search loop accounts for every track: the found ids and the
    not-found tracks are only added to, the not-found tracks come from
    the input in its order, and together they are at most the input;
    without skip-duplicates they are exactly the input (with it, a track
    already in the playlist is in neither list). *)
Theorem search_loop_accounting (S : Spotify.Service) (args : Main.Args)
        (playlist_id : string) (total i : nat) (tracks : list Track)
        (found : list string) (not_found : list Track)
        (r : Prog.Run (Spotify.World S)) :
  exists added missing,
    (Main.search_loop S args playlist_id total i tracks found not_found r).1
    = (found ++ added, not_found ++ missing) /\
    missing `sublist_of` tracks /\
    length added + length missing <= length tracks /\
    (Main.skip_duplicates args = false ->
     length added + length missing = length tracks).
Proof. apply RunProps.search_loop_split. Qed.

(** X10. Without skip-duplicates the search loop issues exactly one
    search call per track, in the order of the tracks, and no other
    call: the playlist is never listed. *)
Theorem search_loop_searches_only (S : Spotify.Service) (args : Main.Args)
        (playlist_id : string) (total i : nat) (tracks : list Track)
        (found : list string) (not_found : list Track)
        (r : Prog.Run (Spotify.World S)) :
  Main.skip_duplicates args = false ->
  Prog.calls
    (Main.search_loop S args playlist_id total i tracks found not_found r).2
  = Prog.calls r ++ (Props.search_call <$> tracks).
Proof. intros H. by apply RunProps.search_loop_calls. Qed.

Lemma search_loop_searches_only_witness :
  Prog.calls
    (Main.search_loop Sim.service Samples.mp3_args "pl-1" 3 1 Samples.tracks3
                      [] [] (Samples.start Samples.world0)).2
  = Prog.calls (Samples.start Samples.world0)
    ++ (Props.search_call <$> Samples.tracks3).
Proof.
  apply (search_loop_searches_only Sim.service Samples.mp3_args "pl-1" 3 1
           Samples.tracks3 [] [] (Samples.start Samples.world0) eq_refl).
Defined.

(** X11. Each flag gates its calls, for the whole of main: a playlist is
    created (current_user, user_playlist_create) only with
    --create-playlist, the tracks of the playlist are listed only with
    --skip-duplicates, and items are appended only without --dry-run. *)
Theorem main_flags_gate_calls (S : Spotify.Service) (args : Main.Args)
        (env : Main.Environ) (fs : string -> option Main.InputFile)
        (r : Prog.Run (Spotify.World S)) :
  Spec.extends (fun c => Props.allowed args c = true) r
               (Main.main S args env fs r).2.
Proof.
  apply (RunProps.gate_main S (fun c => Props.allowed args c = true));
    unfold Props.allowed; try done.
  intros Hdry _ _. by rewrite Hdry.
Qed.

Module StartProps.
Import Spotify Prog SpotifyManager Main Spec Props RunFacts RunProps.

(** The session starts with the connect call. *)
Lemma session_calls (S : Service) (args : Args) (cid csecret : string)
      (tracks : list Track) (r : Run (World S)) :
  exists rest,
    calls (session S args cid csecret tracks r).2
    = calls r ++ CallConnect cid csecret :: rest.
Proof.
  unfold session. unfold bind at 1. unfold print at 1.
  unfold bind at 1. unfold call at 1. cbn [world calls stdout].
  destruct (connect S cid csecret (world r)) as [[u|] w].
  - match goal with
    | |- exists rest, calls (?prog ?r0).2 = _ =>
        assert (extends (fun _ => True) r0 (prog r0).2)
          as (cs & ms & Hc & _ & _)
    end.
    { refine (only_bind _ _ _ _ _ _);
        [by apply only_resolve_playlist |].
      intros [e|playlist_id]; [apply only_ret |].
      apply only_reconcile; [done | by right]. }
    exists cs. rewrite Hc. cbn [calls]. by rewrite <- app_assoc.
  - by exists [].
Qed.

(** The add loop issues bounded appends for its playlist, no more than
    there are batches. *)
Lemma add_tracks_calls (S : Service) (playlist_id : string)
      (track_ids : list string) (r : Run (World S)) :
  exists sent,
    calls (add_tracks_to_playlist S playlist_id track_ids r).2
    = calls r ++ (CallPlaylistAddItems playlist_id <$> sent) /\
    sent `prefix_of` batches track_ids.
Proof.
  unfold add_tracks_to_playlist, bind.
  destruct (BatchFacts.add_batches_spec S playlist_id track_ids
              (py_range 0 (length track_ids) 100) r)
    as [(w' & _ & ->) | (done & uris & rest & w1 & w2 & Hsplit & _ & _ & ->)].
  - exists (batches track_ids). split; [done |].
    exists []. by rewrite app_nil_r.
  - exists (done ++ [uris]). split; [done |]. exists rest.
    unfold batches. rewrite Hsplit. by rewrite <- app_assoc.
Qed.

End StartProps.

(** X12. main reaches the service only after every start-up check: if
    the run issued any call, then the credentials were present (a
    non-empty flag wins over the environment), the file exists, its
    format is supported and it gave at least one track, and the first
    call of the run is the connect with these credentials. *)
Theorem main_connects_first (S : Spotify.Service) (args : Main.Args)
        (env : Main.Environ) (fs : string -> option Main.InputFile)
        (r : Prog.Run (Spotify.World S)) :
  Prog.calls (Main.main S args env fs r).2 <> Prog.calls r ->
  exists cid csecret file fmt tracks rest,
    Main.truthy_str (Main.or_else (Main.client_id args)
                                  (Main.SPOTIFY_CLIENT_ID env)) = Some cid /\
    Main.truthy_str (Main.or_else (Main.client_secret args)
                                  (Main.SPOTIFY_CLIENT_SECRET env))
    = Some csecret /\
    fs (Main.playlist_file args) = Some file /\
    Main.dispatch (Main.playlist_file args) = Some fmt /\
    Main.read_playlist fmt file = PlaylistReader.Ok tracks /\
    tracks <> [] /\
    Prog.calls (Main.main S args env fs r).2
    = Prog.calls r ++ Spotify.CallConnect cid csecret :: rest.
Proof.
  unfold Main.main, Main.dispatch.
  destruct (Main.truthy_str (Main.or_else (Main.client_id args)
                                          (Main.SPOTIFY_CLIENT_ID env)))
    as [cid|]; [|done].
  destruct (Main.truthy_str (Main.or_else (Main.client_secret args)
                                          (Main.SPOTIFY_CLIENT_SECRET env)))
    as [csecret|]; [|done].
  destruct (fs (Main.playlist_file args)) as [file|]; [|done].
  destruct (Main.format_of_ext (Main.file_ext_of (Main.playlist_file args)))
    as [fmt|]; [|done].
  destruct (Main.read_playlist fmt file) as [[|track tracks]|e] eqn:Hread;
    [done | | done].
  intros _.
  destruct (StartProps.session_calls S args cid csecret (track :: tracks) r)
    as [rest Hcalls].
  exists cid, csecret, file, fmt, (track :: tracks), rest.
  by repeat split.
Qed.

Lemma main_connects_first_witness :
  exists cid csecret file fmt tracks rest,
    Main.truthy_str (Main.or_else (Main.client_id Samples.args0)
                       (Main.SPOTIFY_CLIENT_ID Samples.env0)) = Some cid /\
    Main.truthy_str (Main.or_else (Main.client_secret Samples.args0)
                       (Main.SPOTIFY_CLIENT_SECRET Samples.env0))
    = Some csecret /\
    Samples.fs0 (Main.playlist_file Samples.args0) = Some file /\
    Main.dispatch (Main.playlist_file Samples.args0) = Some fmt /\
    Main.read_playlist fmt file = PlaylistReader.Ok tracks /\
    tracks <> [] /\
    Prog.calls (Main.main Sim.service Samples.args0 Samples.env0 Samples.fs0
                          (Samples.start Samples.world0)).2
    = Prog.calls (Samples.start Samples.world0)
      ++ Spotify.CallConnect cid csecret :: rest.
Proof.
  apply (main_connects_first Sim.service Samples.args0 Samples.env0
           Samples.fs0 (Samples.start Samples.world0)).
  vm_compute. discriminate.
Defined.

(** X13. add_tracks_to_playlist never sends more than 100 URIs in a call:
    every call it issues is an append to the given playlist with 1 to 100
    URIs, and for n track ids it issues at most ceil(n / 100) calls (none
    for the empty list). *)
Theorem add_tracks_calls_bounded (S : Spotify.Service) (playlist_id : string)
        (track_ids : list string) (r : Prog.Run (Spotify.World S)) :
  exists cs,
    Prog.calls (SpotifyManager.add_tracks_to_playlist
                  S playlist_id track_ids r).2
    = Prog.calls r ++ cs /\
    Forall (Props.bounded_add playlist_id) cs /\
    length cs <= (length track_ids + 99) / 100.
Proof.
  destruct (StartProps.add_tracks_calls S playlist_id track_ids r)
    as (sent & Hcalls & Hprefix).
  exists (Spotify.CallPlaylistAddItems playlist_id <$> sent).
  split; [exact Hcalls |]. split.
  - apply Forall_fmap, Forall_forall. intros uris Hin.
    exists uris. split; [done |].
    destruct Hprefix as [k Hk].
    assert (uris ∈ SpotifyManager.batches track_ids) as Hb
      by (rewrite Hk; apply elem_of_app; by left).
    apply list_elem_of_lookup in Hb as [j Hj].
    by apply BatchFacts.batches_sizes in Hj as [? _].
  - rewrite length_fmap, <- BatchFacts.batches_length.
    by apply prefix_length.
Qed.

(** ** Further facts about the reference service *)

Module SimProps.
Import Spotify Prog SpotifyManager Main Sim Spec Props RunFacts SimFacts.

Lemma chunks_concat_size {A} (size k : nat) (l : list A) :
  length l <= k * size ->
  concat ((fun j => take size (drop (j * size) l)) <$> seq 0 k) = l.
Proof.
  revert l. induction k as [|k IH]; intros l Hl.
  - destruct l; [done | simpl in Hl; lia].
  - cbn [seq fmap list_fmap concat]. rewrite <- seq_shift.
    rewrite <- list_fmap_compose. change (0 * size) with 0. rewrite drop_0.
    transitivity (take size l ++ drop size l); [|apply take_drop].
    f_equal.
    etransitivity; [|apply (IH (drop size l)); rewrite length_drop; lia].
    f_equal. apply list_fmap_ext. intros _ j _. simpl.
    rewrite drop_drop. repeat f_equal; lia.
Qed.

(** The pages of a list, glued, are the list. *)
Lemma pages_concat {A} (size : nat) (l : list A) :
  0 < size ->
  concat ((fun o => slice l o (o + size)) <$> py_range 0 (length l) size) = l.
Proof.
  intros Hsize. unfold py_range. rewrite <- list_fmap_compose.
  etransitivity;
    [|apply (chunks_concat_size size
               ((length l - 0 + size - 1) / size) l)].
  - f_equal. apply list_fmap_ext. intros _ j _. simpl. unfold slice.
    by replace (j * size + size - j * size) with size by lia.
  - pose proof (Nat.div_mod_eq (length l - 0 + size - 1) size) as H.
    pose proof (Nat.mod_upper_bound (length l - 0 + size - 1) size) as H'.
    nia.
Qed.

Lemma first_hit_find (name : string) (l : list PlaylistEntry) :
  first_hit (name_probe name) l
  = entry_id <$> List.find (name_matches name) l.
Proof.
  induction l as [|e l IH]; [done |].
  cbn [first_hit List.find]. unfold name_probe, name_matches in *.
  by destruct (String.eqb (PyStr.lower (entry_name e)) (PyStr.lower name)).
Qed.

(** find_playlist reads the whole listing, page by page. *)
Lemma sim_find_playlist (name : string) (r : Run (World service)) :
  sim_faults (world r) = [] ->
  exists r',
    find_playlist service name r
    = (entry_id <$> List.find (name_matches name) (sim_listing (world r)),
       r') /\
    world r' = world r /\ extends not_add r r'.
Proof.
  intros Hok. unfold find_playlist.
  erewrite bind_run; cycle 1.
  { unfold call. cbn [current_user_playlists service].
    rewrite attempt_ok by done. reflexivity. }
  unfold pages.
  destruct (scan_sim_pages (name_probe name) 50 (sim_listing (world r))
              (py_range 0 (length (sim_listing (world r))) 50)
              (MkRun (world r) (calls r ++ [CallCurrentUserPlaylists])
                     (stdout r)) Hok)
    as (r' & Hscan & Hw & Hout & Hext).
  erewrite bind_run by exact Hscan.
  rewrite pages_concat, first_hit_find by lia.
  exists r'. split; [done |]. split; [done |].
  eapply extends_trans; [|exact Hext]. by apply extends_call.
Qed.

(** The search loop without skip-duplicates collects every resolved id. *)
Lemma sim_search_loop_all (args : Args) (playlist_id : string) (total : nat)
      (tracks : list Track) :
  skip_duplicates args = false ->
  forall (i : nat) (found : list string) (not_found : list Track)
         (r : Run (World service)),
    sim_faults (world r) = [] ->
    exists not_found' r',
      search_loop service args playlist_id total i tracks found not_found r
      = ((found ++ omap (resolved (sim_catalog (world r))) tracks,
          not_found'), r') /\
      world r' = world r.
Proof.
  intros Hskip.
  induction tracks as [|track rest IH]; intros i found not_found r Hok.
  - exists not_found, r. simpl. unfold ret. by rewrite app_nil_r.
  - cbn [search_loop omap list_omap].
    erewrite bind_run by reflexivity.
    destruct (sim_search_track (artist track) (title track)
                (MkRun (world r) (calls r)
                   (stdout r ++ [MsgSearching i total (artist track)
                                              (title track)])) Hok)
      as (r2 & Hsearch & Hw2 & _).
    erewrite bind_run by exact Hsearch.
    cbn [world] in *.
    fold (resolved (sim_catalog (world r)) track).
    destruct (resolved (sim_catalog (world r)) track) as [id|].
    + rewrite Hskip. erewrite bind_run by reflexivity. cbv beta iota.
      erewrite bind_run by reflexivity.
      destruct (IH (1 + i) (found ++ [id]) not_found
                   (MkRun (world r2) (calls r2) (stdout r2 ++ [MsgFound])))
        as (nf & r' & Hloop & Hw); [cbn [world]; by rewrite Hw2 |].
      exists nf, r'. split.
      * etransitivity; [exact Hloop |]. cbn [world]. rewrite Hw2.
        by rewrite <- app_assoc.
      * cbn [world] in Hw. by rewrite Hw, Hw2.
    + erewrite bind_run by reflexivity.
      destruct (IH (1 + i) found (not_found ++ [track])
                   (MkRun (world r2) (calls r2) (stdout r2 ++ [MsgNotFound])))
        as (nf & r' & Hloop & Hw); [cbn [world]; by rewrite Hw2 |].
      exists nf, r'. split.
      * etransitivity; [exact Hloop |]. cbn [world]. by rewrite Hw2.
      * cbn [world] in Hw. by rewrite Hw, Hw2.
Qed.

(** A run without skip-duplicates and without dry-run appends all it
    resolved. *)
Lemma sim_reconcile_all (args : Args) (playlist_id : string)
      (tracks : list Track) (playlist : list string)
      (r : Run (World service)) :
  skip_duplicates args = false ->
  dry_run args = false ->
  sim_faults (world r) = [] ->
  sim_tracks (world r) !! playlist_id = Some playlist ->
  exists r',
    reconcile service args playlist_id tracks r = (ExitOk, r') /\
    sim_faults (world r') = [] /\
    sim_catalog (world r') = sim_catalog (world r) /\
    sim_tracks (world r')
    = <[playlist_id :=
          playlist ++ omap (resolved (sim_catalog (world r))) tracks]>
        (sim_tracks (world r)).
Proof.
  intros Hskip Hdry Hok Hpl. unfold reconcile.
  erewrite bind_run by reflexivity.
  destruct (sim_search_loop_all args playlist_id (length tracks) tracks
              Hskip 1 [] []
              (MkRun (world r) (calls r) (stdout r ++ [MsgSearchingHeader]))
              Hok)
    as (nf & r1 & Hloop & Hw1).
  erewrite bind_run by exact Hloop.
  cbn [world app] in *.
  set (ids := omap (resolved (sim_catalog (world r))) tracks) in *.
  erewrite bind_run by apply MainFacts.print_all_run.
  unfold add_phase. destruct ids as [|id ids'] eqn:Hids.
  - erewrite bind_run by reflexivity. eexists. split; [reflexivity |].
    cbn [world]. rewrite Hw1. repeat split; try done.
    rewrite app_nil_r. by rewrite insert_id.
  - rewrite Hdry. erewrite bind_run by reflexivity.
    destruct (sim_add_tracks playlist_id (id :: ids') playlist
                (MkRun (world r1) (calls r1)
                   ((stdout r1 ++ summary (id :: ids') nf)
                      ++ [MsgAdding (length (id :: ids'))
                                    (playlist_name args)])))
      as (r2 & Hadd & Hok2 & Hcat2 & Htracks2);
      [cbn [world]; by rewrite Hw1 | cbn [world]; by rewrite Hw1 |].
    cbn [world calls stdout].
    rewrite (bind_run _ _ _ _ _ Hadd).
    erewrite bind_run by reflexivity. eexists. split; [reflexivity |].
    cbn [world] in *. rewrite Hw1 in *. by repeat split.
Qed.

End SimProps.

(** X14. Against the reference service with no failing call,
    find_playlist returns the id of the first playlist of the user's
    listing whose name equals the requested name up to case, and nothing
    when there is none; it reads the listing to the end, through all its
    pages, and changes nothing. *)
Theorem find_playlist_first_match (name : string)
        (r : Prog.Run (Spotify.World Sim.service)) :
  Sim.sim_faults (Prog.world r) = [] ->
  (SpotifyManager.find_playlist Sim.service name r).1
  = Spotify.entry_id
      <$> List.find (Props.name_matches name) (Sim.sim_listing (Prog.world r)) /\
  Prog.world (SpotifyManager.find_playlist Sim.service name r).2
  = Prog.world r.
Proof.
  intros Hok.
  destruct (SimProps.sim_find_playlist name r Hok) as (r' & -> & Hw & _).
  by split.
Qed.

Lemma find_playlist_first_match_witness :
  (SpotifyManager.find_playlist Sim.service "ROAD trip"
                                (Samples.start Samples.world0)).1
  = Spotify.entry_id
      <$> List.find (Props.name_matches "ROAD trip")
                    (Sim.sim_listing Samples.world0) /\
  Prog.world (SpotifyManager.find_playlist Sim.service "ROAD trip"
                                           (Samples.start Samples.world0)).2
  = Samples.world0.
Proof.
  apply (find_playlist_first_match "ROAD trip" (Samples.start Samples.world0)
                                   eq_refl).
Defined.

(** X15. Without skip-duplicates the reconciliation is not idempotent:
    against the reference service with no failing call, a run appends
    every resolved id, in the order of the tracks and whether or not the
    playlist has it, and a second run appends the same ids again. *)
Theorem rerun_without_skip_duplicates (w0 : Sim.SimWorld) (args : Main.Args)
        (playlist_id : string) (tracks : list Track)
        (playlist : list string) :
  Main.skip_duplicates args = false ->
  Main.dry_run args = false ->
  Sim.sim_faults w0 = [] ->
  Sim.sim_tracks w0 !! playlist_id = Some playlist ->
  let ids := omap (Sim.resolved (Sim.sim_catalog w0)) tracks in
  let run1 :=
    Main.reconcile Sim.service args playlist_id tracks (Prog.MkRun w0 [] []) in
  let run2 :=
    Main.reconcile Sim.service args playlist_id tracks
                   (Prog.MkRun (Prog.world run1.2) [] []) in
  Sim.sim_tracks (Prog.world run1.2) !! playlist_id = Some (playlist ++ ids) /\
  Sim.sim_tracks (Prog.world run2.2) !! playlist_id
  = Some (playlist ++ ids ++ ids).
Proof.
  intros Hskip Hdry Hok Hpl ids run1 run2.
  destruct (SimProps.sim_reconcile_all args playlist_id tracks playlist
              (Prog.MkRun w0 [] []) Hskip Hdry Hok Hpl)
    as (r1 & Hrun1 & Hok1 & Hcat1 & Htracks1).
  cbn [Prog.world] in *.
  assert (Sim.sim_tracks (Prog.world r1) !! playlist_id
          = Some (playlist ++ ids)) as Hpl1.
  { rewrite Htracks1. apply lookup_insert_eq. }
  destruct (SimProps.sim_reconcile_all args playlist_id tracks
              (playlist ++ ids) (Prog.MkRun (Prog.world r1) [] [])
              Hskip Hdry Hok1 Hpl1)
    as (r2 & Hrun2 & _ & _ & Htracks2).
  cbn [Prog.world] in *.
  subst run1 run2. rewrite Hrun1. cbn [snd]. rewrite Hrun2. cbn [snd].
  split; [done |].
  rewrite Htracks2, Hcat1, lookup_insert_eq. by rewrite <- app_assoc.
Qed.

Lemma rerun_without_skip_duplicates_witness :
  let ids := omap (Sim.resolved (Sim.sim_catalog Samples.world0))
                  Samples.tracks3 in
  let run1 :=
    Main.reconcile Sim.service Samples.mp3_args "pl-1" Samples.tracks3
                   (Prog.MkRun Samples.world0 [] []) in
  let run2 :=
    Main.reconcile Sim.service Samples.mp3_args "pl-1" Samples.tracks3
                   (Prog.MkRun (Prog.world run1.2) [] []) in
  Sim.sim_tracks (Prog.world run1.2) !! "pl-1" = Some (["id-y"] ++ ids) /\
  Sim.sim_tracks (Prog.world run2.2) !! "pl-1"
  = Some (["id-y"] ++ ids ++ ids).
Proof.
  apply (rerun_without_skip_duplicates Samples.world0 Samples.mp3_args "pl-1"
           Samples.tracks3 ["id-y"] eq_refl eq_refl eq_refl eq_refl).
Defined.

Module ExitProps.
Import Spotify Prog SpotifyManager Main Spec Props RunFacts RunProps.

Section AnyService.
Context (S : Service).

(** resolve_playlist gives up with exit status 1 only. *)
Lemma resolve_playlist_exit (args : Args) (r : Run (World S)) (e : Exit) :
  (resolve_playlist S args r).1 = inl e -> e = ExitFailure.
Proof.
  unfold resolve_playlist, bind.
  destruct (find_playlist S (playlist_name args) r) as [found r1].
  destruct (truthy_str found); [done |].
  destruct (create_playlist_flag args); [|by intros [= <-]].
  unfold print at 1.
  destruct (create_playlist S _ _ _) as [created r2].
  destruct (truthy_str created); [done | by intros [= <-]].
Qed.

Lemma add_phase_exit (args : Args) (playlist_id : string)
      (found : list string) (r r' : Run (World S)) :
  add_phase S args playlist_id found r = (ExitOk, r') ->
  exists m, last (stdout r') = Some m /\ final_message args m.
Proof.
  unfold add_phase. destruct found as [|id found].
  - unfold bind, print, ret. intros [= <-]. exists MsgNoTracksToAdd.
    split; [apply last_snoc | by left].
  - destruct (dry_run args) eqn:Hdry.
    + unfold bind, print, ret. intros [= <-]. eexists.
      split; [apply last_snoc |]. right; left. split; [done |].
      eexists. split; [|reflexivity]. simpl. lia.
    + unfold bind at 1. unfold print at 1. unfold bind at 1.
      destruct (add_tracks_to_playlist S playlist_id (id :: found) _)
        as [[|] r1]; [|done].
      unfold bind, print, ret. intros [= <-]. eexists.
      split; [apply last_snoc |]. right; right. by split.
Qed.

(** Two names that agree up to case are probed alike. *)
Lemma name_probe_lower (name name' : string) (e : PlaylistEntry) :
  PyStr.lower name = PyStr.lower name' ->
  name_probe name e = name_probe name' e.
Proof. unfold name_probe. by intros ->. Qed.

Lemma first_hit_ext {A B} (probe probe' : A -> option B) (items : list A) :
  (forall x, probe x = probe' x) ->
  first_hit probe items = first_hit probe' items.
Proof.
  intros H. induction items as [|x items IH]; [done |].
  simpl. by rewrite H, IH.
Qed.

Lemma scan_pages_ext {A B} (probe probe' : A -> option B) :
  (forall x, probe x = probe' x) ->
  forall (page : Paging (World S) A) (r : Run (World S)),
    scan_pages S probe page r = scan_pages S probe' page r.
Proof.
  intros H. fix IH 1. intros [items next] r. simpl.
  rewrite (first_hit_ext probe probe' items H).
  destruct (first_hit probe' items); [done |].
  destruct next as [follow|]; [|done].
  destruct (follow (world r)) as [[page'|] w]; [apply IH | done].
Qed.

End AnyService.
End ExitProps.

(** X16. The name given to find_playlist counts up to case only: for two
    names with the same lowercase form, against any service, the method
    returns the same id, issues the same calls and leaves the service in
    the same state. *)
Theorem find_playlist_case_insensitive (S : Spotify.Service)
        (name name' : string) (r : Prog.Run (Spotify.World S)) :
  PyStr.lower name = PyStr.lower name' ->
  (SpotifyManager.find_playlist S name r).1
  = (SpotifyManager.find_playlist S name' r).1 /\
  Prog.calls (SpotifyManager.find_playlist S name r).2
  = Prog.calls (SpotifyManager.find_playlist S name' r).2 /\
  Prog.world (SpotifyManager.find_playlist S name r).2
  = Prog.world (SpotifyManager.find_playlist S name' r).2.
Proof.
  intros Hlower. unfold SpotifyManager.find_playlist, Prog.bind, Prog.call.
  destruct (Spotify.current_user_playlists S (Prog.world r)) as [[page|] w];
    [|done].
  rewrite (ExitProps.scan_pages_ext S _ _
             (fun e => ExitProps.name_probe_lower name name' e Hlower)).
  by destruct (SpotifyManager.scan_pages S _ page _) as [[found|] r1].
Qed.

Lemma find_playlist_case_insensitive_witness :
  (SpotifyManager.find_playlist Sim.service "ROAD TRIP"
                                (Samples.start Samples.world0)).1
  = (SpotifyManager.find_playlist Sim.service "road trip"
                                  (Samples.start Samples.world0)).1.
Proof.
  apply (find_playlist_case_insensitive Sim.service "ROAD TRIP" "road trip"
           (Samples.start Samples.world0) eq_refl).
Defined.

(** X17. The calls of main have a fixed shape, against any service:
    every search asks for type "track" with limit 1, and a playlist is
    only ever created private, under the requested name, with the
    description "Imported from <file name>". *)
Theorem main_calls_well_shaped (S : Spotify.Service) (args : Main.Args)
        (env : Main.Environ) (fs : string -> option Main.InputFile)
        (r : Prog.Run (Spotify.World S)) :
  Spec.extends (Props.well_shaped args) r (Main.main S args env fs r).2.
Proof.
  by apply (RunProps.gate_main S (Props.well_shaped args)).
Qed.

(** X18. main ends with exit status 0 in three ways only: nothing to
    add, the dry-run report of a positive count (with --dry-run), or the
    report of a successful append (without it); the last line printed
    says which. *)
Theorem main_exit_ok (S : Spotify.Service) (args : Main.Args)
        (env : Main.Environ) (fs : string -> option Main.InputFile)
        (r : Prog.Run (Spotify.World S)) :
  (Main.main S args env fs r).1 = Main.ExitOk ->
  exists m,
    last (Prog.stdout (Main.main S args env fs r).2) = Some m /\
    Props.final_message args m.
Proof.
  destruct (Main.main S args env fs r) as [e r'] eqn:Hmain.
  cbn [fst snd]. intros ->. revert Hmain. unfold Main.main.
  destruct (Main.truthy_str (Main.or_else (Main.client_id args)
                                          (Main.SPOTIFY_CLIENT_ID env)))
    as [cid|]; [|done].
  destruct (Main.truthy_str (Main.or_else (Main.client_secret args)
                                          (Main.SPOTIFY_CLIENT_SECRET env)))
    as [csecret|]; [|done].
  destruct (fs (Main.playlist_file args)) as [file|]; [|done].
  destruct (Main.format_of_ext (Main.file_ext_of (Main.playlist_file args)))
    as [fmt|]; [|done].
  destruct (Main.read_playlist fmt file) as [[|track tracks]|e];
    [done | | done].
  unfold Main.session. unfold Prog.bind at 1. unfold Prog.print at 1.
  unfold Prog.bind at 1.
  destruct (Prog.call _ _ _) as [[u|] r1]; [|done].
  unfold Prog.bind at 1.
  pose proof (ExitProps.resolve_playlist_exit S args r1) as Hres.
  destruct (Main.resolve_playlist S args r1) as [[e|playlist_id] r2].
  - simpl in Hres. rewrite (Hres e eq_refl). done.
  - clear Hres. unfold Main.reconcile. unfold Prog.bind at 1.
    unfold Prog.print at 1. unfold Prog.bind at 1.
    destruct (Main.search_loop S args playlist_id _ _ _ _ _ _)
      as [[found not_found] r3].
    unfold Prog.bind at 1.
    destruct (Main.print_all S _ r3) as [u' r4].
    apply ExitProps.add_phase_exit.
Qed.

Lemma main_exit_ok_witness :
  exists m,
    last (Prog.stdout
            (Main.main Sim.service Samples.dry_args Samples.env0 Samples.fs0
                       (Samples.start Samples.world0)).2) = Some m /\
    Props.final_message Samples.dry_args m.
Proof.
  apply (main_exit_ok Sim.service Samples.dry_args Samples.env0 Samples.fs0
                      (Samples.start Samples.world0)).
  vm_compute. reflexivity.
Defined.

Module SimMain.
Import Spotify Prog SpotifyManager Main Sim Spec Props RunFacts SimFacts
       SimProps.

Lemma with_tracks_same (w : SimWorld) : with_tracks w (sim_tracks w) = w.
Proof. by destruct w. Qed.

(** Without failures the add loop changes the tracks of the playlist and
    nothing else. *)
Lemma sim_add_batches_world (playlist_id : string) (track_ids : list string)
      (starts : list nat) :
  forall (playlist : list string) (r : Run (World service)),
    sim_faults (world r) = [] ->
    sim_tracks (world r) !! playlist_id = Some playlist ->
    exists r',
      add_batches service playlist_id track_ids starts r = (true, r') /\
      world r'
      = with_tracks (world r)
          (<[playlist_id :=
               playlist ++ concat ((fun i => slice track_ids i (i + 100))
                                     <$> starts)]> (sim_tracks (world r))) /\
      extends (fun _ => True) r r'.
Proof.
  induction starts as [|i starts IH]; intros playlist r Hok Hpl.
  - exists r. split; [done |]. split; [|apply extends_refl].
    simpl. rewrite app_nil_r, insert_id by done.
    by rewrite with_tracks_same.
  - cbn [add_batches].
    erewrite bind_run; cycle 1.
    { unfold call. cbn [playlist_add_items service].
      rewrite attempt_ok by done. unfold sim_add_items.
      rewrite Hpl. unfold batch_uris. rewrite mapM_track_uris.
      rewrite length_fmap.
      pose proof (slice_length track_ids i) as Hlen.
      apply Nat.leb_le in Hlen. rewrite Hlen. reflexivity. }
    edestruct (IH (playlist ++ slice track_ids i (i + 100)))
      as (r' & -> & Hw & Hext); [| |exists r'].
    + done.
    + simpl. apply lookup_insert_eq.
    + split; [done |]. split.
      * rewrite Hw. cbn [world]. unfold with_tracks. simpl.
        rewrite insert_insert_eq. by rewrite <- app_assoc.
      * eapply extends_trans; [|exact Hext]. by apply extends_call.
Qed.

(** reconcile with skip-duplicates and no failure, with the whole state
    of the service. *)
Lemma sim_reconcile_world (args : Args) (playlist_id : string)
      (tracks : list Track) (playlist : list string)
      (r : Run (World service)) :
  skip_duplicates args = true ->
  sim_faults (world r) = [] ->
  sim_tracks (world r) !! playlist_id = Some playlist ->
  exists r',
    reconcile service args playlist_id tracks r = (ExitOk, r') /\
    world r'
    = (if dry_run args then world r
       else with_tracks (world r)
              (<[playlist_id :=
                   playlist ++ new_ids (sim_catalog (world r)) playlist tracks]>
                 (sim_tracks (world r)))) /\
    extends (fun _ => True) r r' /\
    (dry_run args = true \/
     new_ids (sim_catalog (world r)) playlist tracks = [] ->
     extends not_add r r').
Proof.
  intros Hskip Hok Hpl.
  destruct (sim_reconcile args playlist_id tracks playlist r Hskip Hok Hpl)
    as (r0 & Hrun0 & _ & _ & _ & Hquiet).
  assert (extends (fun _ => True) r r0) as Hext.
  { pose proof (only_reconcile service (fun _ => True) (fun _ _ => I) args
                  playlist_id tracks (or_intror (fun _ => I)) r) as H.
    by rewrite Hrun0 in H. }
  exists r0. split; [done |]. split; [|by split].
  revert Hrun0. unfold reconcile.
  erewrite bind_run by reflexivity.
  destruct (sim_search_loop args playlist_id (length tracks) playlist tracks
              Hskip 1 [] []
              (MkRun (world r) (calls r) (stdout r ++ [MsgSearchingHeader]))
              Hok Hpl)
    as (nf & r1 & Hloop & Hw1 & _).
  erewrite bind_run by exact Hloop.
  cbn [world app] in *.
  set (ids := new_ids (sim_catalog (world r)) playlist tracks) in *.
  erewrite bind_run by apply MainFacts.print_all_run.
  unfold add_phase. destruct ids as [|id ids'] eqn:Hids.
  - erewrite bind_run by reflexivity. intros [= <-]. cbn [world].
    etransitivity; [exact Hw1 |]. destruct (dry_run args); [done |].
    rewrite app_nil_r, insert_id by done. by rewrite with_tracks_same.
  - destruct (dry_run args) eqn:Hdry.
    + erewrite bind_run by reflexivity. intros [= <-]. cbn [world].
      exact Hw1.
    + erewrite bind_run by reflexivity.
      unfold add_tracks_to_playlist.
      destruct (sim_add_batches_world playlist_id (id :: ids')
                  (py_range 0 (length (id :: ids')) 100) playlist
                  (MkRun (world r1) (calls r1)
                     ((stdout r1 ++ summary (id :: ids') nf)
                        ++ [MsgAdding (length (id :: ids'))
                                      (playlist_name args)])))
        as (r2 & Hadd & Hw2 & _);
        [cbn [world]; by rewrite Hw1 | cbn [world]; by rewrite Hw1 |].
      cbn [world calls stdout] in *.
      erewrite bind_run; cycle 1.
      { erewrite bind_run by exact Hadd. reflexivity. }
      cbv beta iota.
      erewrite bind_run by reflexivity. intros [= <-]. cbn [world].
      etransitivity; [exact Hw2 |]. rewrite pages_100_concat.
      by rewrite Hw1.
Qed.

(** main, once the start-up checks pass and the playlist is found. *)
Lemma sim_main (args : Args) (env : Environ)
      (fs : string -> option InputFile) (cid csecret : string)
      (file : InputFile) (fmt : Format) (tracks : list Track)
      (e : PlaylistEntry) (playlist : list string)
      (r : Run (World service)) :
  truthy_str (or_else (client_id args) (SPOTIFY_CLIENT_ID env)) = Some cid ->
  truthy_str (or_else (client_secret args) (SPOTIFY_CLIENT_SECRET env))
  = Some csecret ->
  fs (playlist_file args) = Some file ->
  dispatch (playlist_file args) = Some fmt ->
  read_playlist fmt file = PlaylistReader.Ok tracks -> tracks <> [] ->
  skip_duplicates args = true ->
  sim_faults (world r) = [] ->
  List.find (name_matches (playlist_name args)) (sim_listing (world r))
  = Some e ->
  entry_id e <> "" ->
  sim_tracks (world r) !! entry_id e = Some playlist ->
  exists r',
    main service args env fs r = (ExitOk, r') /\
    world r'
    = (if dry_run args then world r
       else with_tracks (world r)
              (<[entry_id e :=
                   playlist ++ new_ids (sim_catalog (world r)) playlist tracks]>
                 (sim_tracks (world r)))) /\
    (dry_run args = true \/
     new_ids (sim_catalog (world r)) playlist tracks = [] ->
     extends not_add r r').
Proof.
  intros Hcid Hsecret Hfile Hfmt Hread Hne Hskip Hok Hfind Hid Hpl.
  unfold main. unfold dispatch in Hfmt.
  rewrite Hcid, Hsecret, Hfile, Hfmt, Hread.
  destruct tracks as [|track tracks]; [done |].
  unfold session. erewrite bind_run by reflexivity.
  erewrite bind_run; cycle 1.
  { unfold call. cbn [connect service]. rewrite attempt_ok by done.
    reflexivity. }
  cbn [world calls stdout].
  unfold resolve_playlist.
  destruct (sim_find_playlist (playlist_name args)
              (MkRun (world r) (calls r ++ [CallConnect cid csecret])
                     (stdout r ++ [MsgTracksInFile (length (track :: tracks))]))
              Hok) as (r1 & Hfound & Hw1 & Hext1).
  cbn [world] in *. rewrite Hfind in Hfound. cbn [fmap option_fmap option_map] in Hfound.
  erewrite bind_run; cycle 1.
  { erewrite bind_run by exact Hfound.
    assert (truthy_str (Some (entry_id e)) = Some (entry_id e)) as ->.
    { unfold truthy_str. by destruct (entry_id e). }
    erewrite bind_run by reflexivity. reflexivity. }
  cbv beta iota.
  destruct (sim_reconcile_world args (entry_id e) (track :: tracks) playlist
              (MkRun (world r1) (calls r1)
                     (stdout r1 ++ [MsgFoundPlaylist (playlist_name args)])))
    as (r2 & Hrun & Hw2 & _ & Hquiet);
    [done | cbn [world]; by rewrite Hw1 | cbn [world]; by rewrite Hw1 |].
  cbn [world] in *. rewrite Hw1 in *.
  exists r2. split; [exact Hrun |]. split; [exact Hw2 |].
  intros Hnone. specialize (Hquiet Hnone).
  assert (extends not_add r r1) as H1.
  { eapply extends_trans; [|exact Hext1].
    exists [CallConnect cid csecret],
           [MsgTracksInFile (length (track :: tracks))].
    cbn [calls stdout]. split_and!; [done | done |].
    by apply Forall_singleton. }
  assert (extends not_add r1
            (MkRun (world r) (calls r1)
                   (stdout r1 ++ [MsgFoundPlaylist (playlist_name args)])))
    as H2 by (eapply extends_out; reflexivity).
  exact (extends_trans _ _ _ _ H1 (extends_trans _ _ _ _ H2 Hquiet)).
Qed.

End SimMain.

Module SimSession.
Import Spotify Prog SpotifyManager Main Sim Spec Props RunFacts SimFacts
       SimProps SimMain.

Lemma find_app_none {A} (f : A -> bool) (l l' : list A) :
  List.find f l = None -> List.find f (l ++ l') = List.find f l'.
Proof.
  induction l as [|x l IH]; [done |]. simpl.
  destruct (f x); [done | exact IH].
Qed.

Lemma name_matches_created (name : string) :
  name_matches name {| entry_name := name; entry_id := created_id name |}
  = true.
Proof. unfold name_matches. simpl. apply String.eqb_refl. Qed.

(** create_playlist against the reference service, when the id is free. *)
Lemma sim_create_playlist (name description : string)
      (r : Run (World service)) :
  sim_faults (world r) = [] ->
  sim_tracks (world r) !! created_id name = None ->
  create_playlist service name description r
  = (Some (created_id name),
     MkRun (MkSim (sim_catalog (world r)) (sim_user (world r))
                  (sim_listing (world r)
                     ++ [{| entry_name := name; entry_id := created_id name |}])
                  (<[created_id name := []]> (sim_tracks (world r)))
                  (sim_faults (world r)))
           (calls r ++ [CallCurrentUser;
                        CallUserPlaylistCreate (sim_user (world r)) name false
                                               description])
           (stdout r)).
Proof.
  intros Hok Hfree. unfold create_playlist.
  erewrite bind_run; cycle 1.
  { unfold call. cbn [current_user service]. rewrite attempt_ok by done.
    reflexivity. }
  cbv beta iota.
  erewrite bind_run; cycle 1.
  { unfold call. cbn [user_playlist_create service world calls stdout].
    rewrite attempt_ok by done. unfold sim_create.
    fold (created_id name). rewrite Hfree. reflexivity. }
  cbv beta iota. unfold ret. cbn [world calls stdout].
  by rewrite <- app_assoc.
Qed.

End SimSession.

(** X19. Against the reference service with no failing call,
    is_track_in_playlist answers exactly whether the id is among the ids
    of the playlist, however many pages the playlist has, and changes
    nothing. *)
Theorem is_track_in_playlist_exact (playlist_id track_id : string)
        (ids : list string) (r : Prog.Run (Spotify.World Sim.service)) :
  Sim.sim_faults (Prog.world r) = [] ->
  Sim.sim_tracks (Prog.world r) !! playlist_id = Some ids ->
  (SpotifyManager.is_track_in_playlist Sim.service playlist_id track_id r).1
  = bool_decide (track_id ∈ ids) /\
  Prog.world
    (SpotifyManager.is_track_in_playlist Sim.service playlist_id track_id r).2
  = Prog.world r.
Proof.
  intros Hok Hids.
  destruct (SimFacts.sim_is_track_in_playlist playlist_id track_id ids r
              Hok Hids) as (r' & -> & Hw & _).
  by split.
Qed.

Lemma is_track_in_playlist_exact_witness :
  (SpotifyManager.is_track_in_playlist
     Sim.service "pl-1" "id-y" (Samples.start Samples.world0)).1
  = bool_decide ("id-y" ∈ ["id-y"]) /\
  Prog.world
    (SpotifyManager.is_track_in_playlist
       Sim.service "pl-1" "id-y" (Samples.start Samples.world0)).2
  = Samples.world0.
Proof.
  apply (is_track_in_playlist_exact "pl-1" "id-y" ["id-y"]
           (Samples.start Samples.world0) eq_refl eq_refl).
Defined.

(** X20. Against the reference service with no failing call, a playlist
    that main creates is found by the next run: when no playlist has the
    requested name up to case and --create-playlist is set, the playlist
    resolution creates an empty playlist and returns its id, and the same
    resolution run again returns that id, reports the playlist as found
    and changes nothing. *)
Theorem created_playlist_is_found (args : Main.Args) (w0 : Sim.SimWorld) :
  Main.create_playlist_flag args = true ->
  Sim.sim_faults w0 = [] ->
  List.find (Props.name_matches (Main.playlist_name args)) (Sim.sim_listing w0)
  = None ->
  Sim.sim_tracks w0 !! Props.created_id (Main.playlist_name args) = None ->
  let run1 := Main.resolve_playlist Sim.service args (Prog.MkRun w0 [] []) in
  let run2 :=
    Main.resolve_playlist Sim.service args
                          (Prog.MkRun (Prog.world run1.2) [] []) in
  run1.1 = inr (Props.created_id (Main.playlist_name args)) /\
  Sim.sim_tracks (Prog.world run1.2)
    !! Props.created_id (Main.playlist_name args) = Some [] /\
  run2.1 = inr (Props.created_id (Main.playlist_name args)) /\
  last (Prog.stdout run2.2)
  = Some (MsgFoundPlaylist (Main.playlist_name args)) /\
  Prog.world run2.2 = Prog.world run1.2.
Proof.
  intros Hflag Hok Hfind Hfree run1 run2.
  set (name := Main.playlist_name args) in *.
  destruct (SimProps.sim_find_playlist name (Prog.MkRun w0 [] []) Hok)
    as (r1 & Hfound & Hw1 & _).
  cbn [Prog.world] in Hfound, Hw1. rewrite Hfind in Hfound.
  assert (Main.truthy_str (Some (Props.created_id name))
          = Some (Props.created_id name)) as Htruthy by done.
  assert (exists r2,
            run1 = (inr (Props.created_id name), r2) /\
            Prog.world r2
            = Sim.MkSim (Sim.sim_catalog w0) (Sim.sim_user w0)
                (Sim.sim_listing w0
                   ++ [{| Spotify.entry_name := name;
                          Spotify.entry_id := Props.created_id name |}])
                (<[Props.created_id name := []]> (Sim.sim_tracks w0))
                (Sim.sim_faults w0)) as (r2 & Hrun1 & Hw2).
  { subst run1. unfold Main.resolve_playlist. fold name.
    erewrite SimFacts.bind_run by exact Hfound.
    cbn [fmap option_fmap option_map Main.truthy_str]. rewrite Hflag.
    erewrite SimFacts.bind_run by reflexivity.
    erewrite SimFacts.bind_run; cycle 1.
    { apply SimSession.sim_create_playlist; cbn [Prog.world];
        by rewrite Hw1. }
    rewrite Htruthy.
    erewrite SimFacts.bind_run by reflexivity.
    eexists. split; [reflexivity |]. cbn [Prog.world]. by rewrite Hw1. }
  assert (Sim.sim_faults (Prog.world r2) = []) as Hok2 by by rewrite Hw2.
  destruct (SimProps.sim_find_playlist name
              (Prog.MkRun (Prog.world r2) [] []) Hok2)
    as (r3 & Hfound3 & Hw3 & Hext3).
  cbn [Prog.world] in Hfound3, Hw3.
  assert (List.find (Props.name_matches name) (Sim.sim_listing (Prog.world r2))
          = Some {| Spotify.entry_name := name;
                    Spotify.entry_id := Props.created_id name |}) as Hfind3.
  { rewrite Hw2. cbn [Sim.sim_listing].
    rewrite SimSession.find_app_none by done.
    cbn [List.find]. by rewrite SimSession.name_matches_created. }
  rewrite Hfind3 in Hfound3.
  cbn [fmap option_fmap option_map Spotify.entry_id] in Hfound3.
  subst run2. rewrite Hrun1. cbn [fst snd].
  split; [done |]. split; [rewrite Hw2; apply lookup_insert_eq |].
  unfold Main.resolve_playlist. fold name.
  erewrite SimFacts.bind_run by exact Hfound3.
  rewrite Htruthy.
  erewrite SimFacts.bind_run by reflexivity.
  cbn [fst snd Prog.ret Prog.world Prog.stdout].
  split; [done |]. split; [apply last_snoc | done].
Qed.

Lemma created_playlist_is_found_witness :
  let w0 := Sim.MkSim Samples.catalog "user-1" [] ∅ [] in
  let run1 :=
    Main.resolve_playlist Sim.service Samples.mp3_args (Prog.MkRun w0 [] []) in
  let run2 :=
    Main.resolve_playlist Sim.service Samples.mp3_args
                          (Prog.MkRun (Prog.world run1.2) [] []) in
  run1.1 = inr (Props.created_id "road trip") /\
  Sim.sim_tracks (Prog.world run1.2) !! Props.created_id "road trip"
  = Some [] /\
  run2.1 = inr (Props.created_id "road trip") /\
  last (Prog.stdout run2.2) = Some (MsgFoundPlaylist "road trip") /\
  Prog.world run2.2 = Prog.world run1.2.
Proof.
  apply (created_playlist_is_found
           Samples.mp3_args (Sim.MkSim Samples.catalog "user-1" [] ∅ [])
           eq_refl eq_refl eq_refl).
  apply lookup_empty.
Defined.

(** X21. The whole program is idempotent under --skip-duplicates: against
    the reference service with no failing call, when the start-up checks
    pass and the playlist exists, a run of main ends with status 0, and a
    second run of main with the same arguments on the state the first one
    left ends with status 0 too, issues no playlist_add_items call and
    leaves the service as the first run left it. *)
Theorem main_second_run_adds_nothing (args : Main.Args) (env : Main.Environ)
        (fs : string -> option Main.InputFile) (cid csecret : string)
        (file : Main.InputFile) (fmt : Main.Format) (tracks : list Track)
        (e : Spotify.PlaylistEntry) (playlist : list string)
        (w0 : Sim.SimWorld) :
  Main.truthy_str (Main.or_else (Main.client_id args)
                                (Main.SPOTIFY_CLIENT_ID env)) = Some cid ->
  Main.truthy_str (Main.or_else (Main.client_secret args)
                                (Main.SPOTIFY_CLIENT_SECRET env))
  = Some csecret ->
  fs (Main.playlist_file args) = Some file ->
  Main.dispatch (Main.playlist_file args) = Some fmt ->
  Main.read_playlist fmt file = PlaylistReader.Ok tracks ->
  tracks <> [] ->
  Main.skip_duplicates args = true ->
  Sim.sim_faults w0 = [] ->
  List.find (Props.name_matches (Main.playlist_name args)) (Sim.sim_listing w0)
  = Some e ->
  Spotify.entry_id e <> "" ->
  Sim.sim_tracks w0 !! Spotify.entry_id e = Some playlist ->
  let run1 := Main.main Sim.service args env fs (Prog.MkRun w0 [] []) in
  let run2 :=
    Main.main Sim.service args env fs
              (Prog.MkRun (Prog.world run1.2) [] []) in
  run1.1 = Main.ExitOk /\
  Sim.sim_tracks (Prog.world run1.2) !! Spotify.entry_id e
  = Some (if Main.dry_run args then playlist
          else playlist ++ Sim.new_ids (Sim.sim_catalog w0) playlist tracks) /\
  run2.1 = Main.ExitOk /\
  Forall Spec.not_add (Prog.calls run2.2) /\
  Prog.world run2.2 = Prog.world run1.2.
Proof.
  intros Hcid Hsecret Hfile Hfmt Hread Hne Hskip Hok Hfind Hid Hpl run1 run2.
  destruct (SimMain.sim_main args env fs cid csecret file fmt tracks e
              playlist (Prog.MkRun w0 [] [])
              Hcid Hsecret Hfile Hfmt Hread Hne Hskip Hok Hfind Hid Hpl)
    as (r1 & Hrun1 & Hw1 & _).
  cbn [Prog.world] in Hw1.
  set (playlist' := if Main.dry_run args then playlist
                    else playlist ++ Sim.new_ids (Sim.sim_catalog w0)
                                                 playlist tracks).
  assert (Sim.sim_faults (Prog.world r1) = [] /\
          Sim.sim_listing (Prog.world r1) = Sim.sim_listing w0 /\
          Sim.sim_catalog (Prog.world r1) = Sim.sim_catalog w0 /\
          Sim.sim_tracks (Prog.world r1) !! Spotify.entry_id e
          = Some playlist') as (Hok1 & Hlist1 & Hcat1 & Hpl1).
  { rewrite Hw1. subst playlist'. destruct (Main.dry_run args); [done |].
    cbn [Sim.with_tracks Sim.sim_faults Sim.sim_listing Sim.sim_catalog
         Sim.sim_tracks].
    split_and!; [done | done | done | apply lookup_insert_eq]. }
  assert (List.find (Props.name_matches (Main.playlist_name args))
                    (Sim.sim_listing (Prog.world r1)) = Some e) as Hfind1
    by by rewrite Hlist1.
  destruct (SimMain.sim_main args env fs cid csecret file fmt tracks e
              playlist' (Prog.MkRun (Prog.world r1) [] [])
              Hcid Hsecret Hfile Hfmt Hread Hne Hskip Hok1 Hfind1 Hid Hpl1)
    as (r2 & Hrun2 & Hw2 & Hquiet).
  cbn [Prog.world] in Hw2, Hquiet. rewrite Hcat1 in Hw2, Hquiet.
  assert (Main.dry_run args = true \/
          Sim.new_ids (Sim.sim_catalog w0) playlist' tracks = []) as Hnone.
  { subst playlist'. destruct (Main.dry_run args); [by left | right].
    apply SimFacts.new_ids_again. }
  subst run1 run2. rewrite Hrun1. cbn [fst snd]. rewrite Hrun2. cbn [fst snd].
  split_and!; [done | done | done | |].
  - destruct (Hquiet Hnone) as (cs & ms & Hcalls & _ & Hcs).
    cbn [Prog.calls] in Hcalls. by rewrite Hcalls.
  - rewrite Hw2. destruct (Main.dry_run args) eqn:Hdry; [done |].
    destruct Hnone as [? | ->]; [done |].
    rewrite app_nil_r, insert_id by done. apply SimMain.with_tracks_same.
Qed.

Lemma main_second_run_adds_nothing_witness :
  let run1 :=
    Main.main Sim.service Samples.args0 Samples.env0 Samples.fs0
              (Prog.MkRun Samples.world0 [] []) in
  let run2 :=
    Main.main Sim.service Samples.args0 Samples.env0 Samples.fs0
              (Prog.MkRun (Prog.world run1.2) [] []) in
  run1.1 = Main.ExitOk /\
  Sim.sim_tracks (Prog.world run1.2) !! "pl-1"
  = Some (["id-y"] ++ Sim.new_ids Samples.catalog ["id-y"]
                                  (PlaylistReader.read_txt
                                     (Main.file_text Samples.file0))) /\
  run2.1 = Main.ExitOk /\
  Forall Spec.not_add (Prog.calls run2.2) /\
  Prog.world run2.2 = Prog.world run1.2.
Proof.
  apply (main_second_run_adds_nothing
           Samples.args0 Samples.env0 Samples.fs0 "cid" "secret"
           Samples.file0 Main.TXT
           (PlaylistReader.read_txt (Main.file_text Samples.file0))
           {| Spotify.entry_name := "Road Trip"; Spotify.entry_id := "pl-1" |}
           ["id-y"] Samples.world0
           eq_refl eq_refl eq_refl eq_refl eq_refl);
    [by vm_compute | reflexivity | reflexivity | reflexivity | by vm_compute
     | reflexivity].
Defined.
